(** * EdgeDB schema catalog and function-call binding: a shallow embedding

    The development follows two source files:
    - [edb/lang/schema/schema.py]: the persistent catalog ([Schema]) with its
      name, short-name and reverse-reference indices (module [schema]);
    - [edb/lang/edgeql/compiler/func.py]: argument binding
      ([try_bind_func_args]) and candidate selection ([compile_FunctionCall])
      (module [func]).

    Python exceptions are modelled by the error monad [res]; [immutables.Map]
    by stdpp's [gmap]; [frozenset] by [gset]; Python integers by [Z]. *)

From Stdlib Require Import ZArith Lia.
From stdpp Require Import base option list gmap strings sets fin_maps.

Set Warnings "-clear-no-such-hyp".

Local Open Scope string_scope.
Local Open Scope list_scope.

(** ** Exceptions and the error monad *)

Inductive error : Type :=
  | SchemaError (msg : string)
  | SchemaModuleNotFoundError
  | ItemNotFoundError
  | KeyError
  | AttributeError
  | ValueError
  | TypeError
  | IndexError
  | RuntimeError (msg : string)
  | UnicodeDecodeError
  | OverflowError
  | EdgeQLError (msg : string).

Inductive res (A : Type) : Type :=
  | Ok (a : A)
  | Err (e : error).
Arguments Ok {A} a.
Arguments Err {A} e.

Global Instance res_ret : MRet res := @Ok.
Global Instance res_bind : MBind res :=
  λ A B f m, match m with Ok a => f a | Err e => Err e end.

Lemma bind_Ok {A B} (f : A → res B) (a : A) : (Ok a ≫= f) = f a.
Proof. reflexivity. Qed.

Lemma bind_Err {A B} (f : A → res B) (e : error) : (Err e ≫= f) = Err e.
Proof. reflexivity. Qed.

Lemma bind_Ok_inv {A B} (m : res A) (f : A → res B) (b : B) :
  m ≫= f = Ok b → ∃ a, m = Ok a ∧ f a = Ok b.
Proof. destruct m as [a|e]; [eauto | discriminate]. Qed.

(** A loop whose body may raise: [for x in l: acc = f(acc, x)]. *)
Fixpoint foldM {A B} (f : B → A → res B) (b : B) (l : list A) : res B :=
  match l with
  | [] => Ok b
  | x :: l' => b' ← f b x; foldM f b' l'
  end.


Lemma foldM_ext {A B} (f g : B → A → res B) (b : B) (l : list A) :
  (∀ b x, f b x = g b x) → foldM f b l = foldM g b l.
Proof.
  intros Hfg. revert b. induction l as [|x l IH]; intros b; simpl; [done|].
  rewrite Hfg. destruct (g b x); simpl; [apply IH | done].
Qed.

(** A comprehension whose element expression may raise. *)
Fixpoint mapM {A B} (f : A → res B) (l : list A) : res (list B) :=
  match l with
  | [] => Ok []
  | x :: l' => y ← f x; ys ← mapM f l'; Ok (y :: ys)
  end.

(** [m[k]] and [immutables.Map.delete], both raising [KeyError]. *)
Definition getitem `{Countable K} {V} (m : gmap K V) (k : K) : res V :=
  match m !! k with
  | Some v => Ok v
  | None => Err KeyError
  end.

Definition map_delete `{Countable K} {V} (k : K) (m : gmap K V) : res (gmap K V) :=
  match m !! k with
  | Some _ => Ok (delete k m)
  | None => Err KeyError
  end.

Lemma getitem_Some `{Countable K} {V} (m : gmap K V) (k : K) (v : V) :
  getitem m k = Ok v ↔ m !! k = Some v.
Proof. unfold getitem. destruct (m !! k); split; congruence. Qed.

Lemma map_delete_Ok `{Countable K} {V} (m m' : gmap K V) (k : K) :
  map_delete k m = Ok m' → is_Some (m !! k) ∧ m' = delete k m.
Proof. unfold map_delete. destruct (m !! k); [|done]. intros [= <-]. eauto. Qed.

Ltac inv_bind H :=
  let a := fresh "a" in
  let Ha := fresh "Hbind" in
  apply bind_Ok_inv in H as (a & Ha & H).

(** ** Names ([edb.lang.schema.name])

    A name is either qualified ([SchemaName(name, module)], a [str] subclass
    whose text is [module::name]) or a bare string, as modules have. *)

Inductive Name : Type :=
  | SchemaName (name : string) (module : string)
  | Unqualified (s : string).

Global Instance Name_eq_dec : EqDecision Name.
Proof. solve_decision. Defined.

Global Instance Name_countable : Countable Name.
Proof.
  refine (inj_countable'
    (λ n, match n with
          | SchemaName n m => inl (n, m)
          | Unqualified s => inr s
          end)
    (λ x, match x with
          | inl (n, m) => SchemaName n m
          | inr s => Unqualified s
          end) _).
  by intros [].
Defined.

(** [str(name)] *)
Definition name_str (n : Name) : string :=
  match n with
  | SchemaName n m => (m ++ "::" ++ n)%string
  | Unqualified s => s
  end.

(** [name.module]: a bare [str] has no such attribute. *)
Definition name_module (n : Name) : res string :=
  match n with
  | SchemaName _ m => Ok m
  | Unqualified _ => Err AttributeError
  end.

(** [sn.split_name]: the name, its module (or [None]) and its short name. *)
Definition split_name (n : Name) : Name * option string * string :=
  match n with
  | SchemaName nm m => (n, Some m, nm)
  | Unqualified s => (n, None, s)
  end.

Module schema.

Definition uuid := positive.

Section Catalog.

(** Schema classes ([so.ObjectMeta] instances) are a parameter: the catalog
    only compares them, asks [issubclass] and reads the table of their
    reference-typed fields. *)
Context {cls : Type} {cls_eq_dec : EqDecision cls} {cls_countable : Countable cls}.
Variable s_func_Function s_oper_Operator s_modules_Module : cls.
Variable issubclass : cls → cls → bool.
(** [scls_type.get_object_fields()], by field name. *)
Variable get_object_fields : cls → list string.
Variable shortname_from_fullname : Name → Name.

(** A schema object as the catalog sees it: its [id] and [type(obj)].
    Objects compare by these two. *)
Record Object : Type := mkObject { obj_id : uuid; obj_type : cls }.

Global Instance Object_eq_dec : EqDecision Object.
Proof. solve_decision. Defined.

Global Instance Object_countable : Countable Object.
Proof.
  refine (inj_countable' (λ o, (obj_id o, obj_type o))
                         (λ p, mkObject p.1 p.2) _).
  by intros [].
Defined.

Definition isinstance (o : Object) (t : cls) : bool := issubclass (obj_type o) t.

(** Field values stored in [id_to_data]. *)
Inductive value : Type :=
  | VName (n : Name)
  | VObject (o : Object)
  | VObjectCollection (ids : list uuid)
  | VOther (repr : string)
  | VNone.

Global Instance value_eq_dec : EqDecision value.
Proof. solve_decision. Defined.

Record Schema : Type := mkSchema {
  _modules : gmap string uuid;
  _id_to_data : gmap uuid (gmap string value);
  _id_to_type : gmap uuid Object;
  _shortname_to_id : gmap (cls * Name) (gset uuid);
  _name_to_id : gmap Name uuid;
  _refs_to : gmap uuid (gmap (cls * string) (gset uuid));
  _generation : nat
}.

(** [Schema.__init__] *)
Definition empty_schema : Schema :=
  {| _modules := ∅; _id_to_data := ∅; _id_to_type := ∅;
     _shortname_to_id := ∅; _name_to_id := ∅; _refs_to := ∅;
     _generation := 0 |}.

Definition _replace (self : Schema)
    (id_to_data : option (gmap uuid (gmap string value)))
    (id_to_type : option (gmap uuid Object))
    (name_to_id : option (gmap Name uuid))
    (shortname_to_id : option (gmap (cls * Name) (gset uuid)))
    (modules : option (gmap string uuid))
    (refs_to : option (gmap uuid (gmap (cls * string) (gset uuid)))) : Schema :=
  {| _modules := default (_modules self) modules;
     _id_to_data := default (_id_to_data self) id_to_data;
     _id_to_type := default (_id_to_type self) id_to_type;
     _name_to_id := default (_name_to_id self) name_to_id;
     _shortname_to_id := default (_shortname_to_id self) shortname_to_id;
     _refs_to := default (_refs_to self) refs_to;
     _generation := _generation self + 1 |}.

Definition has_sn_cache (stype : cls) : bool :=
  issubclass stype s_func_Function || issubclass stype s_oper_Operator.

Definition _update_obj_name (self : Schema) (obj_id : uuid) (scls : Object)
    (old_name new_name : option Name)
  : res (gmap Name uuid * gmap (cls * Name) (gset uuid)) :=
  let stype := obj_type scls in
  '(name_to_id, shortname_to_id) ←
    match old_name with
    | None => Ok (_name_to_id self, _shortname_to_id self)
    | Some old_name =>
        name_to_id ← map_delete old_name (_name_to_id self);
        if has_sn_cache stype then
          let sn_key := (stype, shortname_from_fullname old_name) in
          ids ← getitem (_shortname_to_id self) sn_key;
          let new_ids := ids ∖ {[obj_id]} in
          if decide (new_ids = ∅)
          then Ok (name_to_id, delete sn_key (_shortname_to_id self))
          else Ok (name_to_id, <[sn_key := new_ids]> (_shortname_to_id self))
        else Ok (name_to_id, _shortname_to_id self)
    end;
  match new_name with
  | None => Ok (name_to_id, shortname_to_id)
  | Some new_name =>
      if decide (is_Some (name_to_id !! new_name))
      then Err (SchemaError "name is already in the schema")
      else
        let name_to_id := <[new_name := obj_id]> name_to_id in
        if has_sn_cache stype then
          let sn_key := (stype, shortname_from_fullname new_name) in
          let ids := default ∅ (shortname_to_id !! sn_key) in
          Ok (name_to_id, <[sn_key := ids ∪ {[obj_id]}]> shortname_to_id)
        else Ok (name_to_id, shortname_to_id)
  end.

(** *** The reverse-reference index *)

(** The identities a reference value points at: [ref.ids(schema)] for a
    collection, [ref.id] otherwise (which only objects have). *)
Definition ref_ids (ref : value) : res (gset uuid) :=
  match ref with
  | VObjectCollection ids => Ok (list_to_set ids)
  | VObject o => Ok {[ obj_id o ]}
  | _ => Err AttributeError
  end.

(** [ids] (or [orig_ids]) for one field: [None] when the data is falsy or
    lacks the field. *)
Definition field_ids (data : option (gmap string value)) (fname : string)
  : res (option (gset uuid)) :=
  match data with
  | None => Ok None
  | Some d =>
      if decide (d = ∅) then Ok None
      else match d !! fname with
           | None => Ok None
           | Some ref => ids ← ref_ids ref; Ok (Some ids)
           end
  end.

(** Truth value of an optional frozenset. *)
Definition truthy (ids : option (gset uuid)) : bool :=
  match ids with
  | Some s => bool_decide (s ≠ ∅)
  | None => false
  end.

Definition ids_elements (ids : option (gset uuid)) : list uuid :=
  match ids with
  | Some s => elements s
  | None => []
  end.

(** Body of [for ref_id in new_ids]. *)
Definition add_ref (key : cls * string) (id_set : gset uuid)
    (mm : gmap uuid (gmap (cls * string) (gset uuid))) (ref_id : uuid)
  : gmap uuid (gmap (cls * string) (gset uuid)) :=
  match mm !! ref_id with
  | None => <[ref_id := {[ key := id_set ]}]> mm
  | Some refs =>
      let field_refs :=
        match refs !! key with
        | None => id_set
        | Some field_refs => field_refs ∪ id_set
        end in
      <[ref_id := <[key := field_refs]> refs]> mm
  end.

(** Body of [for ref_id in old_ids]. *)
Definition remove_ref (key : cls * string) (id_set : gset uuid)
    (mm : gmap uuid (gmap (cls * string) (gset uuid))) (ref_id : uuid)
  : res (gmap uuid (gmap (cls * string) (gset uuid))) :=
  refs ← getitem mm ref_id;
  field_refs ← getitem refs key;
  let field_refs := field_refs ∖ id_set in
  if decide (field_refs = ∅)
  then Ok (<[ref_id := delete key refs]> mm)
  else Ok (<[ref_id := <[key := field_refs]> refs]> mm).

(** Body of [for field in objfields]. *)
Definition update_field_refs (scls_type : cls) (id_set : gset uuid)
    (orig_data new_data : option (gmap string value))
    (mm : gmap uuid (gmap (cls * string) (gset uuid))) (field : string)
  : res (gmap uuid (gmap (cls * string) (gset uuid))) :=
  ids ← field_ids new_data field;
  orig_ids ← field_ids orig_data field;
  if negb (truthy ids) && negb (truthy orig_ids) then Ok mm
  else
    let key := (scls_type, field) in
    let '(new_ids, old_ids) :=
      if truthy ids && truthy orig_ids
      then (Some (default ∅ ids ∖ default ∅ orig_ids),
            Some (default ∅ orig_ids ∖ default ∅ ids))
      else if truthy ids then (ids, None)
      else (None, orig_ids) in
    let mm :=
      if truthy new_ids
      then foldl (add_ref key id_set) mm (ids_elements new_ids)
      else mm in
    if truthy old_ids
    then foldM (remove_ref key id_set) mm (ids_elements old_ids)
    else Ok mm.

Definition _update_refs_to (self : Schema) (scls : Object)
    (orig_data new_data : option (gmap string value))
  : res (gmap uuid (gmap (cls * string) (gset uuid))) :=
  let scls_type := obj_type scls in
  let objfields := get_object_fields scls_type in
  match objfields with
  | [] => Ok (_refs_to self)
  | _ =>
      let id_set : gset uuid := {[ obj_id scls ]} in
      foldM (update_field_refs scls_type id_set orig_data new_data)
            (_refs_to self) objfields
  end.

(** The [name] field holds a name; [data.get('name')] is [None] when the
    field is absent or holds [None]. Values of other shapes are outside the
    [sn] name types and are rejected here. *)
Definition as_name (v : value) : res Name :=
  match v with
  | VName n => Ok n
  | _ => Err TypeError
  end.

Definition as_opt_name (v : value) : res (option Name) :=
  match v with
  | VNone => Ok None
  | VName n => Ok (Some n)
  | _ => Err TypeError
  end.

(** [data.get(field)] *)
Definition data_get (data : gmap string value) (field : string) : value :=
  default VNone (data !! field).

Definition _add (self : Schema) (id : uuid) (scls : Object)
    (data : gmap string value) : res Schema :=
  name ← getitem data "name" ≫= as_name;
  if decide (is_Some (_name_to_id self !! name))
  then Err (SchemaError "is already present in the schema")
  else
    '(name_to_id, shortname_to_id) ←
       _update_obj_name self id scls None (Some name);
    let id_to_data := <[id := data]> (_id_to_data self) in
    let id_to_type := <[id := scls]> (_id_to_type self) in
    refs_to ← _update_refs_to self scls None (Some data);
    modules ←
      (if isinstance scls s_modules_Module
       then Ok (Some (<[name_str name := id]> (_modules self)))
       else
         m ← name_module name;
         if decide (is_Some (_modules self !! m)) then Ok None
         else Err SchemaModuleNotFoundError);
    Ok (_replace self (Some id_to_data) (Some id_to_type) (Some name_to_id)
                 (Some shortname_to_id) modules (Some refs_to)).

Definition _delete (self : Schema) (obj : Object) : res Schema :=
  match _id_to_data self !! obj_id obj with
  | None => Err ItemNotFoundError
  | Some data =>
      name ← getitem data "name" ≫= as_name;
      modules ←
        (if isinstance obj s_modules_Module
         then m ← map_delete (name_str name) (_modules self); Ok (Some m)
         else Ok None);
      stored ← getitem (_id_to_type self) (obj_id obj);
      '(name_to_id, shortname_to_id) ←
         _update_obj_name self (obj_id obj) stored (Some name) None;
      data' ← getitem (_id_to_data self) (obj_id obj);
      refs_to ← _update_refs_to self obj (Some data') None;
      id_to_data ← map_delete (obj_id obj) (_id_to_data self);
      id_to_type ← map_delete (obj_id obj) (_id_to_type self);
      Ok (_replace self (Some id_to_data) (Some id_to_type) (Some name_to_id)
                   (Some shortname_to_id) modules (Some refs_to))
  end.

Definition discard (self : Schema) (obj : Object) : res Schema :=
  if decide (is_Some (_id_to_data self !! obj_id obj))
  then _delete self obj
  else Ok self.

Definition delete (self : Schema) (obj : Object) : res Schema :=
  _delete self obj.

Definition _get_obj_field (self : Schema) (obj_id : uuid) (field : string)
  : res (option value) :=
  match _id_to_data self !! obj_id with
  | None => Err (SchemaError "cannot get value: item is not present in the schema")
  | Some d => Ok (d !! field)
  end.

Definition _set_obj_field (self : Schema) (obj_id : uuid) (field : string)
    (val : value) : res Schema :=
  match _id_to_data self !! obj_id with
  | None => Err (SchemaError "cannot set value: item is not present in the schema")
  | Some data =>
      names ←
        (if decide (field = "name") then
           old_name ← as_opt_name (data_get data "name");
           scls ← getitem (_id_to_type self) obj_id;
           new_name ← as_opt_name val;
           '(n, s) ← _update_obj_name self obj_id scls old_name new_name;
           Ok (Some n, Some s)
         else Ok (None, None));
      let new_data := <[field := val]> data in
      let id_to_data := <[obj_id := new_data]> (_id_to_data self) in
      scls ← getitem (_id_to_type self) obj_id;
      let orig_field_data : gmap string value :=
        match data !! field with
        | Some v => {[ field := v ]}
        | None => ∅
        end in
      refs_to ← _update_refs_to self scls (Some orig_field_data)
                                (Some {[ field := val ]});
      Ok (_replace self (Some id_to_data) None names.1 names.2 None
                   (Some refs_to))
  end.

(** The common tail of [_unset_obj_field], once [new_data] is known. *)
Definition _unset_obj_field_finish (self : Schema) (obj_id : uuid)
    (field : string) (data new_data : gmap string value)
    (name_to_id : option (gmap Name uuid))
    (shortname_to_id : option (gmap (cls * Name) (gset uuid))) : res Schema :=
  let id_to_data := <[obj_id := new_data]> (_id_to_data self) in
  scls ← getitem (_id_to_type self) obj_id;
  old ← getitem data field;
  refs_to ← _update_refs_to self scls
              (Some ({[ field := old ]} : gmap string value)) None;
  Ok (_replace self (Some id_to_data) None name_to_id shortname_to_id None
               (Some refs_to)).

Definition _unset_obj_field (self : Schema) (obj_id : uuid) (field : string)
  : res Schema :=
  match _id_to_data self !! obj_id with
  | None => Ok self
  | Some data =>
      let name := data_get data "name" in
      if decide (field = "name" ∧ name ≠ VNone) then
        scls ← getitem (_id_to_type self) obj_id;
        old_name ← as_opt_name name;
        '(n, s) ← _update_obj_name self obj_id scls old_name None;
        new_data ← map_delete field data;
        _unset_obj_field_finish self obj_id field data new_data (Some n) (Some s)
      else
        match map_delete field data with
        | Err _ => Ok self
        | Ok new_data =>
            _unset_obj_field_finish self obj_id field data new_data None None
        end
  end.

(** *** Lookups *)

(** [referrers.update(self._id_to_type[objid] for objid in ids)] *)
Definition referrers_update (self : Schema) (referrers : gset Object)
    (ids : list uuid) : res (gset Object) :=
  objs ← mapM (getitem (_id_to_type self)) ids;
  Ok (referrers ∪ list_to_set objs).

Definition get_referrers (self : Schema) (scls : Object)
    (scls_type : option cls) (field_name : option string)
  : res (gset Object) :=
  match _refs_to self !! obj_id scls with
  | None => Ok ∅
  | Some refs =>
      match scls_type, field_name with
      | Some scls_type, Some field_name =>
          foldM (λ referrers '(st, fn, ids),
                   if decide (st = scls_type ∧ fn = field_name)
                   then referrers_update self referrers (elements ids)
                   else Ok referrers)
                ∅ (map_to_list refs)
      | Some scls_type, None =>
          foldM (λ referrers '(st, _, ids),
                   if decide (st = scls_type)
                   then referrers_update self referrers (elements ids)
                   else Ok referrers)
                ∅ (map_to_list refs)
      | None, Some _ =>
          Err ValueError
      | None, None =>
          referrers_update self ∅
            (concat ((λ kv, elements kv.2) <$> map_to_list refs))
      end
  end.

(** [default] is [None] for the [_void] sentinel. *)
Definition get_by_id (self : Schema) (obj_id : uuid) (default : option Object)
  : res Object :=
  match _id_to_type self !! obj_id with
  | Some o => Ok o
  | None => match default with
            | None => Err ItemNotFoundError
            | Some d => Ok d
            end
  end.

(** The [type] argument of the getters: absent, a class, or a tuple. *)
Inductive type_filter : Type :=
  | AnyType
  | OneType (t : cls)
  | TupleOf (ts : list cls).

Definition _get_by_name_one (self : Schema) (name : Name) (type : option cls)
  : res (option Object) :=
  match _name_to_id self !! name with
  | None => Ok None
  | Some obj_id =>
      obj ← getitem (_id_to_type self) obj_id;
      match type with
      | Some t => if isinstance obj t then Ok (Some obj) else Ok None
      | None => Ok (Some obj)
      end
  end.

Fixpoint _get_by_name_tuple (self : Schema) (name : Name) (ts : list cls)
  : res (option Object) :=
  match ts with
  | [] => Ok None
  | typ :: ts' =>
      scls ← _get_by_name_one self name (Some typ);
      match scls with
      | Some o => Ok (Some o)
      | None => _get_by_name_tuple self name ts'
      end
  end.

Definition _get_by_name (self : Schema) (name : Name) (type : type_filter)
  : res (option Object) :=
  match type with
  | TupleOf ts => _get_by_name_tuple self name ts
  | OneType t => _get_by_name_one self name (Some t)
  | AnyType => _get_by_name_one self name None
  end.

(** [Schema._get]: the result is [None] where the source returns [default]. *)
Definition _get {A} (self : Schema) (name : Name)
    (getter : Schema → Name → res (option A))
    (module_aliases : option (gmap (option string) string))
  : res (option A) :=
  let '(name, module, shortname) := split_name name in
  let implicit_builtins := bool_decide (module = None) in
  let module :=
    match module_aliases with
    | Some aliases =>
        match aliases !! module with
        | Some fq_module => Some fq_module
        | None => module
        end
    | None => module
    end in
  result ←
    match module with
    | Some m => getter self (SchemaName shortname m)
    | None => getter self (Unqualified shortname)
    end;
  match result with
  | Some r => Ok (Some r)
  | None =>
      if implicit_builtins then getter self (SchemaName shortname "std")
      else Ok None
  end.

(** [Schema.get]; [default = None] is the [_void] sentinel. *)
Definition get (self : Schema) (name : Name) (default : option Object)
    (module_aliases : option (gmap (option string) string))
    (type : type_filter) : res Object :=
  obj ← _get self name (λ schema name, _get_by_name schema name type)
             module_aliases;
  match obj, default with
  | Some o, _ => Ok o
  | None, Some d => Ok d
  | None, None => Err ItemNotFoundError
  end.

Definition has_module (self : Schema) (module : string) : bool :=
  bool_decide (is_Some (_modules self !! module)).

(** Modelled from the spec: the getter [obj.get_name(schema)] lives in the
    object model, outside the two source files; it reads the object's [name]
    field. *)
Definition get_name (self : Schema) (o : Object) : res Name :=
  v ← _get_obj_field self (obj_id o) "name";
  match v with
  | Some (VName n) => Ok n
  | _ => Err AttributeError
  end.

(** [SchemaIterator.__iter__], forced into a list. *)
Definition get_objects (self : Schema) (modules : option (list string))
    (type : option cls) : res (list Object) :=
  foldM (λ acc o,
           let by_type :=
             match type with
             | Some t => isinstance o t
             | None => true
             end in
           if negb by_type then Ok acc
           else
             match modules with
             | None => Ok (acc ++ [o])
             | Some ms =>
                 if isinstance o s_modules_Module then Ok acc
                 else
                   n ← get_name self o;
                   m ← name_module n;
                   if bool_decide (m ∈ ms) then Ok (acc ++ [o]) else Ok acc
             end)
        [] ((map_to_list (_id_to_type self)).*2).

(** Modelled from the spec: [coll.objects(schema)] lives in the object
    model; it looks up the objects of a collection given by its identities. *)
Definition objects (self : Schema) (ids : list uuid) : res (list Object) :=
  mapM (λ i, get_by_id self i None) ids.

(** Modelled from the spec: the getter [get_bases] lives in the object model,
    which is outside the two source files; it reads the object's declared base
    list (field [bases]), empty when the field is not set. *)
Definition get_bases (self : Schema) (o : Object) : res (list uuid) :=
  v ← _get_obj_field self (obj_id o) "bases";
  match v with
  | Some (VObjectCollection ids) => Ok ids
  | None | Some VNone => Ok []
  | Some _ => Err AttributeError
  end.

(** Modelled from the spec: the getter [get__virtual_children] lives in the
    object model; it reads the precomputed [_virtual_children] field, [None]
    when the field is not set. *)
Definition get__virtual_children (self : Schema) (o : Object)
  : res (option (list uuid)) :=
  v ← _get_obj_field self (obj_id o) "_virtual_children";
  match v with
  | Some (VObjectCollection ids) => Ok (Some ids)
  | None | Some VNone => Ok None
  | Some _ => Err AttributeError
  end.

Definition _find_children (self : Schema) (scls : Object) : res (gset Name) :=
  it ← get_objects self None (Some (obj_type scls));
  kept ← foldM (λ acc p,
                  bases ← get_bases self p ≫= objects self;
                  if bool_decide (scls ∈ bases) then Ok (acc ++ [p]) else Ok acc)
               [] it;
  names ← mapM (get_name self) kept;
  Ok (list_to_set names).

(** The first half of [Schema._get_descendants]: the set [children].
    [material_type] stands for the method [c.material_type(schema)] of the
    type model. *)
Definition _get_descendants_children
    (material_type : Schema → Object → res Object)
    (self : Schema) (scls : Object) : res (gset Object) :=
  _virtual_children ← get__virtual_children self scls;
  child_names ←
    match _virtual_children with
    | None => names ← _find_children self scls; Ok (elements names)
    | Some ids =>
        cs ← objects self ids;
        mapM (λ c, material_type self c ≫= get_name self) cs
    end;
  children ← mapM (λ n, get self n None None (OneType (obj_type scls)))
                  child_names;
  Ok (list_to_set children).

(** [Schema._get_descendants]. The recursion only happens under
    [depth < max_depth], so [max_depth - depth] bounds its depth; [fuel]
    makes that bound structural. *)
Fixpoint _get_descendants_rec (material_type : Schema → Object → res Object)
    (fuel : nat) (self : Schema) (scls : Object)
    (max_depth : option nat) (depth : nat) : res (gset Object) :=
  children ← _get_descendants_children material_type self scls;
  result ←
    (if match max_depth with
        | Some m => bool_decide (depth < m)
        | None => false
        end
     then
       match fuel with
       | O => Err (RuntimeError "maximum recursion depth exceeded")
       | S fuel' =>
           foldM (λ result child,
                    sub ← _get_descendants_rec material_type fuel' self child
                                                max_depth (depth + 1);
                    Ok (result ∪ sub))
                 ∅ (elements children)
       end
     else Ok ∅);
  Ok (result ∪ children).

Definition _get_descendants (material_type : Schema → Object → res Object)
    (self : Schema) (scls : Object)
    (max_depth : option nat) (depth : nat) : res (gset Object) :=
  _get_descendants_rec material_type (default 0 max_depth - depth)
                       self scls max_depth depth.

(** *** Specification vocabulary for the reverse-reference index *)

(** The identities a stored value refers to (none for non-reference values). *)
Definition referenced (v : value) : gset uuid :=
  match v with
  | VObject o => {[ obj_id o ]}
  | VObjectCollection ids => list_to_set ids
  | _ => ∅
  end.

(** The identities field [F] of [data] refers to. *)
Definition field_refs_of (data : option (gmap string value)) (F : string)
  : gset uuid :=
  match data with
  | Some d => match d !! F with
              | Some v => referenced v
              | None => ∅
              end
  | None => ∅
  end.

(** [refs_to[b][key]], empty when either level is missing. *)
Definition refs_at (mm : gmap uuid (gmap (cls * string) (gset uuid)))
    (b : uuid) (key : cls * string) : gset uuid :=
  default ∅ (mm !! b ≫= λ refs, refs !! key).

(** Object [A], present in the catalog, has a reference-typed field [F]
    whose current value refers to identity [b]. *)
Definition stores_ref (S : Schema) (A : Object) (F : string) (b : uuid) : Prop :=
  _id_to_type S !! obj_id A = Some A ∧
  F ∈ get_object_fields (obj_type A) ∧
  ∃ data v, _id_to_data S !! obj_id A = Some data ∧
            data !! F = Some v ∧ b ∈ referenced v.

(** Consistency of a catalog value: objects are filed under their own
    identity and the reverse-reference index mirrors the stored references. *)
Record consistent (S : Schema) : Prop := {
  consistent_ids : ∀ i o, _id_to_type S !! i = Some o → obj_id o = i;
  consistent_refs : ∀ b t F a,
    a ∈ refs_at (_refs_to S) b (t, F) ↔
    ∃ A, obj_id A = a ∧ obj_type A = t ∧ stores_ref S A F b
}.

(** The catalog values: those built from [Schema()] by the mutating
    operations, [add] introducing an identity not yet present (the object
    created for it carrying that identity) and [delete] removing an object
    the catalog holds. *)
Inductive built : Schema → Prop :=
  | built_empty : built empty_schema
  | built_add S id scls data S' :
      built S → obj_id scls = id → _id_to_type S !! id = None →
      _add S id scls data = Ok S' → built S'
  | built_delete S obj S' :
      built S → _id_to_type S !! obj_id obj = Some obj →
      delete S obj = Ok S' → built S'
  | built_set_field S id field v S' :
      built S → _set_obj_field S id field v = Ok S' → built S'
  | built_unset_field S id field S' :
      built S → _unset_obj_field S id field = Ok S' → built S'.

(** Effect of one diff step on the referrer set of [b]: [a] is added where
    [b] is newly referenced, removed where it no longer is, and the set is
    left as it was otherwise. *)
Definition diffed (a : uuid) (new_ids orig_ids : gset uuid) (b : uuid)
    (X : gset uuid) : gset uuid :=
  if decide (b ∈ new_ids ∖ orig_ids) then X ∪ {[ a ]}
  else if decide (b ∈ orig_ids ∖ new_ids) then X ∖ {[ a ]}
  else X.

(** ** Properties of the catalog *)

Lemma mapM_getitem_elem `{Countable K} {V} (m : gmap K V) (l : list K)
    (vs : list V) :
  mapM (getitem m) l = Ok vs →
  ∀ v, v ∈ vs ↔ ∃ k, k ∈ l ∧ m !! k = Some v.
Proof.
  revert vs. induction l as [|k l IH]; intros vs Hm v; simpl in Hm.
  - injection Hm as <-. split; [by intros ?%elem_of_nil|].
    by intros (k & ?%elem_of_nil & _).
  - inv_bind Hm. inv_bind Hm. injection Hm as <-.
    apply getitem_Some in Hbind.
    rewrite elem_of_cons, (IH _ Hbind0 v). split.
    + intros [->|(k' & ? & ?)].
      * exists k. split; [left|done].
      * exists k'. split; [by right|done].
    + intros (k' & [->|Hin]%elem_of_cons & Hk').
      * left. congruence.
      * right. eauto.
Qed.

Lemma mapM_getitem_total `{Countable K} {V} (m : gmap K V) (l : list K) :
  (∀ k, k ∈ l → is_Some (m !! k)) → ∃ vs, mapM (getitem m) l = Ok vs.
Proof.
  induction l as [|k l IH]; intros Hl; simpl; [eauto|].
  destruct (Hl k) as [v Hv]; [left|].
  destruct IH as [vs Hvs]; [intros; apply Hl; by right|].
  exists (v :: vs). apply getitem_Some in Hv. by rewrite Hv, bind_Ok, Hvs.
Qed.

(** *** [add_ref] and [remove_ref] seen through [refs_at] *)

Lemma refs_at_add_ref key s mm r b k :
  refs_at (add_ref key s mm r) b k =
  if decide (b = r ∧ k = key) then refs_at mm b k ∪ s else refs_at mm b k.
Proof.
  unfold refs_at, add_ref.
  destruct (decide (b = r)) as [->|Hb].
  - destruct (mm !! r) as [refs|] eqn:Hr; simpl.
    + rewrite lookup_insert_eq; simpl.
      destruct (decide (k = key)) as [->|Hk].
      * rewrite lookup_insert_eq, decide_True by done.
        destruct (refs !! key); simpl; set_solver.
      * rewrite lookup_insert_ne, decide_False by naive_solver. done.
    + rewrite lookup_insert_eq; simpl.
      destruct (decide (k = key)) as [->|Hk].
      * rewrite lookup_singleton_eq, decide_True by done. simpl. set_solver.
      * rewrite lookup_singleton_ne, decide_False by naive_solver. done.
  - rewrite decide_False by naive_solver.
    destruct (mm !! r); by rewrite lookup_insert_ne.
Qed.

Lemma add_ref_lookup_ne key s mm r b :
  b ≠ r → add_ref key s mm r !! b = mm !! b.
Proof.
  intros Hb. unfold add_ref. destruct (mm !! r); by rewrite lookup_insert_ne.
Qed.

Lemma refs_at_foldl_add_ref key s l mm b k :
  refs_at (foldl (add_ref key s) mm l) b k =
  if decide (b ∈ l ∧ k = key) then refs_at mm b k ∪ s else refs_at mm b k.
Proof.
  revert mm. induction l as [|r l IH]; intros mm; cbn [foldl].
  - rewrite decide_False; [done|]. intros [?%elem_of_nil _]. done.
  - rewrite IH, refs_at_add_ref.
    repeat case_decide; set_solver.
Qed.

Lemma foldl_add_ref_lookup_ne key s l mm b :
  b ∉ l → foldl (add_ref key s) mm l !! b = mm !! b.
Proof.
  revert mm. induction l as [|r l IH]; intros mm Hb; simpl; [done|].
  rewrite IH, add_ref_lookup_ne; set_solver.
Qed.

Lemma refs_at_remove_ref key s mm mm' r b k :
  remove_ref key s mm r = Ok mm' →
  refs_at mm' b k =
  if decide (b = r ∧ k = key) then refs_at mm b k ∖ s else refs_at mm b k.
Proof.
  unfold remove_ref. intros Hrm.
  inv_bind Hrm. inv_bind Hrm.
  apply getitem_Some in Hbind, Hbind0.
  rename a into refs, a0 into field_refs.
  unfold refs_at.
  destruct (decide (b = r)) as [->|Hb].
  - rewrite Hbind; simpl.
    destruct (decide (k = key)) as [->|Hk].
    + rewrite decide_True, Hbind0 by done. simpl.
      case_decide as He; injection Hrm as <-; rewrite lookup_insert_eq; simpl.
      * by rewrite lookup_delete_eq, He.
      * by rewrite lookup_insert_eq.
    + rewrite decide_False by naive_solver.
      case_decide; injection Hrm as <-; rewrite lookup_insert_eq; simpl.
      * by rewrite lookup_delete_ne.
      * by rewrite lookup_insert_ne.
  - rewrite decide_False by naive_solver.
    case_decide; injection Hrm as <-; by rewrite lookup_insert_ne.
Qed.

Lemma remove_ref_lookup_ne key s mm mm' r b :
  remove_ref key s mm r = Ok mm' → b ≠ r → mm' !! b = mm !! b.
Proof.
  unfold remove_ref. intros Hrm Hb.
  inv_bind Hrm. inv_bind Hrm.
  case_decide; injection Hrm as <-; by rewrite lookup_insert_ne.
Qed.

Lemma refs_at_foldM_remove_ref key s l mm mm' b k :
  foldM (remove_ref key s) mm l = Ok mm' →
  refs_at mm' b k =
  if decide (b ∈ l ∧ k = key) then refs_at mm b k ∖ s else refs_at mm b k.
Proof.
  revert mm. induction l as [|r l IH]; intros mm Hf; simpl in Hf.
  - injection Hf as <-. rewrite decide_False; [done|].
    intros [?%elem_of_nil _]. done.
  - inv_bind Hf. rewrite (IH _ Hf), (refs_at_remove_ref _ _ _ _ _ _ _ Hbind).
    repeat case_decide; set_solver.
Qed.

Lemma foldM_remove_ref_lookup_ne key s l mm mm' b :
  foldM (remove_ref key s) mm l = Ok mm' → b ∉ l → mm' !! b = mm !! b.
Proof.
  revert mm. induction l as [|r l IH]; intros mm Hf Hb; simpl in Hf.
  - by injection Hf as <-.
  - inv_bind Hf. rewrite (IH _ Hf), (remove_ref_lookup_ne _ _ _ _ _ _ Hbind);
      set_solver.
Qed.

(** *** The diff performed by [_update_refs_to] *)

Lemma ref_ids_referenced v ids : ref_ids v = Ok ids → ids = referenced v.
Proof. destruct v; simpl; congruence. Qed.

Lemma field_ids_spec data F o :
  field_ids data F = Ok o → default ∅ o = field_refs_of data F.
Proof.
  unfold field_ids, field_refs_of. destruct data as [d|]; [|by intros [= <-]].
  case_decide as Hd.
  - intros [= <-]. subst d. by rewrite lookup_empty.
  - destruct (d !! F) as [v|]; [|by intros [= <-]].
    intros Hb. inv_bind Hb. injection Hb as <-. simpl.
    by apply ref_ids_referenced.
Qed.

Lemma truthy_default o : truthy o = bool_decide (default ∅ o ≠ ∅).
Proof.
  destruct o as [s|]; simpl; [done|].
  symmetry. apply bool_decide_eq_false. tauto.
Qed.

Lemma update_field_refs_eq T s orig new mm F ids oids :
  field_ids new F = Ok ids →
  field_ids orig F = Ok oids →
  update_field_refs T s orig new mm F =
  foldM (remove_ref (T, F) s)
        (foldl (add_ref (T, F) s) mm
               (elements (default ∅ ids ∖ default ∅ oids)))
        (elements (default ∅ oids ∖ default ∅ ids)).
Proof.
  intros Hn Ho. unfold update_field_refs. rewrite Hn, Ho, !bind_Ok.
  assert (HI := truthy_default ids). assert (HO := truthy_default oids).
  assert (HIe : ids_elements ids = elements (default ∅ ids))
    by (destruct ids; simpl; [done | by rewrite elements_empty]).
  assert (HOe : ids_elements oids = elements (default ∅ oids))
    by (destruct oids; simpl; [done | by rewrite elements_empty]).
  remember (default ∅ ids) as I. remember (default ∅ oids) as O.
  assert (Hd : ∀ X : gset uuid,
             (if truthy (Some X) then elements X else []) = elements X).
  { intros X. simpl. destruct (bool_decide_reflect (X ≠ ∅)) as [|E%dec_stable];
      [done|]. by rewrite E, elements_empty. }
  assert (Hadd : ∀ X : gset uuid,
             (if truthy (Some X)
              then foldl (add_ref (T, F) s) mm (ids_elements (Some X))
              else mm) = foldl (add_ref (T, F) s) mm (elements X)).
  { intros X. simpl. destruct (bool_decide_reflect (X ≠ ∅)) as [|E%dec_stable];
      [done|]. by rewrite E, elements_empty. }
  assert (Hrm : ∀ (X : gset uuid) m0,
             (if truthy (Some X)
              then foldM (remove_ref (T, F) s) m0 (ids_elements (Some X))
              else Ok m0) = foldM (remove_ref (T, F) s) m0 (elements X)).
  { intros X m0. simpl.
    destruct (bool_decide_reflect (X ≠ ∅)) as [|E%dec_stable]; [done|].
    by rewrite E, elements_empty. }
  rewrite HI, HO.
  destruct (bool_decide_reflect (I ≠ ∅)) as [NI|EI%dec_stable];
    destruct (bool_decide_reflect (O ≠ ∅)) as [NO|EO%dec_stable]; simpl negb;
    cbn [andb].
  - by rewrite Hadd, Hrm.
  - rewrite HI, HIe. simpl truthy. cbn iota.
    subst O. rewrite EO, difference_empty_L.
    replace (∅ ∖ I) with (∅ : gset uuid) by set_solver.
    by rewrite elements_empty.
  - rewrite HO, HOe. simpl truthy. cbn iota.
    subst I. rewrite EI, difference_empty_L.
    replace (∅ ∖ O) with (∅ : gset uuid) by set_solver.
    by rewrite elements_empty.
  - subst I O. rewrite EI, EO, difference_diag_L, elements_empty. done.
Qed.

Lemma update_field_refs_spec T a orig new mm F mm' :
  update_field_refs T {[ a ]} orig new mm F = Ok mm' →
  ∀ b k, refs_at mm' b k =
         if decide (k = (T, F))
         then diffed a (field_refs_of new F) (field_refs_of orig F) b
                     (refs_at mm b k)
         else refs_at mm b k.
Proof.
  intros Hu b k.
  assert (Hu' := Hu). unfold update_field_refs in Hu'.
  inv_bind Hu'. inv_bind Hu'. clear Hu'. rename a0 into ids, a1 into oids.
  rewrite (update_field_refs_eq _ _ _ _ _ _ _ _ Hbind Hbind0) in Hu.
  rewrite (field_ids_spec _ _ _ Hbind), (field_ids_spec _ _ _ Hbind0) in Hu.
  rewrite (refs_at_foldM_remove_ref _ _ _ _ _ _ _ Hu), refs_at_foldl_add_ref.
  unfold diffed. repeat case_decide; set_solver.
Qed.

Lemma update_field_refs_lookup_ne T a orig new mm F mm' b :
  update_field_refs T {[ a ]} orig new mm F = Ok mm' →
  b ∉ field_refs_of new F ∖ field_refs_of orig F →
  b ∉ field_refs_of orig F ∖ field_refs_of new F →
  mm' !! b = mm !! b.
Proof.
  intros Hu Hb1 Hb2.
  assert (Hu' := Hu). unfold update_field_refs in Hu'.
  inv_bind Hu'. inv_bind Hu'. clear Hu'. rename a0 into ids, a1 into oids.
  rewrite (update_field_refs_eq _ _ _ _ _ _ _ _ Hbind Hbind0) in Hu.
  rewrite (field_ids_spec _ _ _ Hbind), (field_ids_spec _ _ _ Hbind0) in Hu.
  rewrite (foldM_remove_ref_lookup_ne _ _ _ _ _ _ Hu) by set_solver.
  apply foldl_add_ref_lookup_ne. set_solver.
Qed.

Lemma diffed_idemp a I O b X :
  diffed a I O b (diffed a I O b X) = diffed a I O b X.
Proof. unfold diffed. repeat case_decide; set_solver. Qed.

Lemma update_refs_fold_spec T a orig new fields mm mm' :
  foldM (update_field_refs T {[ a ]} orig new) mm fields = Ok mm' →
  ∀ b t F, refs_at mm' b (t, F) =
           if decide (t = T ∧ F ∈ fields)
           then diffed a (field_refs_of new F) (field_refs_of orig F) b
                       (refs_at mm b (t, F))
           else refs_at mm b (t, F).
Proof.
  revert mm. induction fields as [|F0 fields IH]; intros mm Hf b t F;
    simpl in Hf.
  - injection Hf as <-. rewrite decide_False; [done|].
    intros [_ ?%elem_of_nil]. done.
  - inv_bind Hf. rename a0 into mm1.
    rewrite (IH _ Hf), (update_field_refs_spec _ _ _ _ _ _ _ Hbind).
    destruct (decide (t = T)) as [->|Ht].
    + destruct (decide (F = F0)) as [->|HF].
      * rewrite (decide_True (P := (T, F0) = (T, F0))) by done.
        rewrite (decide_True (P := T = T ∧ F0 ∈ F0 :: fields)) by set_solver.
        case_decide; [apply diffed_idemp | done].
      * rewrite (decide_False (P := (T, F) = (T, F0))) by congruence.
        case_decide as H1; case_decide as H2; set_solver.
    + rewrite (decide_False (P := (t, F) = (T, F0))) by congruence.
      rewrite !decide_False by tauto. done.
Qed.

Lemma update_refs_fold_lookup_ne T a orig new fields mm mm' b :
  foldM (update_field_refs T {[ a ]} orig new) mm fields = Ok mm' →
  (∀ F, F ∈ fields →
        (b ∉ field_refs_of new F ∖ field_refs_of orig F) ∧
        (b ∉ field_refs_of orig F ∖ field_refs_of new F)) →
  mm' !! b = mm !! b.
Proof.
  revert mm. induction fields as [|F0 fields IH]; intros mm Hf Hb;
    simpl in Hf.
  - by injection Hf as <-.
  - inv_bind Hf.
    rewrite (IH _ Hf) by (intros; apply Hb; by right).
    destruct (Hb F0) as [? ?]; [left|].
    by apply (update_field_refs_lookup_ne _ _ _ _ _ _ _ _ Hbind).
Qed.

Lemma _update_refs_to_spec S scls orig new mm' :
  _update_refs_to S scls orig new = Ok mm' →
  ∀ b t F, refs_at mm' b (t, F) =
           if decide (t = obj_type scls ∧ F ∈ get_object_fields (obj_type scls))
           then diffed (obj_id scls) (field_refs_of new F)
                       (field_refs_of orig F) b (refs_at (_refs_to S) b (t, F))
           else refs_at (_refs_to S) b (t, F).
Proof.
  unfold _update_refs_to. intros Hu.
  apply update_refs_fold_spec.
  destruct (get_object_fields (obj_type scls)); [by injection Hu as <-|done].
Qed.

Lemma _update_refs_to_lookup_ne S scls orig new mm' b :
  _update_refs_to S scls orig new = Ok mm' →
  (∀ F, F ∈ get_object_fields (obj_type scls) →
        (b ∉ field_refs_of new F ∖ field_refs_of orig F) ∧
        (b ∉ field_refs_of orig F ∖ field_refs_of new F)) →
  mm' !! b = _refs_to S !! b.
Proof.
  unfold _update_refs_to. intros Hu.
  apply (update_refs_fold_lookup_ne (obj_type scls) (obj_id scls)).
  destruct (get_object_fields (obj_type scls)); [by injection Hu as <-|done].
Qed.

(** *** Consistency is an invariant of the mutating operations *)

Lemma refs_at_empty b k : refs_at ∅ b k = ∅.
Proof. unfold refs_at. by rewrite lookup_empty. Qed.

Lemma consistent_empty_schema : consistent empty_schema.
Proof.
  split; simpl.
  - intros i o. by rewrite lookup_empty.
  - intros b t F a. rewrite refs_at_empty. split; [set_solver|].
    intros (A & _ & _ & HA & _). simpl in HA. by rewrite lookup_empty in HA.
Qed.

Lemma field_refs_of_singleton F0 v F :
  field_refs_of (Some {[ F0 := v ]}) F = if decide (F = F0) then referenced v else ∅.
Proof.
  unfold field_refs_of. case_decide as HF.
  - subst. by rewrite lookup_singleton_eq.
  - by rewrite lookup_singleton_ne.
Qed.

Lemma field_refs_of_empty F : field_refs_of (Some ∅) F = ∅.
Proof. unfold field_refs_of. by rewrite lookup_empty. Qed.

Lemma stores_ref_field_refs S A F b :
  stores_ref S A F b ↔
  _id_to_type S !! obj_id A = Some A ∧
  F ∈ get_object_fields (obj_type A) ∧
  b ∈ field_refs_of (_id_to_data S !! obj_id A) F.
Proof.
  unfold stores_ref, field_refs_of. split.
  - intros (? & ? & data & v & -> & -> & ?). done.
  - intros (? & ? & Hb). do 2 (split; [done|]).
    destruct (_id_to_data S !! obj_id A) as [data|]; [|set_solver].
    destruct (data !! F) as [v|] eqn:Hv; [|set_solver]. eauto.
Qed.

(** The shape every mutation has: the object [scls] (identity [a]) goes from
    referring to [Dold F] to referring to [Dnew F], every other object keeps
    its data, and the index was updated by the diff of [orig] and [new]. *)
Lemma consistent_refs_step S S' scls orig new (Dold Dnew : string → gset uuid) :
  consistent S →
  (∀ A, _id_to_type S !! obj_id scls = Some A → A = scls) →
  (∀ b t F, refs_at (_refs_to S') b (t, F) =
     if decide (t = obj_type scls ∧ F ∈ get_object_fields (obj_type scls))
     then diffed (obj_id scls) (field_refs_of new F) (field_refs_of orig F) b
                 (refs_at (_refs_to S) b (t, F))
     else refs_at (_refs_to S) b (t, F)) →
  (∀ F b, F ∈ get_object_fields (obj_type scls) →
     stores_ref S scls F b ↔ b ∈ Dold F) →
  (∀ A F b, stores_ref S' A F b ↔
     (A = scls ∧ F ∈ get_object_fields (obj_type scls) ∧ b ∈ Dnew F) ∨
     (obj_id A ≠ obj_id scls ∧ stores_ref S A F b)) →
  (∀ F b, F ∈ get_object_fields (obj_type scls) →
     b ∈ Dnew F ↔
     (b ∈ field_refs_of new F ∖ field_refs_of orig F) ∨
     (b ∈ Dold F ∧ b ∉ field_refs_of orig F ∖ field_refs_of new F)) →
  ∀ b t F a,
    a ∈ refs_at (_refs_to S') b (t, F) ↔
    ∃ A, obj_id A = a ∧ obj_type A = t ∧ stores_ref S' A F b.
Proof.
  intros [Hids Hrefs] Hscls Hat Hold Hnew Hdiff b t F a.
  rewrite Hat.
  assert (Hself : ∀ A F b, obj_id A = obj_id scls → stores_ref S A F b → A = scls).
  { intros A F1 b1 HA (Hty & _). apply Hscls. by rewrite <-HA. }
  assert (Hx : ∀ t F, obj_id scls ∈ refs_at (_refs_to S) b (t, F) ↔
                      t = obj_type scls ∧ stores_ref S scls F b).
  { intros t1 F1. rewrite Hrefs. split.
    - intros (A & HA & <- & Hst). pose proof (Hself _ _ _ HA Hst) as ->. done.
    - intros [-> Hst]. eauto. }
  case_decide as Hc.
  - destruct Hc as [-> HF].
    destruct (decide (a = obj_id scls)) as [->|Ha].
    + transitivity (b ∈ Dnew F).
      * rewrite (Hdiff F b HF), <-(Hold F b HF).
        specialize (Hx (obj_type scls) F).
        unfold diffed. clear -Hx.
        destruct (decide (b ∈ field_refs_of new F ∖ field_refs_of orig F))
          as [H1|H1].
        { split; [by left|]. intros _. apply elem_of_union. right.
          by apply elem_of_singleton. }
        destruct (decide (b ∈ field_refs_of orig F ∖ field_refs_of new F))
          as [H2|H2].
        { split; [|by intros [?|[_ ?]]].
          intros [_ Hn]%elem_of_difference. destruct Hn.
          by apply elem_of_singleton. }
        rewrite Hx. split; [intros [_ ?]; by right|].
        intros [?|[? _]]; done.
      * split.
        -- intros Hb. exists scls. rewrite Hnew. naive_solver.
        -- intros (A & HA & _ & [(-> & _ & Hb)|(Hne & _)]%Hnew); done.
    + transitivity (a ∈ refs_at (_refs_to S) b (obj_type scls, F)).
      * unfold diffed. clear -Ha. repeat case_decide; set_solver.
      * rewrite Hrefs. split.
        -- intros (A & <- & HAt & Hst). exists A. rewrite Hnew. naive_solver.
        -- intros (A & <- & HAt & [(-> & _)|(_ & Hst)]%Hnew); [done|]. eauto.
  - rewrite Hrefs. split.
    + intros (A & <- & <- & Hst). exists A. rewrite Hnew.
      do 2 (split; [done|]). right. split; [|done].
      intros HA. pose proof (Hself _ _ _ HA Hst) as ->.
      destruct Hst as (_ & HF & _). tauto.
    + intros (A & <- & <- & [(-> & HF & _)|(_ & Hst)]%Hnew); [tauto|eauto].
Qed.

Lemma _add_consistent S id scls data S' :
  consistent S →
  obj_id scls = id →
  _id_to_type S !! id = None →
  _add S id scls data = Ok S' →
  consistent S'.
Proof.
  intros HS Hid Hfresh Hadd. unfold _add in Hadd.
  inv_bind Hadd. case_decide; [done|].
  inv_bind Hadd. destruct a0 as [name_to_id shortname_to_id].
  inv_bind Hadd. inv_bind Hadd. injection Hadd as <-.
  rename a0 into refs_to. split.
  - simpl. intros i o. rewrite lookup_insert. case_decide.
    + intros [= <-]. congruence.
    + apply HS.
  - apply (consistent_refs_step S _ scls None (Some data)
             (λ _, ∅) (field_refs_of (Some data))); [done|..].
    + intros A. by rewrite Hid, Hfresh.
    + exact (_update_refs_to_spec _ _ _ _ _ Hbind1).
    + intros F b _. split; [|set_solver].
      intros (Hty & _). by rewrite Hid, Hfresh in Hty.
    + intros A F b. rewrite !stores_ref_field_refs.
      cbn [_id_to_type _id_to_data _replace default from_option];
        unfold Datatypes.id.
      rewrite !lookup_insert, Hid. destruct (decide (id = obj_id A)) as [HA|HA].
      * split.
        -- intros ([= ->] & ? & ?). by left.
        -- intros [(-> & ? & ?)|(? & _)]; [done|congruence].
      * split.
        -- intros (? & ? & ?). right. split; [congruence|done].
        -- intros [(-> & ? & ?)|(_ & ?)]; [congruence|done].
    + intros F b _. simpl. set_solver.
Qed.

Lemma _delete_consistent S obj S' :
  consistent S →
  _id_to_type S !! obj_id obj = Some obj →
  _delete S obj = Ok S' →
  consistent S'.
Proof.
  intros HS Hobj Hdel. unfold _delete in Hdel.
  destruct (_id_to_data S !! obj_id obj) as [data|] eqn:Hdata; [|done].
  inv_bind Hdel. inv_bind Hdel. inv_bind Hdel. inv_bind Hdel.
  destruct a2 as [name_to_id shortname_to_id].
  inv_bind Hdel. inv_bind Hdel. inv_bind Hdel. inv_bind Hdel.
  injection Hdel as <-.
  apply getitem_Some in Hbind3. rewrite Hdata in Hbind3.
  injection Hbind3 as <-.
  apply map_delete_Ok in Hbind5 as [_ ->], Hbind6 as [_ ->].
  split.
  - simpl. intros i o. rewrite lookup_delete. case_decide; [done|apply HS].
  - apply (consistent_refs_step S _ obj (Some data) None
             (field_refs_of (Some data)) (λ _, ∅)); [done|..].
    + intros A. rewrite Hobj. congruence.
    + exact (_update_refs_to_spec _ _ _ _ _ Hbind4).
    + intros F b HF. rewrite stores_ref_field_refs, Hdata. naive_solver.
    + intros A F b. rewrite !stores_ref_field_refs.
      cbn [_id_to_type _id_to_data _replace default from_option];
        unfold Datatypes.id.
      rewrite !lookup_delete.
      destruct (decide (obj_id obj = obj_id A)) as [HA|HA].
      * split; [by intros (? & _)|].
        intros [(_ & _ & ?)|(? & _)]; [set_solver|congruence].
      * split.
        -- intros (? & ? & ?). right. split; [congruence|done].
        -- intros [(-> & ? & ?)|(_ & ?)]; [congruence|done].
    + intros F b _. simpl. set_solver.
Qed.

Lemma _set_obj_field_consistent S id field v S' :
  consistent S →
  _set_obj_field S id field v = Ok S' →
  consistent S'.
Proof.
  intros HS Hset. unfold _set_obj_field in Hset.
  destruct (_id_to_data S !! id) as [data|] eqn:Hdata; [|done].
  inv_bind Hset. inv_bind Hset. inv_bind Hset. injection Hset as <-.
  rename a0 into scls, a1 into refs_to.
  apply getitem_Some in Hbind0.
  assert (Hid : obj_id scls = id) by by apply (consistent_ids S HS).
  split.
  - simpl. apply HS.
  - apply (consistent_refs_step S _ scls
             (Some match data !! field with
                   | Some v => {[ field := v ]}
                   | None => ∅
                   end)
             (Some {[ field := v ]})
             (field_refs_of (Some data))
             (field_refs_of (Some (<[field := v]> data)))); [done|..].
    + intros A. rewrite Hid. congruence.
    + exact (_update_refs_to_spec _ _ _ _ _ Hbind1).
    + intros F b HF. rewrite stores_ref_field_refs, Hid, Hdata. naive_solver.
    + intros A F b. rewrite !stores_ref_field_refs.
      cbn [_id_to_type _id_to_data _replace default from_option];
        unfold Datatypes.id.
      rewrite !lookup_insert, Hid.
      destruct (decide (id = obj_id A)) as [HA|HA].
      * split.
        -- intros (HAt & ? & ?). left. rewrite <-HA in HAt. naive_solver.
        -- intros [(-> & ? & ?)|(? & _)]; [|congruence]. by rewrite Hid.
      * split.
        -- intros (? & ? & ?). right. split; [congruence|done].
        -- intros [(-> & ? & ?)|(_ & ?)]; [congruence|done].
    + intros F b _. rewrite field_refs_of_singleton.
      unfold field_refs_of at 1 3 4.
      destruct (decide (F = field)) as [->|HF].
      * rewrite lookup_insert_eq.
        destruct (data !! field) as [old|]; simpl.
        -- rewrite lookup_singleton_eq.
           destruct (decide (b ∈ referenced old)), (decide (b ∈ referenced v));
             set_solver.
        -- rewrite lookup_empty. set_solver.
      * rewrite lookup_insert_ne by done.
        destruct (data !! field) as [old|]; simpl.
        -- rewrite lookup_singleton_ne by done. set_solver.
        -- rewrite lookup_empty. set_solver.
Qed.

Lemma _unset_obj_field_finish_consistent S id field data n s S' :
  consistent S →
  _id_to_data S !! id = Some data →
  _unset_obj_field_finish S id field data (base.delete field data) n s = Ok S' →
  consistent S'.
Proof.
  intros HS Hdata Hfin. unfold _unset_obj_field_finish in Hfin.
  inv_bind Hfin. inv_bind Hfin. inv_bind Hfin. injection Hfin as <-.
  rename a into scls, a0 into old, a1 into refs_to.
  apply getitem_Some in Hbind, Hbind0.
  assert (Hid : obj_id scls = id) by by apply (consistent_ids S HS).
  split.
  - simpl. apply HS.
  - apply (consistent_refs_step S _ scls (Some {[ field := old ]}) None
             (field_refs_of (Some data))
             (field_refs_of (Some (base.delete field data)))); [done|..].
    + intros A. rewrite Hid. congruence.
    + exact (_update_refs_to_spec _ _ _ _ _ Hbind1).
    + intros F b HF. rewrite stores_ref_field_refs, Hid, Hdata. naive_solver.
    + intros A F b. rewrite !stores_ref_field_refs.
      cbn [_id_to_type _id_to_data _replace default from_option];
        unfold Datatypes.id.
      rewrite !lookup_insert, Hid.
      destruct (decide (id = obj_id A)) as [HA|HA].
      * split.
        -- intros (HAt & ? & ?). left. rewrite <-HA in HAt. naive_solver.
        -- intros [(-> & ? & ?)|(? & _)]; [|congruence]. by rewrite Hid.
      * split.
        -- intros (? & ? & ?). right. split; [congruence|done].
        -- intros [(-> & ? & ?)|(_ & ?)]; [congruence|done].
    + intros F b _. rewrite field_refs_of_singleton.
      unfold field_refs_of.
      destruct (decide (F = field)) as [->|HF].
      * rewrite lookup_delete_eq, Hbind0. set_solver.
      * rewrite lookup_delete_ne by done. set_solver.
Qed.

Lemma _unset_obj_field_consistent S id field S' :
  consistent S →
  _unset_obj_field S id field = Ok S' →
  consistent S'.
Proof.
  intros HS Hun. unfold _unset_obj_field in Hun.
  destruct (_id_to_data S !! id) as [data|] eqn:Hdata;
    [|by injection Hun as <-].
  case_decide.
  - inv_bind Hun. inv_bind Hun. inv_bind Hun. destruct a1 as [n s].
    inv_bind Hun. apply map_delete_Ok in Hbind2 as [_ ->].
    by eapply _unset_obj_field_finish_consistent.
  - destruct (map_delete field data) as [new_data|] eqn:Hd;
      [|by injection Hun as <-].
    apply map_delete_Ok in Hd as [_ ->].
    by eapply _unset_obj_field_finish_consistent.
Qed.

(** *** [get_referrers] reads the index back *)

Lemma referrers_update_spec S acc ids :
  (∀ i, i ∈ ids → is_Some (_id_to_type S !! i)) →
  ∃ R, referrers_update S acc ids = Ok R ∧
       ∀ o, o ∈ R ↔ o ∈ acc ∨ ∃ i, i ∈ ids ∧ _id_to_type S !! i = Some o.
Proof.
  intros Hids. unfold referrers_update.
  destruct (mapM_getitem_total _ _ Hids) as [objs Hobjs].
  rewrite Hobjs, bind_Ok. eexists; split; [done|].
  intros o. rewrite elem_of_union, elem_of_list_to_set.
  by rewrite (mapM_getitem_elem _ _ _ Hobjs).
Qed.

Lemma referrers_fold_spec S (t : cls) (F : string)
    (l : list (cls * string * gset uuid)) acc :
  (∀ ids i, (t, F, ids) ∈ l → i ∈ ids → is_Some (_id_to_type S !! i)) →
  ∃ R, foldM (λ referrers '(st, fn, ids),
                if decide (st = t ∧ fn = F)
                then referrers_update S referrers (elements ids)
                else Ok referrers) acc l = Ok R ∧
       ∀ o, o ∈ R ↔
            o ∈ acc ∨
            ∃ ids i, (t, F, ids) ∈ l ∧ i ∈ ids ∧ _id_to_type S !! i = Some o.
Proof.
  revert acc. induction l as [|[[st fn] ids] l IH]; intros acc Hl; simpl.
  - eexists; split; [done|]. intros o. split; [by left|].
    intros [?|(? & ? & ?%elem_of_nil & _)]; done.
  - case_decide as Hk.
    + destruct Hk as [-> ->].
      destruct (referrers_update_spec S acc (elements ids)) as (R1 & HR1 & HR1in).
      { intros i Hi%elem_of_elements. apply (Hl ids); [left|done]. }
      rewrite HR1, bind_Ok.
      destruct (IH R1) as (R & HR & HRin).
      { intros ids' i Hin. apply Hl. by right. }
      exists R. split; [done|]. intros o. rewrite HRin, HR1in. split.
      * intros [[?|(i & Hi%elem_of_elements & ?)]|(ids' & i & ? & ?)].
        -- by left.
        -- right. exists ids, i. split; [left|done].
        -- right. exists ids', i. split; [by right|done].
      * intros [?|(ids' & i & [[= <-]|?]%elem_of_cons & ? & ?)].
        -- by left; left.
        -- left; right. exists i. by rewrite elem_of_elements.
        -- right. eauto.
    + rewrite bind_Ok.
      destruct (IH acc) as (R & HR & HRin).
      { intros ids' i Hin. apply Hl. by right. }
      exists R. split; [done|]. intros o. rewrite HRin. split.
      * intros [?|(ids' & i & ? & ?)]; [by left|].
        right. exists ids', i. split; [by right|done].
      * intros [?|(ids' & i & [[= <- <- <-]|?]%elem_of_cons & ? & ?)].
        -- by left.
        -- tauto.
        -- right. eauto.
Qed.

Lemma get_referrers_spec S B t F :
  consistent S →
  ∃ R, get_referrers S B (Some t) (Some F) = Ok R ∧
       ∀ A, A ∈ R ↔ obj_type A = t ∧ stores_ref S A F (obj_id B).
Proof.
  intros HS.
  assert (Hat : ∀ A, obj_type A = t ∧ stores_ref S A F (obj_id B) ↔
                     ∃ i, i ∈ refs_at (_refs_to S) (obj_id B) (t, F) ∧
                          _id_to_type S !! i = Some A).
  { intros A. split.
    - intros [HA Hst]. exists (obj_id A). split; [|apply Hst].
      apply (consistent_refs S HS). eauto.
    - intros (i & (A' & <- & HA' & Hst)%(consistent_refs S HS) & Hi).
      assert (A' = A) as -> by (destruct Hst as [? _]; congruence). done. }
  unfold get_referrers.
  destruct (_refs_to S !! obj_id B) as [refs|] eqn:Hrefs.
  - destruct (referrers_fold_spec S t F (map_to_list refs) ∅) as (R & HR & HRin).
    { intros ids i Hin%elem_of_map_to_list Hi.
      assert (i ∈ refs_at (_refs_to S) (obj_id B) (t, F)) as Hr.
      { unfold refs_at. rewrite Hrefs. simpl. by rewrite Hin. }
      apply (consistent_refs S HS) in Hr as (A & <- & _ & Hst & _). eauto. }
    exists R. split; [done|]. intros A. rewrite HRin, Hat.
    unfold refs_at. rewrite Hrefs. simpl. split.
    + intros [?|(ids & i & Hin%elem_of_map_to_list & ? & ?)]; [set_solver|].
      exists i. by rewrite Hin.
    + intros (i & Hi & ?). right.
      destruct (refs !! (t, F)) as [ids|] eqn:Hids; [|set_solver].
      exists ids, i. by rewrite elem_of_map_to_list.
  - exists ∅. split; [done|]. intros A. rewrite Hat.
    unfold refs_at. rewrite Hrefs. set_solver.
Qed.

(** [set_field] diffs old against new: an identity referenced both before
    and after (or neither before nor after) keeps its whole index entry. *)
Lemma _set_obj_field_untouched S id field v S' data b :
  _set_obj_field S id field v = Ok S' →
  _id_to_data S !! id = Some data →
  (b ∈ field_refs_of (Some data) field ↔ b ∈ referenced v) →
  _refs_to S' !! b = _refs_to S !! b.
Proof.
  intros Hset Hdata Hb. unfold _set_obj_field in Hset. rewrite Hdata in Hset.
  inv_bind Hset. inv_bind Hset. inv_bind Hset. injection Hset as <-.
  cbn [_refs_to _replace default from_option]. unfold Datatypes.id.
  apply (_update_refs_to_lookup_ne _ _ _ _ _ _ Hbind1).
  intros F _. rewrite field_refs_of_singleton.
  unfold field_refs_of in *.
  destruct (decide (F = field)) as [->|HF].
  - destruct (data !! field) as [old|].
    + rewrite lookup_singleton_eq. set_solver.
    + rewrite lookup_empty. set_solver.
  - destruct (data !! field) as [old|].
    + rewrite lookup_singleton_ne by done. set_solver.
    + rewrite lookup_empty. set_solver.
Qed.

(** *** [_get_descendants] *)

(** Any fuel of at least [max_depth - depth] gives the same result: the
    bound used by [_get_descendants] never runs out. *)
Lemma _get_descendants_rec_fuel mt S m n1 :
  ∀ n2 scls depth,
    (m - depth ≤ n1)%nat → (m - depth ≤ n2)%nat →
    _get_descendants_rec mt n1 S scls (Some m) depth =
    _get_descendants_rec mt n2 S scls (Some m) depth.
Proof.
  induction n1 as [|n1 IH]; intros n2 scls depth H1 H2.
  - destruct n2 as [|n2]; [done|]. simpl.
    destruct (_get_descendants_children mt S scls); [|done]. simpl.
    rewrite bool_decide_eq_false_2 by lia. done.
  - destruct n2 as [|n2]; simpl;
      (destruct (_get_descendants_children mt S scls) as [children|];
       [|done]); simpl.
    + rewrite bool_decide_eq_false_2 by lia. done.
    + case_bool_decide; [|done].
      f_equal. apply foldM_ext. intros result child.
      rewrite (IH n2) by lia. done.
Qed.

(** With [max_depth] omitted the guard [max_depth is not None and ...] is
    false: the result is the set of direct children, as for [max_depth=0]. *)
Lemma _get_descendants_omitted mt S scls depth :
  _get_descendants mt S scls None depth =
  _get_descendants_children mt S scls.
Proof.
  unfold _get_descendants. simpl.
  destruct (_get_descendants_children mt S scls) as [children|]; [|done].
  simpl. f_equal. set_solver.
Qed.

(** ** Main results on the catalog *)

(** C1: when [fields.name] is already a key of [name_to_id], [add] raises the
    naming-conflict [SchemaError], whatever the identity, the object and the
    rest of the data are. The check comes before any index is computed, and
    the catalog is a value: the failed call yields no new catalog and the
    caller's [S] is the one it had. *)
Theorem add_name_conflict (S : Schema) (id : uuid) (scls : Object)
    (data : gmap string value) (name : Name) :
  data !! "name" = Some (VName name) →
  is_Some (_name_to_id S !! name) →
  _add S id scls data = Err (SchemaError "is already present in the schema").
Proof.
  intros Hname Hin. unfold _add.
  apply getitem_Some in Hname. rewrite Hname. simpl.
  by rewrite decide_True.
Qed.

(** C10: [unset_field] on an identity that is not in the catalog, or on a
    field other than [name] that the object's data does not have, returns
    the catalog it was given (not even the generation changes) instead of
    raising. *)
Theorem unset_field_missing_target (S : Schema) (id : uuid) (field : string) :
  (_id_to_data S !! id = None ∨
   ∃ data, _id_to_data S !! id = Some data ∧
           field ≠ "name" ∧ data !! field = None) →
  _unset_obj_field S id field = Ok S.
Proof.
  intros [Hnone|(data & Hdata & Hfield & Hmiss)]; unfold _unset_obj_field.
  - by rewrite Hnone.
  - rewrite Hdata. rewrite decide_False by tauto.
    unfold map_delete. by rewrite Hmiss.
Qed.

Lemma built_consistent S : built S → consistent S.
Proof.
  induction 1.
  - apply consistent_empty_schema.
  - by eapply _add_consistent.
  - by eapply _delete_consistent.
  - by eapply _set_obj_field_consistent.
  - by eapply _unset_obj_field_consistent.
Qed.

(** C2: for every catalog value [S] built by the mutating operations,
    [get_referrers(B, scls_type=type(A), field_name=F)] returns and contains
    [A] exactly when [A]'s field [F] stores a reference to [B]. This rests on
    an invariant ([consistent]) that the empty catalog satisfies and that
    [add] (of an identity not yet present), [delete] (of a stored object),
    [set_field] and [unset_field] preserve. [set_field] diffs the old and new
    referenced identities: the index entry of an identity referenced both
    before and after is left untouched. *)
Theorem referrers_track_references :
  (∀ S A B F,
     built S →
     ∃ R, get_referrers S B (Some (obj_type A)) (Some F) = Ok R ∧
          (A ∈ R ↔ stores_ref S A F (obj_id B))) ∧
  (∀ S A B F,
     consistent S →
     ∃ R, get_referrers S B (Some (obj_type A)) (Some F) = Ok R ∧
          (A ∈ R ↔ stores_ref S A F (obj_id B))) ∧
  consistent empty_schema ∧
  (∀ S id scls data S',
     consistent S → obj_id scls = id → _id_to_type S !! id = None →
     _add S id scls data = Ok S' → consistent S') ∧
  (∀ S obj S',
     consistent S → _id_to_type S !! obj_id obj = Some obj →
     delete S obj = Ok S' → consistent S') ∧
  (∀ S id field v S',
     consistent S → _set_obj_field S id field v = Ok S' → consistent S') ∧
  (∀ S id field S',
     consistent S → _unset_obj_field S id field = Ok S' → consistent S') ∧
  (∀ S id field v S' data b,
     _set_obj_field S id field v = Ok S' →
     _id_to_data S !! id = Some data →
     b ∈ field_refs_of (Some data) field → b ∈ referenced v →
     _refs_to S' !! b = _refs_to S !! b).
Proof.
  assert (Hget : ∀ S A B F,
            consistent S →
            ∃ R, get_referrers S B (Some (obj_type A)) (Some F) = Ok R ∧
                 (A ∈ R ↔ stores_ref S A F (obj_id B))).
  { intros S A B F HS.
    destruct (get_referrers_spec S B (obj_type A) F HS) as (R & HR & HRin).
    exists R. split; [done|]. rewrite HRin. tauto. }
  split; [|split; [|split; [|split; [|split; [|split; [|split]]]]]].
  - intros S A B F HS. by apply Hget, built_consistent.
  - exact Hget.
  - apply consistent_empty_schema.
  - apply _add_consistent.
  - apply _delete_consistent.
  - apply _set_obj_field_consistent.
  - apply _unset_obj_field_consistent.
  - intros S id field v S' data b Hset Hdata Hold Hnew.
    apply (_set_obj_field_untouched S id field v S' data b Hset Hdata). tauto.
Qed.

(** ** Further properties of the catalog *)

(** *** The name indices *)

(** The name an object is stored under, read from its data. *)
Definition data_name (d : gmap string value) : option Name :=
  match d !! "name" with
  | Some (VName n) => Some n
  | _ => None
  end.

Definition name_of (S : Schema) (i : uuid) : option Name :=
  _id_to_data S !! i ≫= data_name.

(** [shortname_to_id[key]], empty when the key is missing. *)
Definition sn_at (m : gmap (cls * Name) (gset uuid)) (key : cls * Name)
  : gset uuid :=
  default ∅ (m !! key).

(** The name indices mirror the stored data: [name_to_id] holds exactly the
    names of the stored objects, and [shortname_to_id] holds, per class and
    short name, exactly the callables stored under a name with that short
    name, with no empty group left behind. *)
Record indexed (S : Schema) : Prop := {
  indexed_dom : ∀ i,
    is_Some (_id_to_data S !! i) ↔ is_Some (_id_to_type S !! i);
  indexed_names : ∀ n i,
    _name_to_id S !! n = Some i ↔ name_of S i = Some n;
  indexed_shortnames : ∀ t s i,
    i ∈ sn_at (_shortname_to_id S) (t, s) ↔
    ∃ o n, _id_to_type S !! i = Some o ∧ obj_type o = t ∧
           has_sn_cache t = true ∧ name_of S i = Some n ∧
           shortname_from_fullname n = s;
  indexed_nonempty : ∀ key ids,
    _shortname_to_id S !! key = Some ids → ids ≠ ∅
}.

Definition names_without (old : option Name) (m : gmap Name uuid)
  : gmap Name uuid :=
  match old with
  | Some o => base.delete o m
  | None => m
  end.

Lemma _update_obj_name_names S id scls old new n2i s2i :
  _update_obj_name S id scls old new = Ok (n2i, s2i) →
  n2i = match new with
        | Some n => <[n := id]> (names_without old (_name_to_id S))
        | None => names_without old (_name_to_id S)
        end ∧
  (∀ o, old = Some o → is_Some (_name_to_id S !! o)) ∧
  (∀ n, new = Some n → names_without old (_name_to_id S) !! n = None).
Proof.
  unfold _update_obj_name. intros Hu. inv_bind Hu.
  destruct a as [n1 s1].
  assert (Hn1 : n1 = names_without old (_name_to_id S) ∧
                ∀ o, old = Some o → is_Some (_name_to_id S !! o)).
  { destruct old as [o|]; simpl.
    - inv_bind Hbind. apply map_delete_Ok in Hbind0 as [Ho ->].
      split; [|by intros ? [= <-]].
      destruct (has_sn_cache (obj_type scls)); [|by injection Hbind as <- _].
      inv_bind Hbind. case_decide; by injection Hbind as <- _.
    - injection Hbind as <- _. by split. }
  destruct Hn1 as [-> Hold]. clear Hbind.
  destruct new as [n|].
  - case_decide as Hin; [done|].
    assert (names_without old (_name_to_id S) !! n = None) as Hfree.
    { destruct (names_without old (_name_to_id S) !! n) eqn:E; [|done].
      destruct Hin. eauto. }
    split; [|split; [done|by intros ? [= <-]]].
    destruct (has_sn_cache (obj_type scls)); by injection Hu as <- _.
  - injection Hu as <- _. by split.
Qed.

(** The effect of [_update_obj_name] on one overload group. *)
Definition sn_renamed (stype : cls) (id : uuid) (old new : option Name)
    (key : cls * Name) (X : gset uuid) : gset uuid :=
  let X :=
    match old with
    | Some o =>
        if decide (has_sn_cache stype = true ∧
                   key = (stype, shortname_from_fullname o))
        then X ∖ {[ id ]} else X
    | None => X
    end in
  match new with
  | Some n =>
      if decide (has_sn_cache stype = true ∧
                 key = (stype, shortname_from_fullname n))
      then X ∪ {[ id ]} else X
  | None => X
  end.

Lemma sn_at_insert m k ids key :
  sn_at (<[k := ids]> m) key = if decide (key = k) then ids else sn_at m key.
Proof.
  unfold sn_at. case_decide as Hk.
  - subst. by rewrite lookup_insert_eq.
  - by rewrite lookup_insert_ne.
Qed.

Lemma sn_at_delete m k key :
  sn_at (base.delete k m) key = if decide (key = k) then ∅ else sn_at m key.
Proof.
  unfold sn_at. case_decide as Hk.
  - subst. by rewrite lookup_delete_eq.
  - by rewrite lookup_delete_ne.
Qed.

Lemma _update_obj_name_shortnames S id scls old new n2i s2i :
  _update_obj_name S id scls old new = Ok (n2i, s2i) →
  (∀ key, sn_at s2i key =
          sn_renamed (obj_type scls) id old new key
                     (sn_at (_shortname_to_id S) key)) ∧
  ((∀ key ids, _shortname_to_id S !! key = Some ids → ids ≠ ∅) →
   ∀ key ids, s2i !! key = Some ids → ids ≠ ∅).
Proof.
  unfold _update_obj_name. intros Hu. inv_bind Hu.
  destruct a as [n1 s1].
  assert (H1 : (∀ key, sn_at s1 key =
                  sn_renamed (obj_type scls) id old None key
                             (sn_at (_shortname_to_id S) key)) ∧
               ((∀ key ids, _shortname_to_id S !! key = Some ids → ids ≠ ∅) →
                ∀ key ids, s1 !! key = Some ids → ids ≠ ∅)).
  { unfold sn_renamed. destruct old as [o|]; [|by injection Hbind as _ <-].
    inv_bind Hbind.
    destruct (has_sn_cache (obj_type scls)) eqn:Hsn.
    - inv_bind Hbind. apply getitem_Some in Hbind1.
      case_decide as He; injection Hbind as _ <-.
      + split.
        * intros key. rewrite sn_at_delete.
          destruct (decide (key = _)) as [->|Hk].
          -- rewrite decide_True by done. unfold sn_at. by rewrite Hbind1.
          -- rewrite decide_False by naive_solver. done.
        * intros Hne key ids Hk. apply lookup_delete_Some in Hk as [_ Hk].
          by eapply Hne.
      + split.
        * intros key. rewrite sn_at_insert.
          destruct (decide (key = _)) as [->|Hk].
          -- rewrite decide_True by done. unfold sn_at. by rewrite Hbind1.
          -- rewrite decide_False by naive_solver. done.
        * intros Hne key ids [[<- <-]|[_ Hk]]%lookup_insert_Some; [done|].
          by eapply Hne.
    - injection Hbind as _ <-. split; [|done].
      intros key. rewrite decide_False; [done|]. intros [? _]. done. }
  destruct H1 as [Hs1 Hne1]. clear Hbind.
  unfold sn_renamed in *.
  destruct new as [n|]; [|injection Hu as _ <-; by split].
  case_decide; [done|].
  destruct (has_sn_cache (obj_type scls)) eqn:Hsn; injection Hu as _ <-.
  - split.
    + intros key. rewrite sn_at_insert.
      destruct (decide (key = _)) as [->|Hk].
      * rewrite decide_True by done. by rewrite <-Hs1.
      * rewrite decide_False by naive_solver. apply Hs1.
    + intros Hne key ids [[<- <-]|[_ Hk]]%lookup_insert_Some; [set_solver|].
      by eapply Hne1.
  - split; [|done]. intros key. rewrite decide_False; [apply Hs1|].
    intros [? _]. done.
Qed.

Lemma elem_of_sn_renamed stype id old new key X j :
  j ∈ sn_renamed stype id old new key X ↔
  (j = id ∧ ∃ n, new = Some n ∧ has_sn_cache stype = true ∧
                 key = (stype, shortname_from_fullname n)) ∨
  (j ∈ X ∧ ¬ (j = id ∧ ∃ o, old = Some o ∧ has_sn_cache stype = true ∧
                            key = (stype, shortname_from_fullname o))).
Proof.
  clear. unfold sn_renamed.
  assert (Hold : ∀ Y : gset uuid,
    Y = match old with
        | Some o =>
            if decide (has_sn_cache stype = true ∧
                       key = (stype, shortname_from_fullname o))
            then X ∖ {[ id ]} else X
        | None => X
        end →
    (j ∈ Y ↔
     j ∈ X ∧ ¬ (j = id ∧ ∃ o, old = Some o ∧ has_sn_cache stype = true ∧
                              key = (stype, shortname_from_fullname o)))).
  { intros Y ->. destruct old as [o|].
    - case_decide as Hd.
      + rewrite elem_of_difference, elem_of_singleton. split.
        * intros [? ?]. split; [done|]. by intros [? _].
        * intros [? Hn]. split; [done|]. intros ->. apply Hn. eauto.
      + split; [|by intros [? _]]. intros ?. split; [done|].
        intros [_ (o' & [= <-] & ? & ?)]. by apply Hd.
    - split; [|by intros [? _]]. intros ?. split; [done|].
      by intros [_ (o' & ? & _)]. }
  rewrite <-(Hold _ eq_refl). clear Hold.
  destruct new as [n|].
  - case_decide as Hd.
    + rewrite elem_of_union, elem_of_singleton. split.
      * intros [? | ->]; [by right|]. left. split; [done|]. by exists n.
      * intros [[-> _]|?]; [by right | by left].
    + split; [by right|]. intros [[_ (n' & [= <-] & ? & ?)]|?]; [|done].
      by destruct Hd.
  - split; [by right|]. by intros [[_ (n' & ? & _)]|?].
Qed.

Lemma indexed_empty_schema : indexed empty_schema.
Proof.
  split; simpl.
  - intros i. by rewrite !lookup_empty.
  - intros n i. unfold name_of. simpl. by rewrite lookup_empty.
  - intros t s i. unfold sn_at. rewrite lookup_empty. simpl.
    split; [set_solver|]. intros (o & n & Ho & _). by rewrite lookup_empty in Ho.
  - intros key ids. by rewrite lookup_empty.
Qed.

(** One renaming step keeps the name indices in line with the data: object
    [id] moves from name [old] to name [new], everything else stays. *)
Lemma indexed_rename_step S S' id scls old new :
  indexed S →
  _update_obj_name S id scls old new
    = Ok (_name_to_id S', _shortname_to_id S') →
  name_of S id = old →
  (∀ o, _id_to_type S !! id = Some o → obj_type o = obj_type scls) →
  name_of S' id = new →
  (∀ j, j ≠ id → name_of S' j = name_of S j) →
  (∀ j, j ≠ id → _id_to_type S' !! j = _id_to_type S !! j) →
  (is_Some new →
   ∃ o, _id_to_type S' !! id = Some o ∧ obj_type o = obj_type scls) →
  (∀ i, is_Some (_id_to_data S' !! i) ↔ is_Some (_id_to_type S' !! i)) →
  indexed S'.
Proof.
  intros HS Hu Hold Hty Hnew Hfn Hft Htn Hdom.
  destruct (_update_obj_name_names _ _ _ _ _ _ _ Hu) as (Hn & Hho & Hfree).
  destruct (_update_obj_name_shortnames _ _ _ _ _ _ _ Hu) as (Hs & Hne).
  pose proof (indexed_names S HS) as Hnames.
  pose proof (indexed_shortnames S HS) as Hshort.
  assert (Hwo : ∀ n i, names_without old (_name_to_id S) !! n = Some i ↔
                       name_of S i = Some n ∧ i ≠ id).
  { intros n i. unfold names_without. destruct old as [o|].
    - rewrite lookup_delete_Some, Hnames. split.
      + intros [Hon Hi]. split; [done|]. intros ->. congruence.
      + intros [Hi Hid]. split; [|done]. intros ->.
        apply Hid. apply Hnames in Hi, Hold. congruence.
    - rewrite Hnames. split; [|by intros [? _]].
      intros Hi. split; [done|]. intros ->. congruence. }
  split; [done|..].
  - intros n i. rewrite Hn. destruct (decide (i = id)) as [->|Hi].
    + rewrite Hnew. destruct new as [n'|].
      * rewrite lookup_insert_Some, Hwo. split.
        -- intros [[-> _]|[_ [_ ?]]]; done.
        -- intros [= ->]. by left.
      * rewrite Hwo. split; [by intros [_ ?] | done].
    + rewrite Hfn by done. destruct new as [n'|].
      * rewrite lookup_insert_Some, Hwo. split.
        -- intros [[_ ?]|[_ [? _]]]; [congruence | done].
        -- intros Hin. right. split; [|done]. intros ->.
           specialize (Hfree _ eq_refl).
           assert (names_without old (_name_to_id S) !! n = Some i)
             by by apply Hwo.
           congruence.
      * rewrite Hwo. split; [by intros [? _] | done].
  - intros t s i. rewrite Hs, elem_of_sn_renamed, Hshort.
    destruct (decide (i = id)) as [->|Hi].
    + rewrite Hnew. split.
      * intros [(_ & n & -> & Hsn & [= -> ->])|[Hin Hnot]].
        -- destruct (Htn (mk_is_Some _ _ eq_refl)) as (o' & Ho' & Hto').
           exists o', n. by rewrite Hto'.
        -- destruct Hin as (o & n & Ho & <- & Hsn & Hn0 & <-).
           destruct Hnot. split; [done|]. exists n.
           rewrite <-(Hty _ Ho). split; [congruence|done].
      * intros (o & n & Ho & <- & Hsn & -> & <-). left. split; [done|].
        exists n. destruct (Htn (mk_is_Some _ _ eq_refl)) as (o' & Ho' & Hto').
        rewrite Ho in Ho'. injection Ho' as <-. by rewrite <-Hto'.
    + rewrite Hfn, Hft by done. split.
      * intros [[? _]|[? _]]; done.
      * intros Hin. right. split; [done|]. by intros [? _].
  - apply Hne, HS.
Qed.

(** A step that leaves the names alone keeps the name indices in line. *)
Lemma indexed_frame S S' :
  indexed S →
  _name_to_id S' = _name_to_id S →
  _shortname_to_id S' = _shortname_to_id S →
  _id_to_type S' = _id_to_type S →
  (∀ j, name_of S' j = name_of S j) →
  (∀ i, is_Some (_id_to_data S' !! i) ↔ is_Some (_id_to_data S !! i)) →
  indexed S'.
Proof.
  intros HS Hn Hs Ht Hname Hdom. split.
  - intros i. rewrite Hdom, Ht. apply HS.
  - intros n i. rewrite Hn, Hname. apply HS.
  - intros t s i. rewrite Hs, Ht. setoid_rewrite Hname. apply HS.
  - rewrite Hs. apply HS.
Qed.

Lemma as_name_Ok v n : as_name v = Ok n → v = VName n.
Proof. destruct v; simpl; congruence. Qed.

Lemma as_opt_name_data_get d o :
  as_opt_name (data_get d "name") = Ok o → data_name d = o.
Proof.
  unfold data_get, data_name.
  destruct (d !! "name") as [[]|]; simpl; congruence.
Qed.

Lemma as_opt_name_insert d v o :
  as_opt_name v = Ok o → data_name (<["name" := v]> d) = o.
Proof.
  unfold data_name. rewrite lookup_insert_eq.
  destruct v; simpl; congruence.
Qed.

Lemma _add_indexed S id scls data S' :
  indexed S →
  _id_to_type S !! id = None →
  _add S id scls data = Ok S' →
  indexed S'.
Proof.
  intros HS Hfresh Hadd. unfold _add in Hadd.
  inv_bind Hadd. rename a into name. inv_bind Hbind.
  apply getitem_Some in Hbind0. apply as_name_Ok in Hbind as ->.
  case_decide; [done|].
  inv_bind Hadd. destruct a as [n2i s2i].
  inv_bind Hadd. inv_bind Hadd. injection Hadd as <-.
  assert (Hnodata : _id_to_data S !! id = None).
  { destruct (_id_to_data S !! id) eqn:E; [|done].
    assert (is_Some (_id_to_type S !! id)) as [? ?]
      by (apply (indexed_dom S HS); eauto).
    congruence. }
  apply (indexed_rename_step S _ id scls None (Some name)); try done.
  - unfold name_of. by rewrite Hnodata.
  - intros o. by rewrite Hfresh.
  - unfold name_of. simpl. rewrite lookup_insert_eq. simpl.
    unfold data_name. by rewrite Hbind0.
  - intros j Hj. unfold name_of. simpl. by rewrite lookup_insert_ne.
  - intros j Hj. simpl. by rewrite lookup_insert_ne.
  - intros _. exists scls. simpl. by rewrite lookup_insert_eq.
  - intros i. simpl. rewrite !lookup_insert. case_decide; [done|apply HS].
Qed.

Lemma _delete_indexed S obj S' :
  indexed S →
  _delete S obj = Ok S' →
  indexed S'.
Proof.
  intros HS Hdel. unfold _delete in Hdel.
  destruct (_id_to_data S !! obj_id obj) as [data|] eqn:Hdata; [|done].
  inv_bind Hdel. rename a into name. inv_bind Hbind.
  apply getitem_Some in Hbind0. apply as_name_Ok in Hbind as ->.
  inv_bind Hdel. inv_bind Hdel. rename a0 into stored.
  apply getitem_Some in Hbind1.
  inv_bind Hdel. destruct a0 as [n2i s2i].
  inv_bind Hdel. inv_bind Hdel. inv_bind Hdel. inv_bind Hdel.
  injection Hdel as <-.
  apply map_delete_Ok in Hbind5 as [_ ->], Hbind6 as [_ ->].
  apply (indexed_rename_step S _ (obj_id obj) stored (Some name) None);
    try done.
  - unfold name_of. rewrite Hdata. simpl. unfold data_name. by rewrite Hbind0.
  - intros o. rewrite Hbind1. by intros [= <-].
  - unfold name_of. simpl. by rewrite lookup_delete_eq.
  - intros j Hj. unfold name_of. simpl. by rewrite lookup_delete_ne.
  - intros j Hj. simpl. by rewrite lookup_delete_ne.
  - intros i. simpl. rewrite !lookup_delete. case_decide; [|apply HS].
    split; by intros [? ?].
Qed.

Lemma _set_obj_field_indexed S id field v S' :
  indexed S →
  _set_obj_field S id field v = Ok S' →
  indexed S'.
Proof.
  intros HS Hset. unfold _set_obj_field in Hset.
  destruct (_id_to_data S !! id) as [data|] eqn:Hdata; [|done].
  inv_bind Hset. inv_bind Hset. inv_bind Hset. injection Hset as <-.
  rename a0 into scls. apply getitem_Some in Hbind0.
  assert (Hdom : ∀ i, is_Some (<[id := <[field := v]> data]> (_id_to_data S)
                                 !! i) ↔
                      is_Some (_id_to_data S !! i)).
  { intros i. rewrite lookup_insert.
    destruct (decide (id = i)) as [<-|Hi]; [|reflexivity].
    rewrite Hdata. split; intros _; by eexists. }
  destruct (decide (field = "name")) as [->|Hf].
  - inv_bind Hbind. rename a0 into old. inv_bind Hbind.
    apply getitem_Some in Hbind3. inv_bind Hbind. rename a2 into new.
    inv_bind Hbind. destruct a2 as [n s]. injection Hbind as <-.
    assert (a0 = scls) as -> by congruence.
    apply (indexed_rename_step S _ id scls old new); try done.
    + unfold name_of. rewrite Hdata. simpl. by apply as_opt_name_data_get.
    + intros o. rewrite Hbind0. by intros [= <-].
    + unfold name_of. simpl. rewrite lookup_insert_eq. simpl.
      by apply as_opt_name_insert.
    + intros j Hj. unfold name_of. simpl. by rewrite lookup_insert_ne.
    + intros _. by exists scls.
    + intros i. cbn [_id_to_type _id_to_data _replace default from_option].
      rewrite Hdom. apply HS.
  - injection Hbind as <-. apply (indexed_frame S); try done.
    + intros j. unfold name_of. simpl. rewrite lookup_insert.
      destruct (decide (id = j)) as [<-|Hj]; [|done]. rewrite Hdata. simpl.
      unfold data_name. by rewrite lookup_insert_ne.
Qed.

Lemma _unset_obj_field_finish_indexed S id field data n s S' :
  _id_to_data S !! id = Some data →
  _unset_obj_field_finish S id field data (base.delete field data) n s
    = Ok S' →
  _id_to_data S' = <[id := base.delete field data]> (_id_to_data S) ∧
  _id_to_type S' = _id_to_type S ∧
  _name_to_id S' = default (_name_to_id S) n ∧
  _shortname_to_id S' = default (_shortname_to_id S) s ∧
  is_Some (_id_to_type S !! id).
Proof.
  intros Hdata Hfin. unfold _unset_obj_field_finish in Hfin.
  inv_bind Hfin. inv_bind Hfin. inv_bind Hfin. injection Hfin as <-.
  apply getitem_Some in Hbind. simpl. eauto 10.
Qed.

Lemma _unset_obj_field_indexed S id field S' :
  indexed S →
  _unset_obj_field S id field = Ok S' →
  indexed S'.
Proof.
  intros HS Hun. unfold _unset_obj_field in Hun.
  destruct (_id_to_data S !! id) as [data|] eqn:Hdata;
    [|by injection Hun as <-].
  assert (Hdom : ∀ i, is_Some (<[id := base.delete field data]>
                                 (_id_to_data S) !! i) ↔
                      is_Some (_id_to_data S !! i)).
  { intros i. rewrite lookup_insert.
    destruct (decide (id = i)) as [<-|Hi]; [|reflexivity].
    rewrite Hdata. split; intros _; by eexists. }
  case_decide as Hname.
  - destruct Hname as [-> Hname].
    inv_bind Hun. rename a into scls. apply getitem_Some in Hbind.
    inv_bind Hun. rename a into old.
    inv_bind Hun. destruct a as [n s].
    inv_bind Hun. apply map_delete_Ok in Hbind2 as [_ ->].
    destruct (_unset_obj_field_finish_indexed _ _ _ _ _ _ _ Hdata Hun)
      as (Hd' & Ht' & Hn' & Hs' & _).
    simpl in Hn', Hs'.
    apply (indexed_rename_step S _ id scls old None); try done.
    + by rewrite Hn', Hs'.
    + unfold name_of. rewrite Hdata. simpl. by apply as_opt_name_data_get.
    + intros o. rewrite Hbind. by intros [= <-].
    + unfold name_of. rewrite Hd', lookup_insert_eq. simpl.
      unfold data_name. by rewrite lookup_delete_eq.
    + intros j Hj. unfold name_of. by rewrite Hd', lookup_insert_ne.
    + intros j Hj. by rewrite Ht'.
    + intros i. rewrite Hd', Ht', Hdom. apply HS.
  - destruct (map_delete field data) as [new_data|] eqn:Hd;
      [|by injection Hun as <-].
    apply map_delete_Ok in Hd as [_ ->].
    destruct (_unset_obj_field_finish_indexed _ _ _ _ _ _ _ Hdata Hun)
      as (Hd' & Ht' & Hn' & Hs' & _).
    apply (indexed_frame S); try done.
    + intros j. unfold name_of. rewrite Hd', lookup_insert.
      destruct (decide (id = j)) as [<-|Hj]; [|done]. rewrite Hdata. simpl.
      unfold data_name. destruct (decide (field = "name")) as [->|Hf].
      * rewrite lookup_delete_eq.
        assert (Hn : data_get data "name" = VNone).
        { destruct (decide (data_get data "name" = VNone)); [done|].
          destruct Hname. done. }
        unfold data_get in Hn. by destruct (data !! "name") as [[]|].
      * by rewrite lookup_delete_ne.
    + intros i. by rewrite Hd', Hdom.
Qed.

(** Every catalog value has its name indices in line with its data. *)
Lemma built_indexed S : built S → indexed S.
Proof.
  induction 1.
  - apply indexed_empty_schema.
  - by eapply _add_indexed.
  - by eapply _delete_indexed.
  - by eapply _set_obj_field_indexed.
  - by eapply _unset_obj_field_indexed.
Qed.

(** X1: in every catalog built by the mutating operations the name index
    mirrors the stored data: a name is a key of [name_to_id], mapped to an
    identity, exactly when the [name] field stored for that identity holds
    that name; hence no two objects of a catalog share a name, and
    [id_to_data] and [id_to_type] hold the same identities. *)
Theorem catalog_names_unique (S : Schema) :
  built S →
  (∀ n i, _name_to_id S !! n = Some i ↔ name_of S i = Some n) ∧
  (∀ i j n, name_of S i = Some n → name_of S j = Some n → i = j) ∧
  (∀ i, is_Some (_id_to_data S !! i) ↔ is_Some (_id_to_type S !! i)).
Proof.
  intros HS%built_indexed. split; [apply HS|]. split; [|apply HS].
  intros i j n Hi%(indexed_names S HS) Hj%(indexed_names S HS). congruence.
Qed.

(** The object of the catalog stored under name [n]. *)
Definition stored_as (S : Schema) (n : Name) (o : Object) : Prop :=
  ∃ i, name_of S i = Some n ∧ _id_to_type S !! i = Some o.

Lemma _get_by_name_one_stored S n :
  indexed S →
  ∃ r, _get_by_name_one S n None = Ok r ∧ ∀ o, r = Some o ↔ stored_as S n o.
Proof.
  intros HS. unfold _get_by_name_one, stored_as.
  destruct (_name_to_id S !! n) as [i|] eqn:Hn.
  - apply (indexed_names S HS) in Hn as Hname.
    assert (is_Some (_id_to_type S !! i)) as [o Ho].
    { apply (indexed_dom S HS). unfold name_of in Hname.
      destruct (_id_to_data S !! i); [by eexists | done]. }
    unfold getitem. rewrite Ho, bind_Ok. eexists. split; [done|].
    intros o'. split.
    + intros [= <-]. eauto.
    + intros (j & Hj%(indexed_names S HS) & Hjo). congruence.
  - eexists. split; [done|]. intros o. split; [done|].
    intros (j & Hj%(indexed_names S HS) & _). congruence.
Qed.

(** X2: looking a name up with [get] (no module aliases, no type filter, no
    default) in a catalog built by the mutating operations. The lookup
    returns the object stored under that very name if there is one; for a
    bare name stored by no object it returns the object stored under that
    name in module [std]; a qualified name never falls back to [std]; and in
    every other case the lookup fails with [ItemNotFoundError], never with
    another error. *)
Theorem get_resolves_names (S : Schema) (name : Name) :
  built S →
  (∀ o, get S name None None AnyType = Ok o ↔
        stored_as S name o ∨
        ∃ s, name = Unqualified s ∧ (∀ o', ¬ stored_as S name o') ∧
             stored_as S (SchemaName s "std") o) ∧
  ((∃ o, get S name None None AnyType = Ok o) ∨
   get S name None None AnyType = Err ItemNotFoundError).
Proof.
  intros HS%built_indexed. unfold get, _get, _get_by_name.
  destruct name as [nm m|s]; simpl.
  - destruct (_get_by_name_one_stored S (SchemaName nm m) HS)
      as (r & -> & Hr).
    rewrite !bind_Ok. destruct r as [o|]; simpl.
    + split; [|by eauto]. intros o'. split.
      * intros [= <-]. left. by apply Hr.
      * intros [Hst|(s & [=] & _)]. apply Hr in Hst. congruence.
    + split; [|by right]. intros o'. split; [done|].
      intros [Hst|(s & [=] & _)]. by apply Hr in Hst.
  - destruct (_get_by_name_one_stored S (Unqualified s) HS) as (r & -> & Hr).
    rewrite bind_Ok. destruct r as [o|]; simpl.
    + split; [|by eauto]. intros o'. split.
      * intros [= <-]. left. by apply Hr.
      * intros [Hst|(s' & _ & Hno & _)].
        -- apply Hr in Hst. congruence.
        -- destruct (Hno o). by apply Hr.
    + destruct (_get_by_name_one_stored S (SchemaName s "std") HS)
        as (r' & -> & Hr').
      rewrite bind_Ok. destruct r' as [o|]; simpl.
      * split; [|by eauto]. intros o'. split.
        -- intros [= <-]. right. exists s. split; [done|]. split.
           ++ intros o' Hst. by apply Hr in Hst.
           ++ by apply Hr'.
        -- intros [Hst|(s' & [= <-] & _ & Hst)].
           ++ by apply Hr in Hst.
           ++ apply Hr' in Hst. congruence.
      * split; [|by right]. intros o'. split; [done|].
        intros [Hst|(s' & [= <-] & _ & Hst)].
        -- by apply Hr in Hst.
        -- by apply Hr' in Hst.
Qed.

(** *** Overload groups *)

(** [_get_functions(schema, name)]: the tuple lists the group in the
    iteration order of the frozenset of identities. *)
Definition _get_functions (schema : Schema) (name : Name)
  : res (option (list Object)) :=
  match _shortname_to_id schema !! (s_func_Function, name) with
  | None => Ok None
  | Some objids =>
      objs ← mapM (getitem (_id_to_type schema)) (elements objids);
      Ok (Some objs)
  end.

(** [_get_operators(schema, name)] *)
Definition _get_operators (schema : Schema) (name : Name)
  : res (option (list Object)) :=
  match _shortname_to_id schema !! (s_oper_Operator, name) with
  | None => Ok None
  | Some objids =>
      objs ← mapM (getitem (_id_to_type schema)) (elements objids);
      Ok (Some objs)
  end.

(** [Schema.get_functions]; [default = None] is the [_void] sentinel. *)
Definition get_functions (self : Schema) (name : Name)
    (default : option (option (list Object)))
    (module_aliases : option (gmap (option string) string))
  : res (option (list Object)) :=
  funcs ← _get self name _get_functions module_aliases;
  match funcs, default with
  | Some fs, _ => Ok (Some fs)
  | None, Some d => Ok d
  | None, None => Err ItemNotFoundError
  end.

(** [Schema.get_operators] *)
Definition get_operators (self : Schema) (name : Name)
    (default : option (option (list Object)))
    (module_aliases : option (gmap (option string) string))
  : res (option (list Object)) :=
  funcs ← _get self name _get_operators module_aliases;
  match funcs, default with
  | Some fs, _ => Ok (Some fs)
  | None, Some d => Ok d
  | None, None => Err ItemNotFoundError
  end.

(** Object [o] of class [t] is stored under a name whose short name is
    [name]. *)
Definition callable_named (S : Schema) (t : cls) (name : Name) (o : Object)
  : Prop :=
  ∃ i n, _id_to_type S !! i = Some o ∧ obj_type o = t ∧
         name_of S i = Some n ∧ shortname_from_fullname n = name.

Lemma mapM_getitem_NoDup `{Countable K} {V} (m : gmap K V) (l : list K)
    (vs : list V) :
  mapM (getitem m) l = Ok vs →
  NoDup l →
  (∀ i j v, m !! i = Some v → m !! j = Some v → i = j) →
  NoDup vs.
Proof.
  intros Hm Hnd Hinj. revert vs Hm.
  induction Hnd as [|k l Hk Hnd IH]; intros vs Hm; simpl in Hm.
  - injection Hm as <-. constructor.
  - inv_bind Hm. inv_bind Hm. injection Hm as <-.
    apply getitem_Some in Hbind. constructor; [|by apply IH].
    intros (k' & Hk' & Hv)%(mapM_getitem_elem _ _ _ Hbind0).
    by rewrite (Hinj _ _ _ Hbind Hv) in Hk.
Qed.

Lemma overload_group S t name :
  indexed S → consistent S →
  has_sn_cache t = true →
  ∃ r,
    match _shortname_to_id S !! (t, name) with
    | None => Ok None
    | Some objids =>
        objs ← mapM (getitem (_id_to_type S)) (elements objids);
        Ok (Some objs)
    end = Ok r ∧
    (∀ l, r = Some l →
          l ≠ [] ∧ NoDup l ∧ ∀ o, o ∈ l ↔ callable_named S t name o) ∧
    (r = None → ∀ o, ¬ callable_named S t name o).
Proof.
  intros HS HC Ht.
  assert (Hin : ∀ i, i ∈ sn_at (_shortname_to_id S) (t, name) ↔
                     ∃ o n, _id_to_type S !! i = Some o ∧ obj_type o = t ∧
                            name_of S i = Some n ∧
                            shortname_from_fullname n = name).
  { intros i. rewrite (indexed_shortnames S HS). split.
    - intros (o & n & ? & ? & _ & ? & ?). eauto 10.
    - intros (o & n & ? & ? & ? & ?). exists o, n. by subst. }
  unfold sn_at in Hin.
  destruct (_shortname_to_id S !! (t, name)) as [ids|] eqn:Hids;
    simpl in Hin.
  - destruct (mapM_getitem_total (_id_to_type S) (elements ids)) as [l Hl].
    { intros i Hi%elem_of_elements. apply Hin in Hi as (o & _ & -> & _).
      by eexists. }
    rewrite Hl, bind_Ok. eexists. split; [done|]. split; [|done].
    intros ? [= <-]. split; [|split].
    + intros ->. destruct ids as [|i ids'] using set_ind_L.
      * by apply (indexed_nonempty S HS) in Hids.
      * assert (i ∈ elements ({[ i ]} ∪ ids')) as Hi
          by (apply elem_of_elements; set_solver).
        destruct (mapM_getitem_total (_id_to_type S) [i]) as [l' Hl'].
        { intros j ->%list_elem_of_singleton.
          assert (i ∈ {[ i ]} ∪ ids') as (o & _ & -> & _)%Hin by set_solver.
          by eexists. }
        simpl in Hl'. inv_bind Hl'. apply getitem_Some in Hbind.
        assert (a ∈ @nil Object) as Ha.
        { apply (mapM_getitem_elem _ _ _ Hl). eauto. }
        by apply elem_of_nil in Ha.
    + apply (mapM_getitem_NoDup _ _ _ Hl); [apply NoDup_elements|].
      intros i j v Hi Hj.
      rewrite <-(consistent_ids S HC _ _ Hi). by apply (consistent_ids S HC).
    + intros o. rewrite (mapM_getitem_elem _ _ _ Hl). unfold callable_named.
      split.
      * intros (i & Hi%elem_of_elements & Ho).
        apply Hin in Hi as (o' & n & Ho' & ? & ? & ?).
        exists i, n. rewrite Ho in Ho'. injection Ho' as <-. done.
      * intros (i & n & Ho & ? & ? & ?). exists i. split; [|done].
        apply elem_of_elements, Hin. eauto 10.
  - eexists. split; [done|]. split; [done|].
    intros _ o (i & n & Ho & ? & ? & ?).
    assert (i ∈ (∅ : gset uuid)) as Hi by (apply Hin; eauto 10).
    set_solver.
Qed.

(** X3: overload groups read back what was stored. In a catalog built by the
    mutating operations (function and operator classes being subclasses of
    themselves), [_get_functions] and [_get_operators] never raise; they
    return [None] exactly when no function (operator) is stored under a name
    with the given short name, and otherwise the non-empty tuple, free of
    duplicates, of exactly the stored functions (operators) whose name has
    that short name. *)
Theorem overload_groups_read_back (S : Schema) (name : Name) :
  built S →
  issubclass s_func_Function s_func_Function = true →
  issubclass s_oper_Operator s_oper_Operator = true →
  (∃ r, _get_functions S name = Ok r ∧
        (∀ l, r = Some l →
              l ≠ [] ∧ NoDup l ∧
              ∀ o, o ∈ l ↔ callable_named S s_func_Function name o) ∧
        (r = None → ∀ o, ¬ callable_named S s_func_Function name o)) ∧
  (∃ r, _get_operators S name = Ok r ∧
        (∀ l, r = Some l →
              l ≠ [] ∧ NoDup l ∧
              ∀ o, o ∈ l ↔ callable_named S s_oper_Operator name o) ∧
        (r = None → ∀ o, ¬ callable_named S s_oper_Operator name o)).
Proof.
  intros HS Hf Ho. pose proof (built_indexed S HS) as HI.
  pose proof (built_consistent S HS) as HC. split.
  - apply overload_group; [done..|]. unfold has_sn_cache. by rewrite Hf.
  - apply overload_group; [done..|]. unfold has_sn_cache. rewrite Ho.
    by rewrite orb_true_r.
Qed.

(** *** Adding, deleting and updating objects *)

(** X4: adding an object and looking it up. After a successful [add] of
    [scls] under identity [id], the object is returned by [get_by_id], its
    fields read back as given, and [get] on its name returns it, the name
    having been free before; the lookups of all other identities and names
    are as they were, and the generation counter has advanced by one. *)
Theorem add_then_lookup (S : Schema) (id : uuid) (scls : Object)
    (data : gmap string value) (S' : Schema) :
  _add S id scls data = Ok S' →
  ∃ name,
    data !! "name" = Some (VName name) ∧
    _name_to_id S !! name = None ∧
    _name_to_id S' !! name = Some id ∧
    get_by_id S' id None = Ok scls ∧
    (∀ f, _get_obj_field S' id f = Ok (data !! f)) ∧
    get S' name None None AnyType = Ok scls ∧
    (∀ j d, j ≠ id → get_by_id S' j d = get_by_id S j d) ∧
    (∀ j f, j ≠ id → _get_obj_field S' j f = _get_obj_field S j f) ∧
    (∀ n, n ≠ name → _name_to_id S' !! n = _name_to_id S !! n) ∧
    _generation S' = _generation S + 1.
Proof.
  intros Hadd. unfold _add in Hadd.
  inv_bind Hadd. rename a into name. inv_bind Hbind.
  apply getitem_Some in Hbind0. apply as_name_Ok in Hbind as ->.
  case_decide as Hfree; [done|].
  inv_bind Hadd. destruct a as [n2i s2i].
  inv_bind Hadd. inv_bind Hadd. injection Hadd as <-.
  destruct (_update_obj_name_names _ _ _ _ _ _ _ Hbind) as (-> & _ & _).
  assert (Hnone : _name_to_id S !! name = None).
  { destruct (_name_to_id S !! name) eqn:E; [|done]. destruct Hfree. eauto. }
  assert (Hname : _get_by_name_one
                    (_replace S (Some (<[id := data]> (_id_to_data S)))
                       (Some (<[id := scls]> (_id_to_type S)))
                       (Some (<[name := id]> (_name_to_id S))) (Some s2i) a0
                       (Some a)) name None = Ok (Some scls)).
  { unfold _get_by_name_one. simpl. rewrite lookup_insert_eq.
    unfold getitem. by rewrite lookup_insert_eq. }
  exists name. simpl. repeat split; try done.
  - by rewrite lookup_insert_eq.
  - unfold get_by_id. simpl. by rewrite lookup_insert_eq.
  - intros f. unfold _get_obj_field. simpl. by rewrite lookup_insert_eq.
  - unfold get, _get, _get_by_name.
    destruct name as [nm m|s]; simpl; simpl in Hname; by rewrite Hname.
  - intros j d Hj. unfold get_by_id. simpl. by rewrite lookup_insert_ne.
  - intros j f Hj. unfold _get_obj_field. simpl. by rewrite lookup_insert_ne.
  - intros n Hn. by rewrite lookup_insert_ne.
Qed.

(** X5: [add] and the module table. A successful [add] either adds a module,
    which is then registered under its name, or adds an object with a
    qualified name whose module is already registered, leaving the module
    table as it was: no object is ever added under a module the catalog
    does not have, nor under a bare name. *)
Theorem add_needs_module (S : Schema) (id : uuid) (scls : Object)
    (data : gmap string value) (S' : Schema) :
  _add S id scls data = Ok S' →
  (isinstance scls s_modules_Module = true ∧
   ∃ name, data !! "name" = Some (VName name) ∧
           _modules S' = <[name_str name := id]> (_modules S) ∧
           has_module S' (name_str name) = true) ∨
  (isinstance scls s_modules_Module = false ∧
   ∃ n m, data !! "name" = Some (VName (SchemaName n m)) ∧
          has_module S m = true ∧ _modules S' = _modules S).
Proof.
  intros Hadd. unfold _add in Hadd.
  inv_bind Hadd. rename a into name. inv_bind Hbind.
  apply getitem_Some in Hbind0. apply as_name_Ok in Hbind as ->.
  case_decide as Hfree; [done|].
  inv_bind Hadd. destruct a as [n2i s2i].
  inv_bind Hadd. inv_bind Hadd. injection Hadd as <-.
  destruct (isinstance scls s_modules_Module).
  - left. split; [done|]. exists name. injection Hbind2 as <-. simpl.
    split; [done|]. split; [done|].
    unfold has_module. simpl. rewrite lookup_insert_eq.
    apply bool_decide_eq_true. by eexists.
  - right. split; [done|]. inv_bind Hbind2.
    destruct name as [n m|s]; [|done]. simpl in Hbind3. injection Hbind3 as <-.
    case_decide as Hm; [|done]. injection Hbind2 as <-.
    exists n, m. split; [done|]. split; [|done].
    unfold has_module. by apply bool_decide_eq_true.
Qed.

(** X6: deleting an object. After a successful [delete] the identity is
    gone from the catalog and the name is free again; a second [delete]
    fails with [ItemNotFoundError], while [discard] returns the catalog
    unchanged. *)
Theorem delete_then_gone (S : Schema) (obj : Object) (S' : Schema) :
  delete S obj = Ok S' →
  get_by_id S' (obj_id obj) None = Err ItemNotFoundError ∧
  (∃ name, name_of S (obj_id obj) = Some name ∧
           _name_to_id S' !! name = None) ∧
  delete S' obj = Err ItemNotFoundError ∧
  discard S' obj = Ok S' ∧
  (∀ j d, j ≠ obj_id obj → get_by_id S' j d = get_by_id S j d) ∧
  (∀ j f, j ≠ obj_id obj → _get_obj_field S' j f = _get_obj_field S j f).
Proof.
  unfold delete. intros Hdel. unfold _delete in Hdel.
  destruct (_id_to_data S !! obj_id obj) as [data|] eqn:Hdata; [|done].
  inv_bind Hdel. rename a into name. inv_bind Hbind.
  apply getitem_Some in Hbind0. apply as_name_Ok in Hbind as ->.
  inv_bind Hdel. inv_bind Hdel. rename a0 into stored.
  inv_bind Hdel. destruct a0 as [n2i s2i].
  inv_bind Hdel. inv_bind Hdel. inv_bind Hdel. inv_bind Hdel.
  injection Hdel as <-.
  apply map_delete_Ok in Hbind5 as [_ ->], Hbind6 as [_ ->].
  destruct (_update_obj_name_names _ _ _ _ _ _ _ Hbind2) as (-> & _ & _).
  repeat split.
  - unfold get_by_id. simpl. by rewrite lookup_delete_eq.
  - exists name. split.
    + unfold name_of. rewrite Hdata. simpl. unfold data_name.
      by rewrite Hbind0.
    + simpl. by rewrite lookup_delete_eq.
  - unfold _delete. simpl. by rewrite lookup_delete_eq.
  - unfold discard. simpl. rewrite lookup_delete_eq.
    rewrite decide_False; [done|]. by intros [? ?].
  - intros j d Hj. unfold get_by_id. simpl. by rewrite lookup_delete_ne.
  - intros j f Hj. unfold _get_obj_field. simpl. by rewrite lookup_delete_ne.
Qed.

(** X7: writing and reading a field. After a successful [_set_obj_field]
    the field reads back as the value written, and every other field of the
    object, every field of every other object and the table of objects are
    as before; the catalog it was applied to must have held the object. *)
Theorem set_then_get (S : Schema) (id : uuid) (field : string) (v : value)
    (S' : Schema) :
  _set_obj_field S id field v = Ok S' →
  is_Some (_id_to_data S !! id) ∧
  _get_obj_field S' id field = Ok (Some v) ∧
  (∀ g, g ≠ field → _get_obj_field S' id g = _get_obj_field S id g) ∧
  (∀ j g, j ≠ id → _get_obj_field S' j g = _get_obj_field S j g) ∧
  _id_to_type S' = _id_to_type S ∧
  _generation S' = _generation S + 1.
Proof.
  intros Hset. unfold _set_obj_field in Hset.
  destruct (_id_to_data S !! id) as [data|] eqn:Hdata; [|done].
  inv_bind Hset. inv_bind Hset. inv_bind Hset. injection Hset as <-.
  split; [by eexists|]. unfold _get_obj_field. simpl.
  rewrite lookup_insert_eq, Hdata. repeat split.
  - by rewrite lookup_insert_eq.
  - intros g Hg. by rewrite lookup_insert_ne.
  - intros j g Hj. by rewrite lookup_insert_ne.
Qed.

(** X8: removing a field. After [_unset_obj_field] on an object the catalog
    holds, the field reads back as absent, whether or not it was set before;
    every other field of the object and every field of every other object
    are as before. *)
Theorem unset_then_get (S : Schema) (id : uuid) (field : string)
    (S' : Schema) :
  _unset_obj_field S id field = Ok S' →
  is_Some (_id_to_data S !! id) →
  _get_obj_field S' id field = Ok None ∧
  (∀ g, g ≠ field → _get_obj_field S' id g = _get_obj_field S id g) ∧
  (∀ j g, j ≠ id → _get_obj_field S' j g = _get_obj_field S j g) ∧
  _id_to_type S' = _id_to_type S.
Proof.
  intros Hun [data Hdata]. unfold _unset_obj_field in Hun.
  rewrite Hdata in Hun.
  assert (Hfin : ∀ n s,
    _unset_obj_field_finish S id field data (base.delete field data) n s
      = Ok S' →
    _get_obj_field S' id field = Ok None ∧
    (∀ g, g ≠ field → _get_obj_field S' id g = _get_obj_field S id g) ∧
    (∀ j g, j ≠ id → _get_obj_field S' j g = _get_obj_field S j g) ∧
    _id_to_type S' = _id_to_type S).
  { intros n s Hfin.
    destruct (_unset_obj_field_finish_indexed _ _ _ _ _ _ _ Hdata Hfin)
      as (Hd' & Ht' & _).
    unfold _get_obj_field. rewrite Hd', lookup_insert_eq, Hdata.
    repeat split; [| | |done].
    - by rewrite lookup_delete_eq.
    - intros g Hg. by rewrite lookup_delete_ne.
    - intros j g Hj. by rewrite lookup_insert_ne. }
  case_decide as Hname.
  - inv_bind Hun. inv_bind Hun. inv_bind Hun. destruct a1 as [n s].
    inv_bind Hun. apply map_delete_Ok in Hbind2 as [_ ->]. by eapply Hfin.
  - destruct (map_delete field data) as [new_data|] eqn:Hd.
    + apply map_delete_Ok in Hd as [_ ->]. by eapply Hfin.
    + injection Hun as <-. unfold map_delete in Hd.
      destruct (data !! field) eqn:Hf; [done|].
      unfold _get_obj_field. by rewrite Hdata, Hf.
Qed.

(** X9: renaming. A successful [_set_obj_field] of the field [name] to the
    name [n], in a catalog built by the mutating operations, maps [n] to the
    object and frees its old name; it is never accepted when another object
    holds [n], and the names of the other objects stay as they were. *)
Theorem rename_keeps_names_unique (S : Schema) (id : uuid) (n : Name)
    (S' : Schema) :
  built S →
  _set_obj_field S id "name" (VName n) = Ok S' →
  _name_to_id S' !! n = Some id ∧
  (∀ j, j ≠ id → name_of S j ≠ Some n) ∧
  (∀ o, name_of S id = Some o → o ≠ n → _name_to_id S' !! o = None) ∧
  (∀ m, name_of S id ≠ Some m → m ≠ n →
        _name_to_id S' !! m = _name_to_id S !! m).
Proof.
  intros HS%built_indexed Hset. unfold _set_obj_field in Hset.
  destruct (_id_to_data S !! id) as [data|] eqn:Hdata; [|done].
  inv_bind Hset. inv_bind Hset. inv_bind Hset. injection Hset as <-.
  rewrite decide_True in Hbind by done.
  inv_bind Hbind. rename a2 into old. inv_bind Hbind. inv_bind Hbind.
  injection Hbind4 as <-. inv_bind Hbind. destruct a3 as [n2i s2i].
  injection Hbind as <-. simpl.
  apply as_opt_name_data_get in Hbind2. subst old.
  assert (Hold : name_of S id = data_name data)
    by (unfold name_of; by rewrite Hdata).
  destruct (_update_obj_name_names _ _ _ _ _ _ _ Hbind4) as (-> & _ & Hfree).
  specialize (Hfree _ eq_refl).
  split; [by rewrite lookup_insert_eq|]. split; [|split].
  - intros j Hj Hjn. apply (indexed_names S HS) in Hjn.
    unfold names_without in Hfree.
    destruct (data_name data) as [o|] eqn:Hdn.
    + apply lookup_delete_None in Hfree as [->|Hfree]; [|congruence].
      apply (indexed_names S HS) in Hold. congruence.
    + congruence.
  - intros o Ho Hon. rewrite lookup_insert_ne by done.
    rewrite Hold in Ho. unfold names_without. rewrite Ho.
    by rewrite lookup_delete_eq.
  - intros m Hm Hmn. rewrite lookup_insert_ne by done.
    rewrite Hold in Hm. unfold names_without.
    destruct (data_name data) as [o|]; [|done].
    rewrite lookup_delete_ne; [done|]. by intros ->.
Qed.

(** *** The other modes of [get_referrers] *)

Lemma referrers_fold_type_spec S (t : cls)
    (l : list (cls * string * gset uuid)) acc :
  (∀ F ids i, (t, F, ids) ∈ l → i ∈ ids → is_Some (_id_to_type S !! i)) →
  ∃ R, foldM (λ referrers '(st, _, ids),
                if decide (st = t)
                then referrers_update S referrers (elements ids)
                else Ok referrers) acc l = Ok R ∧
       ∀ o, o ∈ R ↔
            o ∈ acc ∨
            ∃ F ids i, (t, F, ids) ∈ l ∧ i ∈ ids ∧ _id_to_type S !! i = Some o.
Proof.
  revert acc. induction l as [|[[st fn] ids] l IH]; intros acc Hl; simpl.
  - exists acc. split; [done|]. intros o. split; [by left|].
    intros [?|(? & ? & ? & ?%elem_of_nil & _)]; done.
  - case_decide as Hk.
    + subst st.
      destruct (referrers_update_spec S acc (elements ids))
        as (R1 & HR1 & HR1in).
      { intros i Hi%elem_of_elements. apply (Hl fn ids); [left|done]. }
      rewrite HR1, bind_Ok.
      destruct (IH R1) as (R & HR & HRin).
      { intros F ids' i Hin. apply (Hl F). by right. }
      exists R. split; [done|]. intros o. rewrite HRin, HR1in. split.
      * intros [[?|(i & Hi%elem_of_elements & ?)]|(F & ids' & i & ? & ?)].
        -- by left.
        -- right. exists fn, ids, i. split; [left|done].
        -- right. exists F, ids', i. split; [by right|done].
      * intros [?|(F & ids' & i & [[= <- <-]|?]%elem_of_cons & ? & ?)].
        -- by left; left.
        -- left; right. exists i. by rewrite elem_of_elements.
        -- right. eauto 10.
    + rewrite bind_Ok.
      destruct (IH acc) as (R & HR & HRin).
      { intros F ids' i Hin. apply (Hl F). by right. }
      exists R. split; [done|]. intros o. rewrite HRin. split.
      * intros [?|(F & ids' & i & ? & ?)]; [by left|].
        right. exists F, ids', i. split; [by right|done].
      * intros [?|(F & ids' & i & [[= <- <- <-]|?]%elem_of_cons & ? & ?)].
        -- by left.
        -- done.
        -- right. eauto 10.
Qed.

Lemma elem_of_concat {A} (x : A) (ls : list (list A)) :
  x ∈ concat ls ↔ ∃ l, l ∈ ls ∧ x ∈ l.
Proof.
  induction ls as [|l ls IH]; simpl.
  - split; [by intros ?%elem_of_nil|]. by intros (? & ?%elem_of_nil & _).
  - rewrite elem_of_app, IH. split.
    + intros [?|(l' & ? & ?)].
      * exists l. split; [left|done].
      * exists l'. split; [by right|done].
    + intros (l' & [->|?]%elem_of_cons & ?); [by left|]. right. eauto.
Qed.

Lemma refs_entry_stores S B refs key ids i :
  consistent S →
  _refs_to S !! obj_id B = Some refs →
  refs !! key = Some ids → i ∈ ids →
  ∃ A, _id_to_type S !! i = Some A ∧ obj_type A = key.1 ∧
       stores_ref S A key.2 (obj_id B).
Proof.
  intros HS Hrefs Hids Hi. destruct key as [t F].
  assert (i ∈ refs_at (_refs_to S) (obj_id B) (t, F)) as Hr.
  { unfold refs_at. rewrite Hrefs. simpl. by rewrite Hids. }
  apply (consistent_refs S HS) in Hr as (A & <- & ? & Hst).
  exists A. split; [apply Hst|done].
Qed.

Lemma stores_refs_entry S B A F :
  consistent S →
  stores_ref S A F (obj_id B) →
  ∃ refs ids, _refs_to S !! obj_id B = Some refs ∧
              refs !! (obj_type A, F) = Some ids ∧ obj_id A ∈ ids.
Proof.
  intros HS Hst.
  assert (obj_id A ∈ refs_at (_refs_to S) (obj_id B) (obj_type A, F)) as Hr
    by (apply (consistent_refs S HS); eauto).
  unfold refs_at in Hr.
  destruct (_refs_to S !! obj_id B) as [refs|]; simpl in Hr; [|set_solver].
  destruct (refs !! (obj_type A, F)) as [ids|] eqn:Hids; simpl in Hr;
    [|set_solver].
  eauto.
Qed.

(** X10: the other modes of [get_referrers], in a catalog whose
    reverse-reference index is consistent (as it is in every catalog built
    by the mutating operations). Filtered by class only, it returns exactly
    the stored objects of that class holding a reference to the object in
    some field; unfiltered, exactly the stored objects holding a reference
    to it in some field; and a field name without a class raises
    [ValueError] if the object has an index entry, and gives the empty set
    otherwise. *)
Theorem get_referrers_modes (S : Schema) (B : Object) :
  consistent S →
  (∀ t, ∃ R, get_referrers S B (Some t) None = Ok R ∧
             ∀ A, A ∈ R ↔ obj_type A = t ∧ ∃ F, stores_ref S A F (obj_id B)) ∧
  (∃ R, get_referrers S B None None = Ok R ∧
        ∀ A, A ∈ R ↔ ∃ F, stores_ref S A F (obj_id B)) ∧
  (∀ F, get_referrers S B None (Some F) =
        if decide (is_Some (_refs_to S !! obj_id B))
        then Err ValueError else Ok ∅).
Proof.
  intros HS. unfold get_referrers.
  destruct (_refs_to S !! obj_id B) as [refs|] eqn:Hrefs.
  - split; [|split].
    + intros t.
      destruct (referrers_fold_type_spec S t (map_to_list refs) ∅)
        as (R & HR & HRin).
      { intros F ids i Hin%elem_of_map_to_list Hi.
        destruct (refs_entry_stores S B _ _ _ _ HS Hrefs Hin Hi)
          as (A & -> & _). by eexists. }
      exists R. split; [done|]. intros A. rewrite HRin. split.
      * intros [?|(F & ids & i & Hin%elem_of_map_to_list & Hi & HA)];
          [set_solver|].
        destruct (refs_entry_stores S B _ _ _ _ HS Hrefs Hin Hi)
          as (A' & HA' & Hty & Hst).
        rewrite HA in HA'. injection HA' as <-. eauto.
      * intros [<- [F Hst]]. right.
        destruct (stores_refs_entry S B A F HS Hst)
          as (refs' & ids & Hrefs' & Hids & Hin).
        rewrite Hrefs in Hrefs'. injection Hrefs' as <-.
        exists F, ids, (obj_id A). rewrite elem_of_map_to_list.
        split; [done|]. split; [done|]. apply Hst.
    + destruct (referrers_update_spec S ∅
                  (concat ((λ kv, elements kv.2) <$> map_to_list refs)))
        as (R & HR & HRin).
      { intros i (l & Hl & Hi)%elem_of_concat.
        apply list_elem_of_fmap in Hl as ([key ids] & -> & Hin).
        apply elem_of_map_to_list in Hin. apply elem_of_elements in Hi.
        destruct (refs_entry_stores S B _ _ _ _ HS Hrefs Hin Hi)
          as (A & -> & _). by eexists. }
      exists R. split; [done|]. intros A. rewrite HRin. split.
      * intros [?|(i & (l & Hl & Hi)%elem_of_concat & HA)]; [set_solver|].
        apply list_elem_of_fmap in Hl as ([key ids] & -> & Hin).
        apply elem_of_map_to_list in Hin. apply elem_of_elements in Hi.
        destruct (refs_entry_stores S B _ _ _ _ HS Hrefs Hin Hi)
          as (A' & HA' & Hty & Hst).
        rewrite HA in HA'. injection HA' as <-. eauto.
      * intros [F Hst]. right.
        destruct (stores_refs_entry S B A F HS Hst)
          as (refs' & ids & Hrefs' & Hids & Hin).
        rewrite Hrefs in Hrefs'. injection Hrefs' as <-.
        exists (obj_id A). split; [|apply Hst].
        apply elem_of_concat. exists (elements ids).
        split; [|by apply elem_of_elements].
        apply list_elem_of_fmap. exists (obj_type A, F, ids).
        split; [done|]. by apply elem_of_map_to_list.
    + intros F. rewrite decide_True; [done|by eexists].
  - split; [|split].
    + intros t. exists ∅. split; [done|]. intros A. split; [set_solver|].
      intros [_ [F Hst]].
      destruct (stores_refs_entry S B A F HS Hst) as (? & ? & ? & _).
      congruence.
    + exists ∅. split; [done|]. intros A. split; [set_solver|].
      intros [F Hst].
      destruct (stores_refs_entry S B A F HS Hst) as (? & ? & ? & _).
      congruence.
    + intros F. rewrite decide_False; [done|]. by intros [? ?].
Qed.

(** *** Iterating over the catalog *)

(** The filters of [SchemaIterator], applied to one object. *)
Definition iterator_keeps (self : Schema) (modules : option (list string))
    (type : option cls) (o : Object) : res bool :=
  let by_type :=
    match type with
    | Some t => isinstance o t
    | None => true
    end in
  if negb by_type then Ok false
  else
    match modules with
    | None => Ok true
    | Some ms =>
        if isinstance o s_modules_Module then Ok false
        else
          n ← get_name self o;
          m ← name_module n;
          Ok (bool_decide (m ∈ ms))
    end.

Lemma get_objects_fold S modules type l acc r :
  foldM (λ acc o,
           let by_type :=
             match type with
             | Some t => isinstance o t
             | None => true
             end in
           if negb by_type then Ok acc
           else
             match modules with
             | None => Ok (acc ++ [o])
             | Some ms =>
                 if isinstance o s_modules_Module then Ok acc
                 else
                   n ← get_name S o;
                   m ← name_module n;
                   if bool_decide (m ∈ ms) then Ok (acc ++ [o]) else Ok acc
             end) acc l = Ok r →
  ∃ l', r = acc ++ l' ∧ sublist l' l ∧
        ∀ o, o ∈ l' ↔ o ∈ l ∧ iterator_keeps S modules type o = Ok true.
Proof.
  revert acc r. induction l as [|x l IH]; intros acc r Hf; simpl in Hf.
  - injection Hf as <-. exists []. rewrite app_nil_r. split; [done|].
    split; [done|]. intros o. split; [by intros ?%elem_of_nil|].
    by intros [?%elem_of_nil _].
  - inv_bind Hf. destruct (IH _ _ Hf) as (l' & -> & Hsub & Hin).
    assert (Hx : (a = acc ∧ iterator_keeps S modules type x ≠ Ok true) ∨
                 (a = acc ++ [x] ∧ iterator_keeps S modules type x = Ok true)).
    { unfold iterator_keeps.
      destruct (negb _); [left; split; [congruence|done]|].
      destruct modules as [ms|]; [|right; split; [congruence|done]].
      destruct (isinstance x s_modules_Module);
        [left; split; [congruence|done]|].
      inv_bind Hbind. inv_bind Hbind. rewrite Hbind0, bind_Ok, Hbind1, bind_Ok.
      destruct (bool_decide (a1 ∈ ms));
        [right|left]; split; congruence. }
    destruct Hx as [[-> Hk]|[-> Hk]].
    + exists l'. split; [done|]. split; [by apply sublist_cons|].
      intros o. rewrite Hin, elem_of_cons. split; [naive_solver|].
      intros [[->|?] ?]; done.
    + exists (x :: l'). rewrite <-app_assoc. split; [done|].
      split; [by apply sublist_skip|].
      intros o. rewrite !elem_of_cons, Hin. split; [naive_solver|].
      intros [[->|?] ?]; [by left | by right].
Qed.

(** X11: iterating over the catalog. In a catalog that files every object
    under its own identity (as every catalog built by the mutating
    operations does), [get_objects] without a module filter does not raise
    and enumerates, each once, exactly the stored objects, or with a type
    filter exactly the stored instances of that type. With a module filter,
    whenever the iteration completes, it has enumerated exactly the stored
    objects passing the type filter that are not modules and whose name lies
    in one of the given modules. *)
Theorem get_objects_enumerates (S : Schema) (type : option cls) :
  consistent S →
  (∃ l, get_objects S None type = Ok l ∧ NoDup l ∧
        ∀ o, o ∈ l ↔
             _id_to_type S !! obj_id o = Some o ∧
             match type with
             | Some t => isinstance o t = true
             | None => True
             end) ∧
  (∀ ms l, get_objects S (Some ms) type = Ok l →
           NoDup l ∧
           ∀ o, o ∈ l ↔
                _id_to_type S !! obj_id o = Some o ∧
                match type with
                | Some t => isinstance o t = true
                | None => True
                end ∧
                isinstance o s_modules_Module = false ∧
                ∃ n m, get_name S o = Ok n ∧ name_module n = Ok m ∧ m ∈ ms).
Proof.
  intros HS.
  assert (Hall : ∀ o, o ∈ (map_to_list (_id_to_type S)).*2 ↔
                      _id_to_type S !! obj_id o = Some o).
  { intros o. rewrite list_elem_of_fmap. split.
    - intros ([i o'] & -> & Hin%elem_of_map_to_list). simpl.
      by rewrite (consistent_ids S HS _ _ Hin).
    - intros Ho. exists (obj_id o, o). split; [done|].
      by apply elem_of_map_to_list. }
  assert (Hnd : NoDup (map_to_list (_id_to_type S)).*2).
  { apply NoDup_fmap_2_strong; [|apply NoDup_map_to_list].
    intros [i o] [j o'] Hi%elem_of_map_to_list Hj%elem_of_map_to_list.
    simpl. intros <-. f_equal.
    rewrite <-(consistent_ids S HS _ _ Hi). by apply (consistent_ids S HS). }
  split.
  - assert (Htot : ∀ l acc, ∃ r,
      foldM (λ acc o,
               let by_type :=
                 match type with
                 | Some t => isinstance o t
                 | None => true
                 end in
               if negb by_type then Ok acc
               else
                 match @None (list string) with
                 | None => Ok (acc ++ [o])
                 | Some ms =>
                     if isinstance o s_modules_Module then Ok acc
                     else
                       n ← get_name S o;
                       m ← name_module n;
                       if bool_decide (m ∈ ms) then Ok (acc ++ [o])
                       else Ok acc
                 end) acc l = Ok r).
    { induction l as [|x l IH]; intros acc; simpl; [by eexists|].
      destruct (negb _); rewrite bind_Ok; apply IH. }
    destruct (Htot (map_to_list (_id_to_type S)).*2 []) as [r Hr].
    exists r. unfold get_objects. split; [done|].
    destruct (get_objects_fold S None type _ [] r Hr)
      as (l' & -> & Hsub & Hin).
    simpl. split; [by eapply sublist_NoDup|].
    intros o. rewrite Hin, Hall. unfold iterator_keeps.
    destruct type as [t|]; simpl.
    + destruct (isinstance o t); simpl; naive_solver.
    + naive_solver.
  - intros ms l Hl. unfold get_objects in Hl.
    destruct (get_objects_fold S (Some ms) type _ [] l Hl)
      as (l' & -> & Hsub & Hin).
    simpl. split; [by eapply sublist_NoDup|].
    intros o. rewrite Hin, Hall. unfold iterator_keeps.
    assert (Hty : negb match type with
                       | Some t => isinstance o t
                       | None => true
                       end = false ↔
                  match type with
                  | Some t => isinstance o t = true
                  | None => True
                  end).
    { destruct type as [t|]; [|done]. by destruct (isinstance o t). }
    destruct (negb _).
    + split; [by intros [_ ?]|]. intros (_ & Ht%Hty & _). done.
    + destruct (isinstance o s_modules_Module).
      * split; [by intros [_ ?]|]. by intros (_ & _ & ? & _).
      * split.
        -- intros [Ho Hk]. split; [done|]. split; [by apply Hty|].
           split; [done|]. inv_bind Hk. inv_bind Hk. injection Hk as Hk.
           apply bool_decide_eq_true in Hk. eauto.
        -- intros (Ho & _ & _ & n & m & -> & Hm & Hms). split; [done|].
           rewrite bind_Ok, Hm, bind_Ok. f_equal.
           by apply bool_decide_eq_true.
Qed.

(** *** Casts *)

(** [Schema._get_casts]. The class of casts [s_casts.Cast] and the getters
    [cast.get_allow_implicit(schema)] and [cast.get_allow_assignment(schema)]
    belong to the object model, outside the source file. *)
Definition _get_casts (s_casts_Cast : cls)
    (get_allow_implicit get_allow_assignment : Schema → Object → res bool)
    (self : Schema) (stype : Object) (disposition : string)
    (implicit assignment : bool) : res (gset Object) :=
  all_casts ← get_referrers self stype (Some s_casts_Cast) (Some disposition);
  casts ←
    foldM (λ casts cast,
             skip ← (if implicit
                     then allow ← get_allow_implicit self cast;
                          Ok (negb allow)
                     else Ok false);
             if (skip : bool) then Ok casts
             else
               skip ← (if assignment
                       then allow ← get_allow_assignment self cast;
                            Ok (negb allow)
                       else Ok false);
               if (skip : bool) then Ok casts else Ok (casts ++ [cast]))
          [] (elements all_casts);
  Ok (list_to_set casts).

Definition get_casts_to_type (s_casts_Cast : cls)
    (get_allow_implicit get_allow_assignment : Schema → Object → res bool)
    (self : Schema) (to_type : Object) (implicit assignment : bool)
  : res (gset Object) :=
  _get_casts s_casts_Cast get_allow_implicit get_allow_assignment
             self to_type "to_type" implicit assignment.

Definition get_casts_from_type (s_casts_Cast : cls)
    (get_allow_implicit get_allow_assignment : Schema → Object → res bool)
    (self : Schema) (from_type : Object) (implicit assignment : bool)
  : res (gset Object) :=
  _get_casts s_casts_Cast get_allow_implicit get_allow_assignment
             self from_type "from_type" implicit assignment.

(** A cast passes the filters of [_get_casts]. *)
Definition cast_allowed
    (get_allow_implicit get_allow_assignment : Schema → Object → res bool)
    (S : Schema) (implicit assignment : bool) (cast : Object) : Prop :=
  (implicit = true → get_allow_implicit S cast = Ok true) ∧
  (assignment = true → get_allow_assignment S cast = Ok true).

Lemma _get_casts_spec s_casts_Cast gi ga S T disposition implicit assignment :
  consistent S →
  (∀ R, _get_casts s_casts_Cast gi ga S T disposition implicit assignment
          = Ok R →
        ∀ C, C ∈ R ↔
             obj_type C = s_casts_Cast ∧
             stores_ref S C disposition (obj_id T) ∧
             cast_allowed gi ga S implicit assignment C) ∧
  ((∀ C, obj_type C = s_casts_Cast →
         stores_ref S C disposition (obj_id T) →
         (implicit = true → ∃ b, gi S C = Ok b) ∧
         (assignment = true → ∃ b, ga S C = Ok b)) →
   ∃ R, _get_casts s_casts_Cast gi ga S T disposition implicit assignment
          = Ok R).
Proof.
  intros HS. unfold _get_casts.
  destruct (get_referrers_spec S T s_casts_Cast disposition HS)
    as (All & -> & HAll).
  rewrite bind_Ok.
  assert (Hfold : ∀ l acc r,
    foldM (λ casts cast,
             skip ← (if implicit
                     then allow ← gi S cast; Ok (negb allow)
                     else Ok false);
             if (skip : bool) then Ok casts
             else
               skip ← (if assignment
                       then allow ← ga S cast; Ok (negb allow)
                       else Ok false);
               if (skip : bool) then Ok casts else Ok (casts ++ [cast]))
          acc l = Ok r →
    ∀ C, C ∈ r ↔ C ∈ acc ∨ (C ∈ l ∧ cast_allowed gi ga S implicit assignment C)).
  { induction l as [|x l IH]; intros acc r Hf C; simpl in Hf.
    - injection Hf as <-. split; [by left|].
      by intros [?|[?%elem_of_nil _]].
    - inv_bind Hf. rewrite (IH _ _ Hf), elem_of_cons.
      assert (Hx : (a = acc ∧ ¬ cast_allowed gi ga S implicit assignment x) ∨
                   (a = acc ++ [x] ∧
                    cast_allowed gi ga S implicit assignment x)).
      { unfold cast_allowed. inv_bind Hbind.
        destruct implicit.
        - inv_bind Hbind0. injection Hbind0 as <-. destruct a1; simpl in Hbind.
          + inv_bind Hbind. destruct assignment.
            * inv_bind Hbind0. injection Hbind0 as <-.
              destruct a1; simpl in Hbind; injection Hbind as <-.
              -- right. by rewrite Hbind1, Hbind2.
              -- left. split; [done|]. intros [_ Hn].
                 specialize (Hn eq_refl). congruence.
            * injection Hbind0 as <-. injection Hbind as <-.
              right. by rewrite Hbind1.
          + injection Hbind as <-. left. split; [done|]. intros [Hn _].
            specialize (Hn eq_refl). congruence.
        - injection Hbind0 as <-. simpl in Hbind. inv_bind Hbind.
          destruct assignment.
          + inv_bind Hbind0. injection Hbind0 as <-.
            destruct a1; simpl in Hbind; injection Hbind as <-.
            * right. by rewrite Hbind1.
            * left. split; [done|]. intros [_ Hn].
              specialize (Hn eq_refl). congruence.
          + injection Hbind0 as <-. injection Hbind as <-. by right. }
      destruct Hx as [[-> Hk]|[-> Hk]].
      + split; [naive_solver|]. intros [?|[[->|?] ?]]; [by left|done|by right].
      + rewrite elem_of_app, list_elem_of_singleton. split; [naive_solver|].
        intros [?|[[->|?] ?]]; [by left; left|by left; right|by right]. }
  split.
  - intros R HR. inv_bind HR. injection HR as <-. intros C.
    rewrite elem_of_list_to_set, (Hfold _ _ _ Hbind), elem_of_elements, HAll.
    split.
    + intros [?%elem_of_nil|[[? ?] ?]]; done.
    + intros (? & ? & ?). by right.
  - intros Htot.
    assert (Hret : ∀ l acc, (∀ C, C ∈ l → C ∈ All) → ∃ r,
      foldM (λ casts cast,
               skip ← (if implicit
                       then allow ← gi S cast; Ok (negb allow)
                       else Ok false);
               if (skip : bool) then Ok casts
               else
                 skip ← (if assignment
                         then allow ← ga S cast; Ok (negb allow)
                         else Ok false);
                 if (skip : bool) then Ok casts else Ok (casts ++ [cast]))
            acc l = Ok r).
    { induction l as [|x l IH]; intros acc Hl; simpl; [by eexists|].
      assert (x ∈ All) as [Hty Hst]%HAll by (apply Hl; left).
      destruct (Htot x Hty Hst) as [Hi Ha].
      assert (∀ C, C ∈ l → C ∈ All) as Hl' by (intros C ?; apply Hl; by right).
      destruct implicit.
      - destruct (Hi eq_refl) as [b ->]. rewrite ?bind_Ok.
        destruct b; simpl; rewrite ?bind_Ok; [|by apply IH].
        destruct assignment.
        + destruct (Ha eq_refl) as [b ->]. rewrite ?bind_Ok.
          destruct b; simpl; rewrite ?bind_Ok; by apply IH.
        + rewrite ?bind_Ok. by apply IH.
      - rewrite ?bind_Ok. destruct assignment.
        + destruct (Ha eq_refl) as [b ->]. rewrite ?bind_Ok.
          destruct b; simpl; rewrite ?bind_Ok; by apply IH.
        + rewrite ?bind_Ok. by apply IH. }
    destruct (Hret (elements All) []) as [r ->].
    { intros C. by rewrite elem_of_elements. }
    rewrite bind_Ok. by eexists.
Qed.

(** X12: the casts of a type. In a catalog whose reverse-reference index is
    consistent, whenever [get_casts_to_type] ([get_casts_from_type]) returns,
    its result holds exactly the stored objects of the cast class whose field
    [to_type] ([from_type]) refers to the type and which pass the requested
    filters: allowing implicit use if [implicit] is set, allowing assignment
    use if [assignment] is set. Without filters the lookup does not raise,
    and the getters of the flags are not consulted. *)
Theorem casts_of_type (s_casts_Cast : cls)
    (get_allow_implicit get_allow_assignment : Schema → Object → res bool)
    (S : Schema) (T : Object) :
  consistent S →
  (∀ implicit assignment R,
     get_casts_to_type s_casts_Cast get_allow_implicit get_allow_assignment
                       S T implicit assignment = Ok R →
     ∀ C, C ∈ R ↔
          obj_type C = s_casts_Cast ∧ stores_ref S C "to_type" (obj_id T) ∧
          cast_allowed get_allow_implicit get_allow_assignment S
                       implicit assignment C) ∧
  (∀ implicit assignment R,
     get_casts_from_type s_casts_Cast get_allow_implicit get_allow_assignment
                         S T implicit assignment = Ok R →
     ∀ C, C ∈ R ↔
          obj_type C = s_casts_Cast ∧ stores_ref S C "from_type" (obj_id T) ∧
          cast_allowed get_allow_implicit get_allow_assignment S
                       implicit assignment C) ∧
  (∃ R, get_casts_to_type s_casts_Cast get_allow_implicit
                          get_allow_assignment S T false false = Ok R) ∧
  (∃ R, get_casts_from_type s_casts_Cast get_allow_implicit
                            get_allow_assignment S T false false = Ok R).
Proof.
  intros HS. unfold get_casts_to_type, get_casts_from_type.
  split; [|split; [|split]].
  - intros implicit assignment.
    apply (_get_casts_spec s_casts_Cast _ _ S T "to_type" implicit assignment
             HS).
  - intros implicit assignment.
    apply (_get_casts_spec s_casts_Cast _ _ S T "from_type" implicit
             assignment HS).
  - apply (_get_casts_spec s_casts_Cast _ _ S T "to_type" false false HS).
    intros C _ _. split; intros [=].
  - apply (_get_casts_spec s_casts_Cast _ _ S T "from_type" false false HS).
    intros C _ _. split; intros [=].
Qed.

(** *** Batch updates *)

(** The effect of one item of [updates] on the data under construction:
    [None] removes the field, any other value sets it. *)
Definition apply_update (mm : gmap string value) (item : string * value)
  : gmap string value :=
  match item.2 with
  | VNone => base.delete item.1 mm
  | _ => <[item.1 := item.2]> mm
  end.

(** The body of [for field, value in updates.items()]. *)
Definition _update_obj_step (self : Schema) (obj_id : uuid)
    (acc : gmap string value * option (gmap Name uuid) *
           option (gmap (cls * Name) (gset uuid)))
    (item : string * value)
  : res (gmap string value * option (gmap Name uuid) *
         option (gmap (cls * Name) (gset uuid))) :=
  let '(mm, name_to_id, shortname_to_id) := acc in
  '(name_to_id, shortname_to_id) ←
    (if decide (item.1 = "name") then
       scls ← getitem (_id_to_type self) obj_id;
       old_name ← as_opt_name (data_get mm "name");
       new_name ← as_opt_name item.2;
       '(n, s) ← _update_obj_name self obj_id scls old_name new_name;
       Ok (Some n, Some s)
     else Ok (name_to_id, shortname_to_id));
  Ok (apply_update mm item, name_to_id, shortname_to_id).

(** [Schema._update_obj]; [updates] lists the items of the dict in
    iteration order. *)
Definition _update_obj (self : Schema) (obj_id : uuid)
    (updates : list (string * value)) : res Schema :=
  match updates with
  | [] => Ok self
  | _ =>
      let data := default ∅ (_id_to_data self !! obj_id) in
      '(new_data, name_to_id, shortname_to_id) ←
        foldM (_update_obj_step self obj_id) (data, None, None) updates;
      let id_to_data := <[obj_id := new_data]> (_id_to_data self) in
      scls ← getitem (_id_to_type self) obj_id;
      refs_to ← _update_refs_to self scls (Some data) (Some new_data);
      Ok (_replace self (Some id_to_data) None name_to_id shortname_to_id None
                   (Some refs_to))
  end.

Lemma _update_obj_fold_data S id updates mm n s mm' n' s' :
  foldM (_update_obj_step S id) (mm, n, s) updates = Ok (mm', n', s') →
  mm' = foldl apply_update mm updates.
Proof.
  revert mm n s. induction updates as [|item updates IH]; intros mm n s Hf;
    simpl in Hf.
  - by injection Hf as <- _ _.
  - inv_bind Hf. destruct a as [[mm1 n1] s1]. simpl.
    unfold _update_obj_step in Hbind. inv_bind Hbind. destruct a as [n2 s2].
    injection Hbind as <- _ _. by eapply IH.
Qed.

(** X13: batch updates. A successful [_update_obj] stores for the object the
    data obtained by applying the items in order, an item with value [None]
    removing its field and any other item setting it, and leaves the data of
    every other object alone; it keeps the reverse-reference index
    consistent with the stored references; and without items it returns the
    catalog itself. *)
Theorem update_obj_consistent (S : Schema) (id : uuid)
    (updates : list (string * value)) (S' : Schema) :
  consistent S →
  _update_obj S id updates = Ok S' →
  consistent S' ∧
  (updates = [] → S' = S) ∧
  (updates ≠ [] →
   _id_to_data S' !! id =
   Some (foldl apply_update (default ∅ (_id_to_data S !! id)) updates)) ∧
  (∀ j, j ≠ id → _id_to_data S' !! j = _id_to_data S !! j) ∧
  _id_to_type S' = _id_to_type S.
Proof.
  intros HS Hup. unfold _update_obj in Hup.
  destruct updates as [|u updates]; [by injection Hup as <-|].
  remember (u :: updates) as ups eqn:Hups.
  inv_bind Hup. destruct a as [[new_data n] s].
  inv_bind Hup. rename a into scls. apply getitem_Some in Hbind0.
  inv_bind Hup. rename a into refs_to. injection Hup as <-.
  apply _update_obj_fold_data in Hbind. subst new_data.
  remember (default ∅ (_id_to_data S !! id)) as data eqn:Hdata.
  assert (Hid : obj_id scls = id) by by apply (consistent_ids S HS).
  split; [|split; [by intros ->|split; [|split]]].
  - split.
    + simpl. apply HS.
    + apply (consistent_refs_step S _ scls (Some data)
               (Some (foldl apply_update data ups))
               (field_refs_of (Some data))
               (field_refs_of (Some (foldl apply_update data ups))));
        [done|..].
      * intros A. rewrite Hid. congruence.
      * exact (_update_refs_to_spec _ _ _ _ _ Hbind1).
      * intros F b HF. rewrite stores_ref_field_refs, Hid, Hdata.
        destruct (_id_to_data S !! id) as [d|]; simpl.
        -- split; [by intros (_ & _ & ?) | done].
        -- rewrite lookup_empty.
           split; [by intros (_ & _ & ?)|]. by intros ?%elem_of_empty.
      * intros A F b. rewrite !stores_ref_field_refs.
        cbn [_id_to_type _id_to_data _replace default from_option];
          unfold Datatypes.id.
        rewrite !lookup_insert, Hid.
        destruct (decide (id = obj_id A)) as [HA|HA].
        -- split.
           ++ intros (HAt & ? & ?). left. rewrite <-HA in HAt. naive_solver.
           ++ intros [(-> & ? & ?)|(? & _)]; [|congruence]. by rewrite Hid.
        -- split.
           ++ intros (? & ? & ?). right. split; [congruence|done].
           ++ intros [(-> & ? & ?)|(_ & ?)]; [congruence|done].
      * intros F b _.
        generalize (field_refs_of (Some (foldl apply_update data ups)) F)
                   (field_refs_of (Some data) F).
        clear. intros N O.
        destruct (decide (b ∈ O)), (decide (b ∈ N)); set_solver.
  - intros _. simpl. by rewrite lookup_insert_eq.
  - intros j Hj. simpl. by rewrite lookup_insert_ne.
  - done.
Qed.

End Catalog.

(** ** A sample class table and sample catalogs

    The parameters of the catalog are instantiated with a small class table
    (types, casts, callables, modules), and catalogs are built with [_add]
    so that the results above can be run on concrete values. *)

Inductive sample_cls : Type :=
  | Cls_Type
  | Cls_ObjectType
  | Cls_Cast
  | Cls_Function
  | Cls_Operator
  | Cls_Module.

Global Instance sample_cls_eq_dec : EqDecision sample_cls.
Proof. solve_decision. Defined.

Global Instance sample_cls_countable : Countable sample_cls.
Proof.
  refine (inj_countable'
    (λ c, match c with
          | Cls_Type => 0 | Cls_ObjectType => 1 | Cls_Cast => 2
          | Cls_Function => 3 | Cls_Operator => 4 | Cls_Module => 5
          end)
    (λ n, match n with
          | 0 => Cls_Type | 1 => Cls_ObjectType | 2 => Cls_Cast
          | 3 => Cls_Function | 4 => Cls_Operator | _ => Cls_Module
          end) _).
  by intros [].
Defined.

(** [ObjectType] derives from [Type]; every class derives from itself. *)
Definition sample_issubclass (c t : sample_cls) : bool :=
  bool_decide (c = t) ||
  match c, t with
  | Cls_ObjectType, Cls_Type => true
  | _, _ => false
  end.

Definition sample_object_fields (c : sample_cls) : list string :=
  match c with
  | Cls_ObjectType => ["bases"]
  | Cls_Cast => ["from_type"; "to_type"]
  | Cls_Function | Cls_Operator => ["return_type"]
  | _ => []
  end.

Definition sample_shortname (n : Name) : Name := n.

Definition sample_material_type (S : @Schema sample_cls _ _)
    (o : @Object sample_cls) : res Object := Ok o.

Definition sample_add :=
  _add Cls_Function Cls_Operator Cls_Module sample_issubclass
       sample_object_fields sample_shortname.
Definition sample_delete :=
  delete Cls_Function Cls_Operator Cls_Module sample_issubclass
         sample_object_fields sample_shortname.
Definition sample_set_field :=
  _set_obj_field Cls_Function Cls_Operator sample_issubclass
                 sample_object_fields sample_shortname.
Definition sample_unset_field :=
  _unset_obj_field Cls_Function Cls_Operator sample_issubclass
                   sample_object_fields sample_shortname.
Definition sample_get_descendants :=
  _get_descendants Cls_Module sample_issubclass sample_material_type.

Definition from_ok (r : res (@Schema sample_cls _ _)) : Schema :=
  match r with
  | Ok s => s
  | Err _ => empty_schema
  end.

Definition mod_test : @Object sample_cls := mkObject 1%positive Cls_Module.
Definition type_A : @Object sample_cls := mkObject 2%positive Cls_ObjectType.
Definition type_B : @Object sample_cls := mkObject 3%positive Cls_ObjectType.
Definition type_C : @Object sample_cls := mkObject 4%positive Cls_ObjectType.

Definition data_of (name : Name) (bases : list uuid)
  : gmap string (@value sample_cls) :=
  {[ "name" := VName name; "bases" := VObjectCollection bases ]}.

(** module [test]; then [A]; then [B] with base [A]; then [C] with base [B]. *)
Definition S1 : Schema :=
  from_ok (sample_add empty_schema 1%positive mod_test
             {[ "name" := VName (Unqualified "test") ]}).
Definition S2 : Schema :=
  from_ok (sample_add S1 2%positive type_A (data_of (SchemaName "A" "test") [])).
Definition S3 : Schema :=
  from_ok (sample_add S2 3%positive type_B (data_of (SchemaName "B" "test") [2%positive])).
Definition S4 : Schema :=
  from_ok (sample_add S3 4%positive type_C (data_of (SchemaName "C" "test") [3%positive])).
(** [C] gets the bases [B; A]: [B] is referenced before and after. *)
Definition S5 : Schema :=
  from_ok (sample_set_field S4 4%positive "bases" (VObjectCollection [3%positive; 2%positive])).
Definition S6 : Schema := from_ok (sample_unset_field S5 4%positive "bases").
Definition S7 : Schema := from_ok (sample_delete S6 type_C).

Example sample_catalogs_built :
  sample_add empty_schema 1%positive mod_test
    {[ "name" := VName (Unqualified "test") ]} = Ok S1 ∧
  sample_add S1 2%positive type_A (data_of (SchemaName "A" "test") []) = Ok S2 ∧
  sample_add S2 3%positive type_B (data_of (SchemaName "B" "test") [2%positive]) = Ok S3 ∧
  sample_add S3 4%positive type_C (data_of (SchemaName "C" "test") [3%positive]) = Ok S4 ∧
  sample_set_field S4 4%positive "bases" (VObjectCollection [3%positive; 2%positive]) = Ok S5 ∧
  sample_unset_field S5 4%positive "bases" = Ok S6 ∧
  sample_delete S6 type_C = Ok S7.
Proof. repeat split; vm_compute; reflexivity. Qed.

(** C9: with [max_depth] omitted [_get_descendants] does not recurse at
    all. In the chain [A <- B <- C], [C] is a subtype of [A] two levels down:
    [get_descendants(A)] returns only [B], although [get_descendants(B)]
    returns [C] and [max_depth=1] does reach [C]. *)
Theorem get_descendants_omitted_depth_is_shallow :
  sample_get_descendants S4 type_A None 0 = Ok {[ type_B ]} ∧
  sample_get_descendants S4 type_B None 0 = Ok {[ type_C ]} ∧
  sample_get_descendants S4 type_A (Some 0) 0 = Ok {[ type_B ]} ∧
  sample_get_descendants S4 type_A (Some 1) 0 = Ok {[ type_B; type_C ]}.
Proof. repeat split; vm_compute; reflexivity. Qed.

Lemma add_name_conflict_witness :
  data_of (SchemaName "A" "test") [] !! "name" =
    Some (VName (SchemaName "A" "test")) ∧
  is_Some (_name_to_id S4 !! SchemaName "A" "test") ∧
  sample_add S4 9%positive (mkObject 9%positive Cls_ObjectType)
             (data_of (SchemaName "A" "test") []) =
    Err (SchemaError "is already present in the schema").
Proof.
  assert (H1 : data_of (SchemaName "A" "test") [] !! "name" =
               Some (VName (SchemaName "A" "test")))
    by (vm_compute; reflexivity).
  assert (H2 : is_Some (_name_to_id S4 !! SchemaName "A" "test"))
    by (exists 2%positive; vm_compute; reflexivity).
  split; [exact H1|]. split; [exact H2|].
  exact (add_name_conflict Cls_Function Cls_Operator Cls_Module
           sample_issubclass sample_object_fields sample_shortname
           S4 9%positive (mkObject 9%positive Cls_ObjectType)
           (data_of (SchemaName "A" "test") []) (SchemaName "A" "test") H1 H2).
Defined.

Lemma unset_field_missing_target_witness :
  _id_to_data S4 !! 9%positive = None ∧
  sample_unset_field S4 9%positive "bases" = Ok S4 ∧
  (∃ data, _id_to_data S4 !! 2%positive = Some data ∧
           "doc" ≠ "name" ∧ data !! "doc" = None) ∧
  sample_unset_field S4 2%positive "doc" = Ok S4.
Proof.
  assert (H1 : _id_to_data S4 !! 9%positive = None)
    by (vm_compute; reflexivity).
  assert (H2 : ∃ data, _id_to_data S4 !! 2%positive = Some data ∧
                       "doc" ≠ "name" ∧ data !! "doc" = None).
  { exists (data_of (SchemaName "A" "test") []).
    split; [vm_compute; reflexivity|].
    split; [discriminate | vm_compute; reflexivity]. }
  split; [exact H1|]. split.
  - exact (unset_field_missing_target Cls_Function Cls_Operator
             sample_issubclass sample_object_fields sample_shortname
             S4 9%positive "bases" (or_introl H1)).
  - split; [exact H2|].
    exact (unset_field_missing_target Cls_Function Cls_Operator
             sample_issubclass sample_object_fields sample_shortname
             S4 2%positive "doc" (or_intror H2)).
Defined.

(** The sample catalogs are consistent, [B] is the one referrer of [A]
    through [bases], and re-basing [C] from [B] to [B; A] leaves the index
    entry of [B] as it was. *)
Lemma referrers_track_references_witness :
  consistent sample_object_fields S7 ∧
  built Cls_Function Cls_Operator Cls_Module sample_issubclass
        sample_object_fields sample_shortname S4 ∧
  (∃ R, get_referrers S4 type_A (Some (obj_type type_B)) (Some "bases") = Ok R ∧
        (type_B ∈ R ↔
         stores_ref sample_object_fields S4 type_B "bases" (obj_id type_A))) ∧
  _refs_to S5 !! 3%positive = _refs_to S4 !! 3%positive.
Proof.
  destruct (referrers_track_references Cls_Function Cls_Operator Cls_Module
              sample_issubclass sample_object_fields sample_shortname)
    as (Hbuilt & Hget & Hempty & Hadd & Hdel & Hset & Hunset & Hdiff).
  assert (B4 : built Cls_Function Cls_Operator Cls_Module sample_issubclass
                     sample_object_fields sample_shortname S4).
  { apply (built_add _ _ _ _ _ _ S3 4%positive type_C
             (data_of (SchemaName "C" "test") [3%positive]));
      [|vm_compute; reflexivity ..].
    apply (built_add _ _ _ _ _ _ S2 3%positive type_B
             (data_of (SchemaName "B" "test") [2%positive]));
      [|vm_compute; reflexivity ..].
    apply (built_add _ _ _ _ _ _ S1 2%positive type_A
             (data_of (SchemaName "A" "test") []));
      [|vm_compute; reflexivity ..].
    apply (built_add _ _ _ _ _ _ empty_schema 1%positive mod_test
             {[ "name" := VName (Unqualified "test") ]});
      [|vm_compute; reflexivity ..].
    apply built_empty. }
  assert (C1 : consistent sample_object_fields S1).
  { apply (Hadd empty_schema 1%positive mod_test
             {[ "name" := VName (Unqualified "test") ]} S1 Hempty);
      vm_compute; reflexivity. }
  assert (C2 : consistent sample_object_fields S2).
  { apply (Hadd S1 2%positive type_A (data_of (SchemaName "A" "test") [])
             S2 C1); vm_compute; reflexivity. }
  assert (C3 : consistent sample_object_fields S3).
  { apply (Hadd S2 3%positive type_B
             (data_of (SchemaName "B" "test") [2%positive]) S3 C2);
      vm_compute; reflexivity. }
  assert (C4 : consistent sample_object_fields S4).
  { apply (Hadd S3 4%positive type_C
             (data_of (SchemaName "C" "test") [3%positive]) S4 C3);
      vm_compute; reflexivity. }
  assert (C5 : consistent sample_object_fields S5).
  { apply (Hset S4 4%positive "bases"
             (VObjectCollection [3%positive; 2%positive]) S5 C4).
    vm_compute; reflexivity. }
  assert (C6 : consistent sample_object_fields S6).
  { apply (Hunset S5 4%positive "bases" S6 C5). vm_compute; reflexivity. }
  assert (C7 : consistent sample_object_fields S7).
  { apply (Hdel S6 type_C S7 C6); vm_compute; reflexivity. }
  split; [exact C7|]. split; [exact B4|].
  split; [exact (Hbuilt S4 type_B type_A "bases" B4)|].
  apply (Hdiff S4 4%positive "bases"
           (VObjectCollection [3%positive; 2%positive]) S5
           (data_of (SchemaName "C" "test") [3%positive]) 3%positive).
  - vm_compute; reflexivity.
  - vm_compute; reflexivity.
  - apply (bool_decide_unpack _). vm_compute. exact I.
  - apply (bool_decide_unpack _). vm_compute. exact I.
Defined.


(** ** Sample runs of the further properties *)

Lemma sample_S4_built :
  built Cls_Function Cls_Operator Cls_Module sample_issubclass
        sample_object_fields sample_shortname S4.
Proof.
  apply (built_add _ _ _ _ _ _ S3 4%positive type_C
           (data_of (SchemaName "C" "test") [3%positive]));
    [|vm_compute; reflexivity ..].
  apply (built_add _ _ _ _ _ _ S2 3%positive type_B
           (data_of (SchemaName "B" "test") [2%positive]));
    [|vm_compute; reflexivity ..].
  apply (built_add _ _ _ _ _ _ S1 2%positive type_A
           (data_of (SchemaName "A" "test") []));
    [|vm_compute; reflexivity ..].
  apply (built_add _ _ _ _ _ _ empty_schema 1%positive mod_test
           {[ "name" := VName (Unqualified "test") ]});
    [|vm_compute; reflexivity ..].
  apply built_empty.
Defined.

Lemma sample_S4_consistent : consistent sample_object_fields S4.
Proof. exact (built_consistent _ _ _ _ _ _ S4 sample_S4_built). Defined.

(** The names of the sample catalog [S4] are unique. *)
Lemma catalog_names_unique_witness :
  built Cls_Function Cls_Operator Cls_Module sample_issubclass
        sample_object_fields sample_shortname S4 ∧
  (∀ n i, _name_to_id S4 !! n = Some i ↔ name_of S4 i = Some n) ∧
  (∀ i j n, name_of S4 i = Some n → name_of S4 j = Some n → i = j) ∧
  (∀ i, is_Some (_id_to_data S4 !! i) ↔ is_Some (_id_to_type S4 !! i)).
Proof.
  split; [exact sample_S4_built|].
  exact (catalog_names_unique Cls_Function Cls_Operator Cls_Module
           sample_issubclass sample_object_fields sample_shortname S4
           sample_S4_built).
Defined.

(** [get('test::A')] on [S4] returns [A]; a qualified name that is not
    stored is not found. *)
Lemma get_resolves_names_witness :
  built Cls_Function Cls_Operator Cls_Module sample_issubclass
        sample_object_fields sample_shortname S4 ∧
  get sample_issubclass S4 (SchemaName "A" "test") None None AnyType
    = Ok type_A ∧
  stored_as S4 (SchemaName "A" "test") type_A ∧
  get sample_issubclass S4 (SchemaName "A" "std") None None AnyType
    = Err ItemNotFoundError.
Proof.
  split; [exact sample_S4_built|].
  destruct (get_resolves_names Cls_Function Cls_Operator Cls_Module
              sample_issubclass sample_object_fields sample_shortname S4
              (SchemaName "A" "test") sample_S4_built) as [Hget _].
  assert (Hst : stored_as S4 (SchemaName "A" "test") type_A)
    by (exists 2%positive; split; vm_compute; reflexivity).
  split; [apply Hget; left; exact Hst|]. split; [exact Hst|].
  vm_compute. reflexivity.
Defined.

(** Adding [C] to [S3] gives [S4], where [C] is found by identity and by
    name. *)
Lemma add_then_lookup_witness :
  sample_add S3 4%positive type_C
             (data_of (SchemaName "C" "test") [3%positive]) = Ok S4 ∧
  ∃ name,
    data_of (SchemaName "C" "test") [3%positive] !! "name"
      = Some (VName name) ∧
    _name_to_id S3 !! name = None ∧
    _name_to_id S4 !! name = Some 4%positive ∧
    get_by_id S4 4%positive None = Ok type_C ∧
    get sample_issubclass S4 name None None AnyType = Ok type_C.
Proof.
  assert (H : sample_add S3 4%positive type_C
                (data_of (SchemaName "C" "test") [3%positive]) = Ok S4)
    by (vm_compute; reflexivity).
  split; [exact H|].
  destruct (add_then_lookup Cls_Function Cls_Operator Cls_Module
              sample_issubclass sample_object_fields sample_shortname
              S3 4%positive type_C
              (data_of (SchemaName "C" "test") [3%positive]) S4 H)
    as (name & H1 & H2 & H3 & H4 & _ & H6 & _).
  exists name. repeat split; assumption.
Defined.

(** [C] was added under module [test], which [S3] has. *)
Lemma add_needs_module_witness :
  sample_add S3 4%positive type_C
             (data_of (SchemaName "C" "test") [3%positive]) = Ok S4 ∧
  has_module S3 "test" = true ∧ _modules S4 = _modules S3 ∧
  sample_add S3 4%positive type_C
             (data_of (SchemaName "C" "void") [3%positive])
    = Err SchemaModuleNotFoundError.
Proof.
  assert (H : sample_add S3 4%positive type_C
                (data_of (SchemaName "C" "test") [3%positive]) = Ok S4)
    by (vm_compute; reflexivity).
  split; [exact H|].
  destruct (add_needs_module Cls_Function Cls_Operator Cls_Module
              sample_issubclass sample_object_fields sample_shortname
              S3 4%positive type_C
              (data_of (SchemaName "C" "test") [3%positive]) S4 H)
    as [[Hm _]|(_ & n & m & Hname & Hmod & Hsame)].
  - vm_compute in Hm. discriminate.
  - vm_compute in Hname. injection Hname as <- <-.
    split; [exact Hmod|]. split; [exact Hsame|]. vm_compute. reflexivity.
Defined.

(** Deleting [C] from [S6] gives [S7], from which [C] is gone. *)
Lemma delete_then_gone_witness :
  sample_delete S6 type_C = Ok S7 ∧
  get_by_id S7 4%positive None = Err ItemNotFoundError ∧
  sample_delete S7 type_C = Err ItemNotFoundError ∧
  discard Cls_Function Cls_Operator Cls_Module sample_issubclass
          sample_object_fields sample_shortname S7 type_C = Ok S7.
Proof.
  assert (H : sample_delete S6 type_C = Ok S7) by (vm_compute; reflexivity).
  split; [exact H|].
  destruct (delete_then_gone Cls_Function Cls_Operator Cls_Module
              sample_issubclass sample_object_fields sample_shortname
              S6 type_C S7 H) as (H1 & _ & H3 & H4 & _).
  repeat split; assumption.
Defined.

(** Re-basing [C] in [S4] gives [S5], where the new bases read back. *)
Lemma set_then_get_witness :
  sample_set_field S4 4%positive "bases"
                   (VObjectCollection [3%positive; 2%positive]) = Ok S5 ∧
  _get_obj_field S5 4%positive "bases"
    = Ok (Some (VObjectCollection [3%positive; 2%positive])) ∧
  _get_obj_field S5 4%positive "name" = _get_obj_field S4 4%positive "name".
Proof.
  assert (H : sample_set_field S4 4%positive "bases"
                (VObjectCollection [3%positive; 2%positive]) = Ok S5)
    by (vm_compute; reflexivity).
  split; [exact H|].
  destruct (set_then_get Cls_Function Cls_Operator
              sample_issubclass sample_object_fields sample_shortname
              S4 4%positive "bases"
              (VObjectCollection [3%positive; 2%positive]) S5 H)
    as (_ & H2 & H3 & _).
  split; [exact H2|]. apply H3. discriminate.
Defined.

(** Removing the bases of [C] in [S5] gives [S6], where they read back as
    absent. *)
Lemma unset_then_get_witness :
  sample_unset_field S5 4%positive "bases" = Ok S6 ∧
  is_Some (_id_to_data S5 !! 4%positive) ∧
  _get_obj_field S6 4%positive "bases" = Ok None ∧
  _get_obj_field S6 4%positive "name" = _get_obj_field S5 4%positive "name".
Proof.
  assert (H : sample_unset_field S5 4%positive "bases" = Ok S6)
    by (vm_compute; reflexivity).
  assert (Hd : is_Some (_id_to_data S5 !! 4%positive))
    by (eexists; vm_compute; reflexivity).
  split; [exact H|]. split; [exact Hd|].
  destruct (unset_then_get Cls_Function Cls_Operator
              sample_issubclass sample_object_fields sample_shortname
              S5 4%positive "bases" S6 H Hd) as (H1 & H2 & _).
  split; [exact H1|]. apply H2. discriminate.
Defined.

(** [C] renamed to [test::D] in [S4]; renaming it to [test::A] is refused. *)
Definition S4_renamed : Schema :=
  from_ok (sample_set_field S4 4%positive "name"
             (VName (SchemaName "D" "test"))).

Lemma rename_keeps_names_unique_witness :
  built Cls_Function Cls_Operator Cls_Module sample_issubclass
        sample_object_fields sample_shortname S4 ∧
  sample_set_field S4 4%positive "name" (VName (SchemaName "D" "test"))
    = Ok S4_renamed ∧
  _name_to_id S4_renamed !! SchemaName "D" "test" = Some 4%positive ∧
  _name_to_id S4_renamed !! SchemaName "C" "test" = None ∧
  sample_set_field S4 4%positive "name" (VName (SchemaName "A" "test"))
    = Err (SchemaError "name is already in the schema").
Proof.
  assert (H : sample_set_field S4 4%positive "name"
                (VName (SchemaName "D" "test")) = Ok S4_renamed)
    by (vm_compute; reflexivity).
  split; [exact sample_S4_built|]. split; [exact H|].
  destruct (rename_keeps_names_unique Cls_Function Cls_Operator Cls_Module
              sample_issubclass sample_object_fields sample_shortname
              S4 4%positive (SchemaName "D" "test") S4_renamed
              sample_S4_built H) as (H1 & _ & H3 & _).
  split; [exact H1|]. split.
  - apply H3; [vm_compute; reflexivity | discriminate].
  - vm_compute. reflexivity.
Defined.

(** In [S4], [A] is referred to by [B] only, whatever the mode. *)
Lemma get_referrers_modes_witness :
  consistent sample_object_fields S4 ∧
  (∃ R, get_referrers S4 type_A (Some Cls_ObjectType) None = Ok R ∧
        type_B ∈ R) ∧
  get_referrers S4 type_A None (Some "bases") = Err ValueError ∧
  get_referrers S4 type_C None (Some "bases") = Ok ∅.
Proof.
  split; [exact sample_S4_consistent|].
  destruct (get_referrers_modes sample_object_fields S4 type_A
              sample_S4_consistent) as (Hty & _ & _).
  destruct (Hty Cls_ObjectType) as (R & HR & HRin).
  split; [|split; vm_compute; reflexivity].
  exists R. split; [exact HR|].
  apply HRin. split; [reflexivity|]. exists "bases".
  split; [vm_compute; reflexivity|]. split.
  - apply (bool_decide_unpack _). vm_compute. exact I.
  - eexists _, _. split; [vm_compute; reflexivity|].
    split; [vm_compute; reflexivity|].
    apply (bool_decide_unpack _). vm_compute. exact I.
Defined.

(** [get_objects(type=ObjectType)] on [S4] enumerates [A], [B] and [C]. *)
Lemma get_objects_enumerates_witness :
  consistent sample_object_fields S4 ∧
  ∃ l, get_objects Cls_Module sample_issubclass S4 None (Some Cls_ObjectType)
         = Ok l ∧
       NoDup l ∧ type_A ∈ l ∧ type_B ∈ l ∧ type_C ∈ l ∧ mod_test ∉ l.
Proof.
  split; [exact sample_S4_consistent|].
  destruct (get_objects_enumerates Cls_Module sample_issubclass
              sample_object_fields S4 (Some Cls_ObjectType)
              sample_S4_consistent) as [(l & Hl & Hnd & Hin) _].
  exists l. split; [exact Hl|]. split; [exact Hnd|].
  split; [|split; [|split]].
  - apply Hin. split; vm_compute; reflexivity.
  - apply Hin. split; vm_compute; reflexivity.
  - apply Hin. split; vm_compute; reflexivity.
  - intros [_ Hm]%Hin. vm_compute in Hm. discriminate.
Defined.

(** A catalog with a cast from [A] to [B] that allows implicit use. *)
Definition cast_A_B : @Object sample_cls := mkObject 5%positive Cls_Cast.
Definition S4_cast : Schema :=
  from_ok (sample_add S4 5%positive cast_A_B
             {[ "name" := VName (SchemaName "cast_A_B" "test");
                "from_type" := VObject type_A;
                "to_type" := VObject type_B;
                "allow_implicit" := VOther "True" ]}).

(** Modelled from the spec: the getters of a cast read its fields
    [allow_implicit] and [allow_assignment], unset meaning false. *)
Definition sample_get_flag (flag : string) (S : @Schema sample_cls _ _)
    (cast : @Object sample_cls) : res bool :=
  v ← _get_obj_field S (obj_id cast) flag;
  Ok (bool_decide (v = Some (VOther "True"))).

Lemma sample_S4_cast_built :
  built Cls_Function Cls_Operator Cls_Module sample_issubclass
        sample_object_fields sample_shortname S4_cast.
Proof.
  apply (built_add _ _ _ _ _ _ S4 5%positive cast_A_B
           {[ "name" := VName (SchemaName "cast_A_B" "test");
              "from_type" := VObject type_A;
              "to_type" := VObject type_B;
              "allow_implicit" := VOther "True" ]});
    [exact sample_S4_built|vm_compute; reflexivity ..].
Defined.

(** The cast is among the implicit casts to [B], not among the assignment
    casts to [B], and among the casts from [A]. *)
Lemma casts_of_type_witness :
  consistent sample_object_fields S4_cast ∧
  get_casts_to_type Cls_Cast (sample_get_flag "allow_implicit")
    (sample_get_flag "allow_assignment") S4_cast type_B true false
    = Ok {[ cast_A_B ]} ∧
  stores_ref sample_object_fields S4_cast cast_A_B "to_type" (obj_id type_B) ∧
  get_casts_to_type Cls_Cast (sample_get_flag "allow_implicit")
    (sample_get_flag "allow_assignment") S4_cast type_B false true = Ok ∅ ∧
  get_casts_from_type Cls_Cast (sample_get_flag "allow_implicit")
    (sample_get_flag "allow_assignment") S4_cast type_A false false
    = Ok {[ cast_A_B ]}.
Proof.
  assert (HC : consistent sample_object_fields S4_cast)
    by exact (built_consistent _ _ _ _ _ _ S4_cast sample_S4_cast_built).
  assert (H1 : get_casts_to_type Cls_Cast (sample_get_flag "allow_implicit")
                 (sample_get_flag "allow_assignment") S4_cast type_B
                 true false = Ok {[ cast_A_B ]})
    by (vm_compute; reflexivity).
  split; [exact HC|]. split; [exact H1|].
  destruct (casts_of_type Cls_Module sample_issubclass sample_object_fields
              Cls_Cast (sample_get_flag "allow_implicit")
              (sample_get_flag "allow_assignment") S4_cast type_B HC)
    as (Hto & _).
  split; [|split; vm_compute; reflexivity].
  apply (Hto true false {[ cast_A_B ]} H1 cast_A_B).
  apply (bool_decide_unpack _). vm_compute. exact I.
Defined.

(** A batch update of [C] in [S4]: new bases, a new field, one removed. *)
Definition S4_updated : Schema :=
  from_ok (_update_obj Cls_Function Cls_Operator sample_issubclass
             sample_object_fields sample_shortname S4 4%positive
             [("bases", VObjectCollection [2%positive]);
              ("doc", VOther "C"); ("doc", VNone)]).

Lemma update_obj_consistent_witness :
  consistent sample_object_fields S4 ∧
  _update_obj Cls_Function Cls_Operator sample_issubclass
    sample_object_fields sample_shortname S4 4%positive
    [("bases", VObjectCollection [2%positive]);
     ("doc", VOther "C"); ("doc", VNone)] = Ok S4_updated ∧
  consistent sample_object_fields S4_updated ∧
  _id_to_data S4_updated !! 4%positive =
    Some (data_of (SchemaName "C" "test") [2%positive]) ∧
  get_referrers S4_updated type_A (Some Cls_ObjectType) (Some "bases")
    = Ok {[ type_B; type_C ]}.
Proof.
  assert (H : _update_obj Cls_Function Cls_Operator sample_issubclass
                sample_object_fields sample_shortname S4 4%positive
                [("bases", VObjectCollection [2%positive]);
                 ("doc", VOther "C"); ("doc", VNone)] = Ok S4_updated)
    by (vm_compute; reflexivity).
  split; [exact sample_S4_consistent|]. split; [exact H|].
  destruct (update_obj_consistent Cls_Function Cls_Operator Cls_Module
              sample_issubclass sample_object_fields sample_shortname
              S4 4%positive _ S4_updated sample_S4_consistent H)
    as (HC & _).
  split; [exact HC|]. split; vm_compute; reflexivity.
Defined.

(** A catalog with two functions [std::len] of different signatures; the
    short name of a function drops the signature after [@]. *)
Fixpoint strip_signature (s : string) : string :=
  match s with
  | EmptyString => EmptyString
  | String c r =>
      (* 64 is the code of [@] *)
      if bool_decide (c = Ascii.ascii_of_nat 64) then EmptyString
      else String c (strip_signature r)
  end.

Definition sample_shortname_at (n : Name) : Name :=
  match n with
  | SchemaName nm m => SchemaName (strip_signature nm) m
  | Unqualified s => Unqualified (strip_signature s)
  end.

Definition mod_std : @Object sample_cls := mkObject 1%positive Cls_Module.
Definition len_str : @Object sample_cls := mkObject 2%positive Cls_Function.
Definition len_bytes : @Object sample_cls := mkObject 3%positive Cls_Function.

Definition F1 : Schema :=
  from_ok (_add Cls_Function Cls_Operator Cls_Module sample_issubclass
             sample_object_fields sample_shortname_at empty_schema
             1%positive mod_std {[ "name" := VName (Unqualified "std") ]}).
Definition F2 : Schema :=
  from_ok (_add Cls_Function Cls_Operator Cls_Module sample_issubclass
             sample_object_fields sample_shortname_at F1
             2%positive len_str
             {[ "name" := VName (SchemaName "len@str" "std") ]}).
Definition F3 : Schema :=
  from_ok (_add Cls_Function Cls_Operator Cls_Module sample_issubclass
             sample_object_fields sample_shortname_at F2
             3%positive len_bytes
             {[ "name" := VName (SchemaName "len@bytes" "std") ]}).

Lemma sample_F3_built :
  built Cls_Function Cls_Operator Cls_Module sample_issubclass
        sample_object_fields sample_shortname_at F3.
Proof.
  apply (built_add _ _ _ _ _ _ F2 3%positive len_bytes
           {[ "name" := VName (SchemaName "len@bytes" "std") ]});
    [|vm_compute; reflexivity ..].
  apply (built_add _ _ _ _ _ _ F1 2%positive len_str
           {[ "name" := VName (SchemaName "len@str" "std") ]});
    [|vm_compute; reflexivity ..].
  apply (built_add _ _ _ _ _ _ empty_schema 1%positive mod_std
           {[ "name" := VName (Unqualified "std") ]});
    [|vm_compute; reflexivity ..].
  apply built_empty.
Defined.

(** The group [std::len] of [F3] holds the two functions; there is no group
    [std::max], and no operator [std::len]. *)
Lemma overload_groups_read_back_witness :
  built Cls_Function Cls_Operator Cls_Module sample_issubclass
        sample_object_fields sample_shortname_at F3 ∧
  sample_issubclass Cls_Function Cls_Function = true ∧
  sample_issubclass Cls_Operator Cls_Operator = true ∧
  (∃ l, _get_functions Cls_Function F3 (SchemaName "len" "std") = Ok (Some l) ∧
        NoDup l ∧ len_str ∈ l ∧ len_bytes ∈ l ∧ length l = 2%nat) ∧
  _get_functions Cls_Function F3 (SchemaName "max" "std") = Ok None ∧
  _get_operators Cls_Operator F3 (SchemaName "len" "std") = Ok None.
Proof.
  split; [exact sample_F3_built|]. split; [reflexivity|].
  split; [reflexivity|].
  destruct (overload_groups_read_back Cls_Function Cls_Operator Cls_Module
              sample_issubclass sample_object_fields sample_shortname_at
              F3 (SchemaName "len" "std") sample_F3_built eq_refl eq_refl)
    as [(r & Hr & Hsome & _) _].
  split; [|split; vm_compute; reflexivity].
  assert (Hc : _get_functions Cls_Function F3 (SchemaName "len" "std") =
               Ok (Some [len_bytes; len_str])) by (vm_compute; reflexivity).
  rewrite Hc in Hr. injection Hr as <-.
  destruct (Hsome _ eq_refl) as (_ & Hnd & Hin).
  exists [len_bytes; len_str]. split; [exact Hc|]. split; [exact Hnd|].
  split; [|split; [|reflexivity]].
  - apply Hin. exists 2%positive, (SchemaName "len@str" "std").
    repeat split; vm_compute; reflexivity.
  - apply Hin. exists 3%positive, (SchemaName "len@bytes" "std").
    repeat split; vm_compute; reflexivity.
Defined.

End schema.

(** * Function-call binding ([edb/lang/edgeql/compiler/func.py]) *)

Module func.

Inductive ParameterKind : Type := VARIADIC | NAMED_ONLY | POSITIONAL.
Inductive TypeModifier : Type := SET_OF | OPTIONAL | SINGLETON.
Inductive Language : Type := SQL | EdgeQL.

Global Instance ParameterKind_eq_dec : EqDecision ParameterKind.
Proof. solve_decision. Defined.
Global Instance TypeModifier_eq_dec : EqDecision TypeModifier.
Proof. solve_decision. Defined.
Global Instance Language_eq_dec : EqDecision Language.
Proof. solve_decision. Defined.

(** ** Python integers and byte strings *)

(** [n.to_bytes(length, 'little')] for a non-negative [n]. *)
Fixpoint le_bytes (length : nat) (n : Z) : list Z :=
  match length with
  | O => []
  | S length' => Z.land n 255 :: le_bytes length' (Z.shiftr n 8)
  end.

Definition to_bytes (n : Z) (length : nat) : res (list Z) :=
  if (n <? 0)%Z || (2 ^ (8 * Z.of_nat length) <=? n)%Z
  then Err OverflowError
  else Ok (le_bytes length n).

(** [bm.decode('ascii')]: one character per byte, bytes above 127 rejected. *)
Fixpoint decode_ascii (bm : list Z) : res string :=
  match bm with
  | [] => Ok EmptyString
  | b :: bm' =>
      if (b <? 128)%Z
      then s ← decode_ascii bm'; Ok (String (Ascii.ascii_of_N (Z.to_N b)) s)
      else Err UnicodeDecodeError
  end.

(** The code of the [k]-th character of a string (0 past the end). *)
Fixpoint char_code (s : string) (k : nat) : Z :=
  match s, k with
  | EmptyString, _ => 0
  | String c _, O => Z.of_N (Ascii.N_of_ascii c)
  | String _ s', S k' => char_code s' k'
  end.

(** Bit [i] of a string read as a little-endian bit mask. *)
Definition mask_bit (s : string) (i : nat) : bool :=
  Z.testbit (char_code s (i / 8)) (Z.of_nat (i mod 8)).

Section Binding.

(** The type model ([s_types.Type]), the catalog behind [ctx.schema] and the
    IR helpers are outside the source file: they are parameters. *)
Context {stype : Type} {stype_eq_dec : EqDecision stype}.
Context {schema_t : Type}.
Variable is_polymorphic : stype → bool.
(** [self.resolve_polymorphic(other)] *)
Variable resolve_polymorphic : stype → stype → option stype.
(** [self.issubclass(parent)] *)
Variable issubclass : stype → stype → bool.
Variable implicitly_castable_to : stype → stype → schema_t → bool.
(** [self.to_nonpolymorphic(concrete)] *)
Variable to_nonpolymorphic : stype → stype → stype.
Variable get_subtypes : stype → list stype.
(** [t.name] *)
Variable type_name : stype → string.
(** [schema.get(name)] for a type name *)
Variable schema_get : schema_t → string → res stype.

Record FuncParameter : Type := mkFuncParameter {
  param_name : string;
  param_kind : ParameterKind;
  param_type : stype;
  param_typemod : TypeModifier;
  param_default : option string
}.

Record Function : Type := mkFunction {
  func_name : string;
  func_params : list FuncParameter;
  func_return_type : stype;
  func_language : Language;
  func_initial_value : option string
}.

(** IR expressions, as far as the binder builds them. [IRNone] is Python's
    [None], the marker of an argument still to be filled from a default. *)
Inductive ir : Type :=
  | IRNone
  | IRExpr (n : nat)
  | BytesConstant (value : string) (type : stype)
  | EmptySet (scls : stype) (alias : string)
  | IRDefault (default : string)
  | EnsureSet (e : ir) (typehint : stype).

(** [param.get_ir_default(schema)] and [irutils.is_empty] *)
Variable get_ir_default : FuncParameter → schema_t → ir.
Variable is_empty : ir → bool.

(** [func.params.as_pg_params()] *)
Record PgParams : Type := mkPgParams {
  pg_params : list FuncParameter;
  has_param_wo_default : bool
}.
Variable as_pg_params : list FuncParameter → PgParams.
(** [params.is_polymorphic()] *)
Variable params_is_polymorphic : list FuncParameter → bool.

Record ContextLevel : Type := mkContext {
  ctx_func : option Function;
  ctx_schema : schema_t
}.

Record BoundCall : Type := mkBoundCall {
  bc_func : option Function;
  bc_args : option (list ir);
  bc_return_type : option stype;
  bc_used_implicit_casts : bool;
  bc_has_empty_variadic : bool
}.

Definition _NO_MATCH : BoundCall := mkBoundCall None None None false false.

(** The two [nonlocal] variables of [try_bind_func_args]. *)
Record BindState : Type := mkBindState {
  used_implicit_cast : bool;
  resolved_poly_base_type : option stype
}.

Definition in_polymorphic_func (ctx : ContextLevel) : bool :=
  match ctx_func ctx with
  | Some f => params_is_polymorphic (func_params f)
  | None => false
  end.

Definition _check_type (ctx : ContextLevel) (st : BindState)
    (arg_type param_type : stype) : bool * BindState :=
  if is_polymorphic arg_type && in_polymorphic_func ctx &&
     bool_decide (is_Some (resolve_polymorphic arg_type param_type))
  then (true, st)
  else if issubclass arg_type param_type then (true, st)
  else if implicitly_castable_to arg_type param_type (ctx_schema ctx)
  then (true, mkBindState true (resolved_poly_base_type st))
  else (false, st).

Definition _check_any (ctx : ContextLevel) (st : BindState)
    (arg_type param_type : stype) : bool * BindState :=
  if in_polymorphic_func ctx && is_polymorphic arg_type &&
     bool_decide (param_type = arg_type)
  then (true, st)
  else if negb (is_polymorphic param_type) then (true, st)
  else
    match resolve_polymorphic param_type arg_type with
    | None => (false, st)
    | Some resolved =>
        match resolved_poly_base_type st with
        | None => (true, mkBindState (used_implicit_cast st) (Some resolved))
        | Some base => (bool_decide (base = resolved), st)
        end
    end.

(** [if not _check_type(..): return _NO_MATCH] followed by
    [if not _check_any(..): return _NO_MATCH]; [None] is the no-match. *)
Definition check_arg (ctx : ContextLevel) (st : BindState)
    (arg_type param_type : stype) : option BindState :=
  let '(ok, st) := _check_type ctx st arg_type param_type in
  if negb ok then None
  else
    let '(ok, st) := _check_any ctx st arg_type param_type in
    if negb ok then None else Some st.

(** What the three binding steps carry along. *)
Record Binding : Type := mkBinding {
  b_state : BindState;
  b_bound : list (FuncParameter * ir);   (* bound_param_args *)
  b_populate_defaults : bool;
  b_has_empty_variadic : bool;
  b_rest : list FuncParameter            (* params[pi:] *)
}.

(** Step 1: bind NAMED ONLY arguments. The result [None] is [_NO_MATCH]. *)
Fixpoint bind_named_only (ctx : ContextLevel)
    (kwargs : gmap string (stype * ir)) (params : list FuncParameter)
    (st : BindState) (bound : list (FuncParameter * ir))
    (populate_defaults : bool) (matched_kwargs : nat)
  : option (Binding * nat) :=
  match params with
  | [] => Some (mkBinding st bound populate_defaults false [], matched_kwargs)
  | param :: params' =>
      if decide (param_kind param = NAMED_ONLY) then
        match kwargs !! param_name param with
        | Some (arg_type, arg_val) =>
            match check_arg ctx st arg_type (param_type param) with
            | None => None
            | Some st =>
                bind_named_only ctx kwargs params' st
                  (bound ++ [(param, arg_val)]) populate_defaults
                  (matched_kwargs + 1)
            end
        | None =>
            match param_default param with
            | None => None
            | Some _ =>
                bind_named_only ctx kwargs params' st
                  (bound ++ [(param, IRNone)]) true matched_kwargs
            end
        end
      else Some (mkBinding st bound populate_defaults false params,
                 matched_kwargs)
  end.

(** The inner loop of step 2: the remaining arguments of a VARIADIC
    parameter. *)
Fixpoint bind_variadic_rest (ctx : ContextLevel) (param : FuncParameter)
    (var_type : stype) (args : list (stype * ir)) (st : BindState)
    (bound : list (FuncParameter * ir))
  : option (BindState * list (FuncParameter * ir)) :=
  match args with
  | [] => Some (st, bound)
  | (arg_type, arg_val) :: args' =>
      match check_arg ctx st arg_type var_type with
      | None => None
      | Some st =>
          bind_variadic_rest ctx param var_type args' st
                             (bound ++ [(param, arg_val)])
      end
  end.

(** Step 2: bind POSITIONAL arguments. *)
Fixpoint bind_positional (ctx : ContextLevel) (args : list (stype * ir))
    (b : Binding) : res (option Binding) :=
  match args with
  | [] => Ok (Some b)
  | (arg_type, arg_val) :: args' =>
      match b_rest b with
      | [] => Ok None
      | param :: params' =>
          match param_kind param with
          | NAMED_ONLY => Err (RuntimeError "unprocessed NAMED ONLY parameter")
          | VARIADIC =>
              match get_subtypes (param_type param) with
              | [] => Err IndexError
              | var_type :: _ =>
                  match check_arg ctx (b_state b) arg_type var_type with
                  | None => Ok None
                  | Some st =>
                      match bind_variadic_rest ctx param var_type args' st
                              (b_bound b ++ [(param, arg_val)]) with
                      | None => Ok None
                      | Some (st, bound) =>
                          Ok (Some (mkBinding st bound (b_populate_defaults b)
                                      (b_has_empty_variadic b) params'))
                      end
                  end
              end
          | POSITIONAL =>
              match check_arg ctx (b_state b) arg_type (param_type param) with
              | None => Ok None
              | Some st =>
                  bind_positional ctx args'
                    (mkBinding st (b_bound b ++ [(param, arg_val)])
                       (b_populate_defaults b) (b_has_empty_variadic b)
                       params')
              end
          end
      end
  end.

(** Step 3: the parameters no argument was left for. *)
Fixpoint bind_trailing (params : list FuncParameter)
    (bound : list (FuncParameter * ir)) (populate_defaults : bool)
    (has_empty_variadic : bool)
  : res (option (list (FuncParameter * ir) * bool * bool)) :=
  match params with
  | [] => Ok (Some (bound, populate_defaults, has_empty_variadic))
  | param :: params' =>
      match param_kind param with
      | POSITIONAL =>
          match param_default param with
          | None => Ok None
          | Some _ =>
              bind_trailing params' (bound ++ [(param, IRNone)]) true
                            has_empty_variadic
          end
      | VARIADIC => bind_trailing params' bound populate_defaults true
      | NAMED_ONLY => Err (RuntimeError "unprocessed NAMED ONLY parameter")
      end
  end.

(** The loop that fills in defaults:
    [for i in range(len(bound_param_args))]. *)
Fixpoint populate_defaults_loop (ctx : ContextLevel) (edgeql_func : bool)
    (resolved : option stype) (bound : list (FuncParameter * ir)) (i : nat)
    (defaults_mask : Z) (null_args : gset string)
  : res (list (FuncParameter * ir) * Z * gset string) :=
  match bound with
  | [] => Ok ([], defaults_mask, null_args)
  | (param, val) :: bound' =>
      match val with
      | IRNone =>
          let null_args := null_args ∪ {[ param_name param ]} in
          let defaults_mask :=
            Z.lor defaults_mask (Z.shiftl 1 (Z.of_nat i)) in
          let empty_default :=
            edgeql_func || is_empty (get_ir_default param (ctx_schema ctx)) in
          default_type ←
            (if empty_default then
               if decide (type_name (param_type param) = "std::any") then
                 match resolved with
                 | None => Err (EdgeQLError "could not resolve std::any type")
                 | Some t => Ok t
                 end
               else Ok (param_type param)
             else Ok (param_type param));
          let default :=
            if edgeql_func
            then EmptySet default_type (param_name param)
            else get_ir_default param (ctx_schema ctx) in
          let default := EnsureSet default default_type in
          '(rest, defaults_mask, null_args) ←
             populate_defaults_loop ctx edgeql_func resolved bound' (S i)
                                    defaults_mask null_args;
          Ok ((param, default) :: rest, defaults_mask, null_args)
      | _ =>
          '(rest, defaults_mask, null_args) ←
             populate_defaults_loop ctx edgeql_func resolved bound' (S i)
                                    defaults_mask null_args;
          Ok ((param, val) :: rest, defaults_mask, null_args)
      end
  end.

(** The text of the bitmask constant: [bm.decode('ascii')] for
    [bm = defaults_mask.to_bytes(nparams // 8 + 1, 'little')]. *)
Definition defaults_mask_text (defaults_mask : Z) (nparams : nat) : res string :=
  bm ← to_bytes defaults_mask (nparams / 8 + 1);
  decode_ascii bm.

(** [bound_args]: the bitmask constant for a query-language function, then
    the bound arguments in binding order. (The scope bookkeeping done on
    each argument in the same loop does not change the list.) *)
Definition build_bound_args (ctx : ContextLevel) (edgeql_func : bool)
    (nparams : nat) (defaults_mask : Z) (bound : list (FuncParameter * ir))
  : res (list ir) :=
  prefix ←
    (if edgeql_func then
       bytes_t ← schema_get (ctx_schema ctx) "std::bytes";
       value ← defaults_mask_text defaults_mask nparams;
       Ok [EnsureSet (BytesConstant value bytes_t) bytes_t]
     else Ok []);
  Ok (prefix ++ bound.*2).

Definition no_args_call (args : list (stype * ir))
    (kwargs : gmap string (stype * ir)) : bool :=
  bool_decide (length args = 0) && bool_decide (size kwargs = 0).

(** Steps 1 and 2 of [try_bind_func_args] for a function with parameters;
    [None] is [_NO_MATCH]. *)
Definition bind_arguments (ctx : ContextLevel) (args : list (stype * ir))
    (kwargs : gmap string (stype * ir)) (params : list FuncParameter)
  : res (option Binding) :=
  match bind_named_only ctx kwargs params (mkBindState false None) [] false 0 with
  | None => Ok None
  | Some (b, matched_kwargs) =>
      if decide (matched_kwargs ≠ size kwargs) then Ok None
      else bind_positional ctx args b
  end.

(** Steps 1 to 3. *)
Definition bind_steps (ctx : ContextLevel) (args : list (stype * ir))
    (kwargs : gmap string (stype * ir)) (params : list FuncParameter)
  : res (option (BindState * list (FuncParameter * ir) * bool * bool)) :=
  b ← bind_arguments ctx args kwargs params;
  match b with
  | None => Ok None
  | Some b =>
      t ← bind_trailing (b_rest b) (b_bound b) (b_populate_defaults b)
                        (b_has_empty_variadic b);
      match t with
      | None => Ok None
      | Some (bound, populate_defaults, has_empty_variadic) =>
          Ok (Some (b_state b, bound, populate_defaults, has_empty_variadic))
      end
  end.

Definition try_bind_func_args (args : list (stype * ir))
    (kwargs : gmap string (stype * ir)) (funcname : string) (f : Function)
    (fatal_array_check : bool) (ctx : ContextLevel) : res BoundCall :=
  let edgeql_func := bool_decide (func_language f = EdgeQL) in
  match func_params f with
  | [] =>
      if no_args_call args kwargs then
        if edgeql_func then
          bytes_t ← schema_get (ctx_schema ctx) "std::bytes";
          Ok (mkBoundCall (Some f)
                (Some [EnsureSet (BytesConstant "\x00" bytes_t) bytes_t])
                (Some (func_return_type f)) false false)
        else
          Ok (mkBoundCall (Some f) (Some []) (Some (func_return_type f))
                          false false)
      else Ok _NO_MATCH
  | _ =>
      let pg := as_pg_params (func_params f) in
      if no_args_call args kwargs && has_param_wo_default pg then Ok _NO_MATCH
      else
        let params := pg_params pg in
        let nparams := length params in
        match bind_steps ctx args kwargs params with
        | Err e => Err e
        | Ok None => Ok _NO_MATCH
        | Ok (Some (st, bound, populate_defaults, has_empty_variadic)) =>
            '(bound, defaults_mask, null_args) ←
               (if populate_defaults
                then populate_defaults_loop ctx edgeql_func
                       (resolved_poly_base_type st) bound 0 0%Z ∅
                else Ok (bound, 0%Z, (∅ : gset string)));
            bound_args ← build_bound_args ctx edgeql_func nparams
                                          defaults_mask bound;
            let return_type := func_return_type f in
            if is_polymorphic return_type then
              match resolved_poly_base_type st with
              | None => Ok _NO_MATCH
              | Some t =>
                  Ok (mkBoundCall (Some f) (Some bound_args)
                        (Some (to_nonpolymorphic return_type t))
                        (used_implicit_cast st) has_empty_variadic)
              end
            else
              Ok (mkBoundCall (Some f) (Some bound_args) (Some return_type)
                              (used_implicit_cast st) has_empty_variadic)
        end
  end.

(** ** Candidate selection in [compile_FunctionCall] *)

(** The body of [for func in funcs], after the binding attempt. *)
Definition select_step (no_args : bool) (matched_call call : BoundCall)
  : res BoundCall :=
  match bc_args call with
  | None => Ok matched_call
  | Some _ =>
      match bc_args matched_call with
      | None => Ok call
      | Some _ =>
          let matched_call :=
            if bc_used_implicit_casts matched_call &&
               negb (bc_used_implicit_casts call)
            then call else matched_call in
          if no_args then Err (EdgeQLError "function is not unique")
          else Ok matched_call
      end
  end.

Definition select_call (ctx : ContextLevel) (funcname : string)
    (funcs : list Function) (args : list (stype * ir))
    (kwargs : gmap string (stype * ir)) : res BoundCall :=
  let fatal_array_check := bool_decide (length funcs = 1) in
  foldM (λ matched_call f,
           call ← try_bind_func_args args kwargs funcname f
                                     fatal_array_check ctx;
           select_step (no_args_call args kwargs) matched_call call)
        _NO_MATCH funcs.

(** ** Properties of binding and selection *)

(** A [BoundCall] is a match when its [args] is not [None]: the test the
    selection loop applies. *)
Definition is_match (call : BoundCall) : bool :=
  match bc_args call with
  | Some _ => true
  | None => false
  end.

Lemma no_args_call_true args kwargs :
  no_args_call args kwargs = true ↔ args = [] ∧ kwargs = ∅.
Proof.
  unfold no_args_call. rewrite andb_true_iff, !bool_decide_eq_true.
  rewrite length_zero_iff_nil, map_size_empty_iff. done.
Qed.

(** C3: for a function without parameters the binding attempt returns, and
    it is a match exactly when the call has no positional and no named
    argument; the match then carries one constant of the bytes type with the
    text [\x00] (the escape of a single zero byte) for a query-language
    function, and no argument at all for a native one. *)
Theorem zero_params_binding (ctx : ContextLevel) (args : list (stype * ir))
    (kwargs : gmap string (stype * ir)) (funcname : string) (f : Function)
    (fatal_array_check : bool) (bytes_t : stype) :
  func_params f = [] →
  (func_language f = EdgeQL →
   schema_get (ctx_schema ctx) "std::bytes" = Ok bytes_t) →
  ∃ call,
    try_bind_func_args args kwargs funcname f fatal_array_check ctx = Ok call ∧
    (is_match call = true ↔ args = [] ∧ kwargs = ∅) ∧
    (args = [] → kwargs = ∅ →
     bc_func call = Some f ∧
     bc_args call =
       Some (if decide (func_language f = EdgeQL)
             then [EnsureSet (BytesConstant "\x00" bytes_t) bytes_t]
             else [])).
Proof.
  intros Hparams Hbytes. unfold try_bind_func_args. rewrite Hparams.
  destruct (no_args_call args kwargs) eqn:Hno.
  - apply no_args_call_true in Hno as Hempty.
    destruct (decide (func_language f = EdgeQL)) as [Hl|Hl].
    + rewrite bool_decide_eq_true_2 by done. rewrite (Hbytes Hl), bind_Ok.
      eexists. split; [done|]. unfold is_match. cbn [bc_args bc_func].
      split; [tauto|]. done.
    + rewrite bool_decide_eq_false_2 by done.
      eexists. split; [done|]. unfold is_match. cbn [bc_args bc_func].
      split; [tauto|]. done.
  - exists _NO_MATCH. split; [done|].
    assert (Hn : ¬ (args = [] ∧ kwargs = ∅)).
    { intros He%no_args_call_true. congruence. }
    split; [split; [done | tauto] | tauto].
Qed.

(** *** Selection *)

(** The first call of a list satisfying [P]. *)
Fixpoint first_such (P : BoundCall → bool) (calls : list BoundCall)
  : option BoundCall :=
  match calls with
  | [] => None
  | c :: cs => if P c then Some c else first_such P cs
  end.

Definition uncast_match (c : BoundCall) : bool :=
  is_match c && negb (bc_used_implicit_casts c).

(** The candidate the selection policy promises, in the words of the spec:
    a match bound without implicit casts is preferred over one that needed
    them, and among equals the earlier match is kept. *)
Definition preferred (calls : list BoundCall) : BoundCall :=
  match first_such uncast_match calls with
  | Some c => c
  | None => default _NO_MATCH (first_such is_match calls)
  end.


Lemma select_step_no_match no_args matched call :
  is_match call = false → select_step no_args matched call = Ok matched.
Proof. unfold select_step, is_match. by destruct (bc_args call). Qed.

Lemma select_step_first no_args matched call :
  is_match matched = false → is_match call = true →
  select_step no_args matched call = Ok call.
Proof.
  unfold select_step, is_match.
  destruct (bc_args call); [|done]. by destruct (bc_args matched).
Qed.

Lemma select_step_next matched call :
  is_match matched = true → is_match call = true →
  select_step false matched call =
  Ok (if bc_used_implicit_casts matched && negb (bc_used_implicit_casts call)
      then call else matched).
Proof.
  unfold select_step, is_match.
  destruct (bc_args call); [|done]. by destruct (bc_args matched).
Qed.


Lemma select_fold_from_match matched calls :
  is_match matched = true →
  foldM (select_step false) matched calls =
  Ok (if bc_used_implicit_casts matched
      then default matched (first_such uncast_match calls)
      else matched).
Proof.
  revert matched. induction calls as [|c cs IH]; intros matched Hm; simpl.
  - by destruct (bc_used_implicit_casts matched).
  - unfold uncast_match at 1. destruct (is_match c) eqn:Hc.
    + rewrite (select_step_next _ _ Hm Hc), bind_Ok.
      destruct (bc_used_implicit_casts matched) eqn:Hu,
               (bc_used_implicit_casts c) eqn:Huc; simpl.
      * by rewrite (IH _ Hm), Hu.
      * by rewrite (IH _ Hc), Huc.
      * by rewrite (IH _ Hm), Hu.
      * by rewrite (IH _ Hm), Hu.
    + rewrite (select_step_no_match _ _ _ Hc), bind_Ok. simpl. by apply IH.
Qed.

Lemma select_fold_preferred calls :
  foldM (select_step false) _NO_MATCH calls = Ok (preferred calls).
Proof.
  unfold preferred. induction calls as [|c cs IH]; simpl; [done|].
  unfold uncast_match at 1. destruct (is_match c) eqn:Hc.
  - rewrite (select_step_first _ _NO_MATCH _ eq_refl Hc), bind_Ok.
    rewrite (select_fold_from_match _ _ Hc).
    destruct (bc_used_implicit_casts c); simpl; [|done].
    by destruct (first_such uncast_match cs).
  - by rewrite (select_step_no_match _ _ _ Hc), bind_Ok.
Qed.



(** When every attempt over [funcs] returns, the selection loop is the fold
    of [select_step] over the attempts' results. *)
Lemma select_loop_attempts ctx funcname fac args kwargs funcs calls acc :
  mapM (λ f, try_bind_func_args args kwargs funcname f fac ctx) funcs
    = Ok calls →
  foldM (λ matched_call f,
           call ← try_bind_func_args args kwargs funcname f fac ctx;
           select_step (no_args_call args kwargs) matched_call call)
        acc funcs =
  foldM (select_step (no_args_call args kwargs)) acc calls.
Proof.
  revert calls acc. induction funcs as [|f funcs IH]; intros calls acc Hm;
    simpl in Hm.
  - by injection Hm as <-.
  - inv_bind Hm. inv_bind Hm. injection Hm as <-. simpl.
    rewrite Hbind, bind_Ok.
    destruct (select_step _ acc a) as [acc'|]; simpl; [by apply IH | done].
Qed.

Lemma try_bind_match_func ctx args kwargs funcname f fac call :
  try_bind_func_args args kwargs funcname f fac ctx = Ok call →
  is_match call = true →
  bc_func call = Some f.
Proof.
  unfold try_bind_func_args. intros Hb Hm.
  repeat match type of Hb with
         | Ok _ = Ok _ => injection Hb as <-
         | Err _ = Ok _ => discriminate
         | (_ ≫= _) = Ok _ => inv_bind Hb
         | (let '(_, _) := ?x in _) = Ok _ => destruct x
         | context [match ?x with _ => _ end] => destruct x eqn:?
         end; done.
Qed.


(** C4: for a call with arguments, once a best match exists a newly matched
    candidate replaces it exactly when the best match used implicit casts and
    the new one did not; over the whole overload group the loop therefore
    returns the first match bound without implicit casts if there is one,
    and the earliest match otherwise. *)
Theorem selection_prefers_no_implicit_cast (ctx : ContextLevel)
    (funcname : string) (funcs : list Function) (args : list (stype * ir))
    (kwargs : gmap string (stype * ir)) (calls : list BoundCall) :
  no_args_call args kwargs = false →
  mapM (λ f, try_bind_func_args args kwargs funcname f
               (bool_decide (length funcs = 1)) ctx) funcs = Ok calls →
  (∀ matched call,
     is_match matched = true → is_match call = true →
     select_step (no_args_call args kwargs) matched call =
     Ok (if bc_used_implicit_casts matched &&
            negb (bc_used_implicit_casts call)
         then call else matched)) ∧
  select_call ctx funcname funcs args kwargs = Ok (preferred calls).
Proof.
  intros Hargs Hcalls. split.
  - intros matched call Hm Hc. rewrite Hargs. by apply select_step_next.
  - unfold select_call. rewrite (select_loop_attempts _ _ _ _ _ _ _ _ Hcalls).
    rewrite Hargs. apply select_fold_preferred.
Qed.

(** *** The trailing-defaults phase *)

Definition is_positional (p : FuncParameter) : bool :=
  bool_decide (param_kind p = POSITIONAL).
Definition is_variadic (p : FuncParameter) : bool :=
  bool_decide (param_kind p = VARIADIC).

(** The entries step 3 appends: every POSITIONAL parameter left over, marked
    for default population. *)
Definition trailing_defaults (params : list FuncParameter)
  : list (FuncParameter * ir) :=
  omap (λ p, if is_positional p then Some (p, IRNone) else None) params.

Lemma bind_trailing_Some params bound pd hev bound' pd' hev' :
  bind_trailing params bound pd hev = Ok (Some (bound', pd', hev')) →
  bound' = bound ++ trailing_defaults params ∧
  pd' = pd || existsb is_positional params ∧
  hev' = hev || existsb is_variadic params ∧
  ∀ p, p ∈ params → param_kind p = POSITIONAL → is_Some (param_default p).
Proof.
  revert bound pd hev. induction params as [|p params IH];
    intros bound pd hev Hb; simpl in Hb.
  - injection Hb as <- <- <-. simpl.
    rewrite app_nil_r, !orb_false_r. repeat split.
    intros p ?%elem_of_nil. done.
  - destruct (param_kind p) eqn:Hk; [| done |].
    + apply IH in Hb as (-> & -> & -> & Hd).
      assert (Hp : is_positional p = false)
        by (unfold is_positional; rewrite Hk; done).
      assert (Hv : is_variadic p = true)
        by (unfold is_variadic; rewrite Hk; done).
      unfold trailing_defaults. cbn [omap list_omap existsb].
      rewrite Hp, Hv. cbn [orb]. rewrite orb_true_r. split_and!; try done.
      intros q [->|Hq]%elem_of_cons Hq'; [congruence | by apply Hd].
    + destruct (param_default p) as [d|] eqn:Hdef; [|done].
      apply IH in Hb as (-> & -> & -> & Hd).
      assert (Hp : is_positional p = true)
        by (unfold is_positional; rewrite Hk; done).
      assert (Hv : is_variadic p = false)
        by (unfold is_variadic; rewrite Hk; done).
      unfold trailing_defaults. cbn [omap list_omap existsb].
      rewrite Hp, Hv. cbn [orb]. rewrite orb_true_r, <-app_assoc.
      split_and!; try done.
      intros q [->|Hq]%elem_of_cons Hq'; [by rewrite Hdef | by apply Hd].
Qed.

Lemma bind_trailing_None params bound pd hev :
  bind_trailing params bound pd hev = Ok None →
  ∃ p, p ∈ params ∧ param_kind p = POSITIONAL ∧ param_default p = None.
Proof.
  revert bound pd hev. induction params as [|p params IH];
    intros bound pd hev Hb; simpl in Hb; [done|].
  destruct (param_kind p) eqn:Hk; [| done |].
  - apply IH in Hb as (q & ? & ?). exists q. split; [by right|done].
  - destruct (param_default p) as [d|] eqn:Hdef.
    + apply IH in Hb as (q & ? & ?). exists q. split; [by right|done].
    + exists p. split; [left|done].
Qed.

Lemma bind_trailing_total params bound pd hev :
  Forall (λ p, param_kind p ≠ NAMED_ONLY) params →
  ∃ r, bind_trailing params bound pd hev = Ok r.
Proof.
  intros Hn. revert bound pd hev. induction Hn as [|p params Hp Hn IH];
    intros bound pd hev; simpl; [eauto|].
  destruct (param_kind p); [apply IH | done |].
  destruct (param_default p); [apply IH | eauto].
Qed.

Lemma bind_named_only_flag ctx kwargs params st bound pd n b n' :
  bind_named_only ctx kwargs params st bound pd n = Some (b, n') →
  b_has_empty_variadic b = false.
Proof.
  revert st bound pd n. induction params as [|p params IH];
    intros st bound pd n Hb; simpl in Hb.
  - by injection Hb as <- <-.
  - case_decide; [|by injection Hb as <- <-].
    destruct (kwargs !! param_name p) as [[arg_type arg_val]|].
    + destruct (check_arg ctx st arg_type (param_type p)); [|done].
      by apply IH in Hb.
    + destruct (param_default p); [|done]. by apply IH in Hb.
Qed.

Lemma bind_positional_flag ctx args b b' :
  bind_positional ctx args b = Ok (Some b') →
  b_has_empty_variadic b' = b_has_empty_variadic b.
Proof.
  revert b. induction args as [|[arg_type arg_val] args IH]; intros b Hb;
    simpl in Hb.
  - by injection Hb as <-.
  - destruct (b_rest b) as [|p params]; [done|].
    destruct (param_kind p); [| done |].
    + destruct (get_subtypes (param_type p)) as [|var_type ?]; [done|].
      destruct (check_arg ctx (b_state b) arg_type var_type); [|done].
      destruct (bind_variadic_rest _ _ _ _ _ _) as [[st bound]|]; [|done].
      by injection Hb as <-.
    + destruct (check_arg ctx (b_state b) arg_type (param_type p)); [|done].
      by apply IH in Hb.
Qed.

Lemma bind_arguments_flag ctx args kwargs params b :
  bind_arguments ctx args kwargs params = Ok (Some b) →
  b_has_empty_variadic b = false.
Proof.
  unfold bind_arguments.
  destruct (bind_named_only _ _ _ _ _ _ _) as [[b0 n]|] eqn:Hn; [|done].
  case_decide; [done|]. intros Hp.
  rewrite (bind_positional_flag _ _ _ _ Hp).
  by eapply bind_named_only_flag.
Qed.

(** What a successful attempt on a function with parameters went through. *)
Lemma try_bind_match_steps ctx args kwargs funcname f fac call :
  func_params f ≠ [] →
  try_bind_func_args args kwargs funcname f fac ctx = Ok call →
  is_match call = true →
  ∃ st bound pd hev,
    bind_steps ctx args kwargs (pg_params (as_pg_params (func_params f))) =
      Ok (Some (st, bound, pd, hev)) ∧
    bc_has_empty_variadic call = hev ∧
    bc_used_implicit_casts call = used_implicit_cast st ∧
    ∃ bound' defaults_mask null_args bound_args,
      (if pd
       then populate_defaults_loop ctx (bool_decide (func_language f = EdgeQL))
              (resolved_poly_base_type st) bound 0 0%Z ∅
       else Ok (bound, 0%Z, ∅)) = Ok (bound', defaults_mask, null_args) ∧
      build_bound_args ctx (bool_decide (func_language f = EdgeQL))
        (length (pg_params (as_pg_params (func_params f))))
        defaults_mask bound' = Ok bound_args ∧
      bc_args call = Some bound_args.
Proof.
  intros Hparams Hb Hm. unfold try_bind_func_args in Hb.
  destruct (func_params f) as [|p0 ps] eqn:Hps; [done|].
  destruct (no_args_call args kwargs && _); [by injection Hb as <-|].
  destruct (bind_steps _ _ _ _) as [[[[[st bound] pd] hev]|]|];
    [| by injection Hb as <- | done].
  inv_bind Hb. destruct a as [[bound' defaults_mask] null_args].
  inv_bind Hb. rename a into bound_args.
  exists st, bound, pd, hev. split; [done|].
  assert (bc_has_empty_variadic call = hev ∧
          bc_used_implicit_casts call = used_implicit_cast st ∧
          bc_args call = Some bound_args) as (? & ? & ?).
  { destruct (is_polymorphic (func_return_type f)).
    - destruct (resolved_poly_base_type st); by injection Hb as <-.
    - by injection Hb as <-. }
  do 2 (split; [done|]). eauto 10.
Qed.

(** C7: in the trailing-defaults phase (which never sees a NAMED ONLY
    parameter) a POSITIONAL parameter left without argument gives a no-match
    unless it has a default, in which case it is appended as an entry marked
    for default population; a VARIADIC parameter left without argument is
    never a reason for a no-match, and it sets the empty-variadic flag, which
    is the flag of the resulting [BoundCall]. *)
Theorem trailing_defaults_phase :
  (∀ params bound pd hev,
     Forall (λ p, param_kind p ≠ NAMED_ONLY) params →
     (bind_trailing params bound pd hev = Ok None ↔
      ∃ p, p ∈ params ∧ param_kind p = POSITIONAL ∧ param_default p = None) ∧
     ((∀ p, p ∈ params → param_kind p = POSITIONAL →
            is_Some (param_default p)) →
      bind_trailing params bound pd hev =
      Ok (Some (bound ++ trailing_defaults params,
                pd || existsb is_positional params,
                hev || existsb is_variadic params)))) ∧
  (∀ ctx args kwargs funcname f fatal_array_check call,
     func_params f ≠ [] →
     try_bind_func_args args kwargs funcname f fatal_array_check ctx
       = Ok call →
     is_match call = true →
     ∃ b, bind_arguments ctx args kwargs
            (pg_params (as_pg_params (func_params f))) = Ok (Some b) ∧
          bc_has_empty_variadic call = existsb is_variadic (b_rest b)).
Proof.
  split.
  - intros params bound pd hev Hn.
    destruct (bind_trailing_total params bound pd hev Hn) as [r Hr].
    split; [split|].
    + apply bind_trailing_None.
    + intros (p & Hp & Hk & Hd). destruct r as [[[bound' pd'] hev']|]; [|done].
      apply bind_trailing_Some in Hr as (_ & _ & _ & Hall).
      destruct (Hall p Hp Hk) as [d Hd']. congruence.
    + intros Hall. destruct r as [[[bound' pd'] hev']|].
      * by apply bind_trailing_Some in Hr as Hs; destruct Hs as (-> & -> & -> & _).
      * apply bind_trailing_None in Hr as (p & Hp & Hk & Hd).
        destruct (Hall p Hp Hk) as [d Hd']. congruence.
  - intros ctx args kwargs funcname f fac call Hparams Hb Hm.
    destruct (try_bind_match_steps _ _ _ _ _ _ _ Hparams Hb Hm)
      as (st & bound & pd & hev & Hsteps & Hhev & _).
    unfold bind_steps in Hsteps. inv_bind Hsteps.
    destruct a as [b|]; [|done]. inv_bind Hsteps.
    destruct a as [[[bound' pd'] hev']|]; [|done].
    injection Hsteps as <- <- <- <-.
    exists b. split; [done|].
    apply bind_trailing_Some in Hbind0 as (_ & _ & -> & _).
    by rewrite Hhev, (bind_arguments_flag _ _ _ _ _ Hbind).
Qed.

(** *** Polymorphic placeholders *)






(** The type checks one attempt makes on the supplied arguments, as pairs
    (argument type, parameter type), for parameters laid out as the NAMED
    ONLY ones [named] followed by [rest]: every supplied named argument
    against its parameter, then the positional arguments against the
    parameters of [rest] in order, all arguments from a VARIADIC parameter on
    against its element type. *)
Definition named_checks (kwargs : gmap string (stype * ir))
    (named : list FuncParameter) : list (stype * stype) :=
  omap (λ p, match kwargs !! param_name p with
             | Some (arg_type, _) => Some (arg_type, param_type p)
             | None => None
             end) named.

Fixpoint positional_checks (args : list (stype * ir))
    (rest : list FuncParameter) : list (stype * stype) :=
  match args, rest with
  | (arg_type, _) :: args', param :: rest' =>
      match param_kind param with
      | VARIADIC =>
          match get_subtypes (param_type param) with
          | var_type :: _ => (λ a, (a.1, var_type)) <$> args
          | [] => []
          end
      | _ => (arg_type, param_type param) :: positional_checks args' rest'
      end
  | _, _ => []
  end.

Definition supplied_checks (args : list (stype * ir))
    (kwargs : gmap string (stype * ir)) (named rest : list FuncParameter)
  : list (stype * stype) :=
  named_checks kwargs named ++ positional_checks args rest.










Lemma named_checks_no_kwargs named : named_checks ∅ named = [].
Proof.
  unfold named_checks. induction named as [|p named IH]; simpl; [done|].
  by rewrite lookup_empty.
Qed.


(** *** Bits of the encoded mask *)

Lemma le_bytes_length length n : List.length (le_bytes length n) = length.
Proof. revert n. induction length; intros n; simpl; [done | by rewrite IHlength]. Qed.

Lemma le_bytes_lookup length n k :
  (k < length)%nat →
  le_bytes length n !! k = Some (Z.land (Z.shiftr n (8 * Z.of_nat k)) 255).
Proof.
  revert n k. induction length as [|length IH]; intros n k Hk; [lia|].
  destruct k as [|k]; simpl.
  - by rewrite Z.shiftr_0_r.
  - rewrite IH by lia. f_equal. rewrite Z.shiftr_shiftr by lia.
    do 2 f_equal. lia.
Qed.

Lemma le_bytes_nonneg length n : Forall (λ b, 0 ≤ b)%Z (le_bytes length n).
Proof.
  revert n. induction length as [|length IH]; intros n; simpl; constructor.
  - apply Z.land_nonneg. right. lia.
  - apply IH.
Qed.

Lemma decode_ascii_char_code bm s :
  decode_ascii bm = Ok s →
  Forall (λ b, 0 ≤ b)%Z bm →
  String.length s = List.length bm ∧
  ∀ k, char_code s k = default 0%Z (bm !! k).
Proof.
  revert s. induction bm as [|b bm IH]; intros s Hd Hnn; simpl in Hd.
  - injection Hd as <-. split; [done|]. by intros [|k].
  - destruct (b <? 128)%Z eqn:Hb; [|done]. apply Z.ltb_lt in Hb.
    inv_bind Hd. injection Hd as <-.
    apply Forall_cons in Hnn as [Hb0 Hnn].
    destruct (IH _ Hbind Hnn) as [Hlen Hcode]. split; [simpl; by rewrite Hlen|].
    intros [|k]; simpl; [|apply Hcode].
    rewrite Ascii.N_ascii_embedding by lia. lia.
Qed.

Lemma mask_bit_bytes mask len text :
  (to_bytes mask len ≫= decode_ascii) = Ok text →
  String.length text = len ∧
  ∀ i, mask_bit text i = Z.testbit mask (Z.of_nat i).
Proof.
  unfold to_bytes. intros Ht.
  inv_bind Ht. rename a into bm.
  destruct (_ || _) eqn:Hrange; [done|].
  assert (bm = le_bytes len mask) as -> by congruence. clear Hbind.
  apply orb_false_iff in Hrange as [Hlo%Z.ltb_ge Hhi%Z.leb_gt].
  destruct (decode_ascii_char_code _ _ Ht (le_bytes_nonneg _ _)) as [Hlen Hcode].
  rewrite le_bytes_length in Hlen. split; [done|].
  intros i. unfold mask_bit. rewrite Hcode.
  assert (Hi : Z.of_nat i = (8 * Z.of_nat (i / 8) + Z.of_nat (i mod 8))%Z).
  { rewrite (Nat.div_mod_eq i 8) at 1. lia. }
  assert (Hm : (i mod 8 < 8)%nat) by (apply Nat.mod_upper_bound; lia).
  destruct (decide (i / 8 < len)%nat) as [Hk|Hk].
  - rewrite le_bytes_lookup by done. cbn [from_option]. unfold id.
    change 255%Z with (Z.ones 8). rewrite Z.land_ones by lia.
    rewrite Z.mod_pow2_bits_low by lia.
    rewrite Z.shiftr_spec by lia. f_equal. lia.
  - rewrite lookup_ge_None_2 by (rewrite le_bytes_length; lia).
    cbn [from_option]. unfold id. rewrite Z.bits_0. symmetry.
    destruct (decide (mask = 0%Z)) as [->|Hnz]; [apply Z.bits_0|].
    apply Z.bits_above_log2; [done|].
    assert (Z.log2 mask < 8 * Z.of_nat len)%Z
      by (apply Z.log2_lt_pow2; lia).
    lia.
Qed.

Lemma mask_bit_text mask nparams text :
  defaults_mask_text mask nparams = Ok text →
  String.length text = (nparams / 8 + 1)%nat ∧
  ∀ i, mask_bit text i = Z.testbit mask (Z.of_nat i).
Proof. apply mask_bit_bytes. Qed.

(** The text is decoded as ASCII: a mask with the top bit of a byte set (the
    eighth bound argument defaulted) has no text, the attempt raises. *)
Example defaults_mask_text_bit_7 :
  defaults_mask_text (Z.shiftl 1 7) 8 = Err UnicodeDecodeError.
Proof. reflexivity. Qed.

(** *** The defaults bitmask *)

(** Entry [k] of [bound_param_args] is marked for default population. *)
Definition marked (bound : list (FuncParameter * ir)) (k : nat) : Prop :=
  ∃ p, bound !! k = Some (p, IRNone).

Lemma testbit_lor_bit mask (i j : nat) :
  Z.testbit (Z.lor mask (Z.shiftl 1 (Z.of_nat i))) (Z.of_nat j) =
  Z.testbit mask (Z.of_nat j) || bool_decide (i = j).
Proof.
  rewrite Z.lor_spec, Z.shiftl_1_l, Z.pow2_bits_eqb by lia. f_equal.
  case_bool_decide; [apply Z.eqb_eq | apply Z.eqb_neq]; lia.
Qed.

Lemma populate_defaults_loop_spec ctx edgeql resolved bound :
  ∀ i0 mask0 null0 bound' mask' null',
    populate_defaults_loop ctx edgeql resolved bound i0 mask0 null0 =
      Ok (bound', mask', null') →
    length bound' = length bound ∧
    (∀ j, Z.testbit mask' (Z.of_nat j) = true ↔
          Z.testbit mask0 (Z.of_nat j) = true ∨
          ((i0 ≤ j)%nat ∧ marked bound (j - i0))) ∧
    (∀ k p v, bound !! k = Some (p, v) → v ≠ IRNone →
              bound' !! k = Some (p, v)) ∧
    (edgeql = true →
     ∀ k p, bound !! k = Some (p, IRNone) →
            ∃ t, bound' !! k =
                 Some (p, EnsureSet (EmptySet t (param_name p)) t)).
Proof.
  induction bound as [|[p val] bound IH];
    intros i0 mask0 null0 bound' mask' null' Hp.
  - simpl in Hp. injection Hp as <- <- <-. split; [done|]. split; [|done].
    intros j. split; [by left|]. intros [?|[_ [p Hp]]]; done.
  - assert (Hcons : ∀ j, (i0 ≤ j)%nat →
              marked ((p, val) :: bound) (j - i0) ↔
              (j = i0 ∧ val = IRNone) ∨
              ((S i0 ≤ j)%nat ∧ marked bound (j - S i0))).
    { intros j Hj. unfold marked. destruct (decide (j = i0)) as [->|Hne].
      - rewrite Nat.sub_diag. simpl. split.
        + intros [q [= -> ->]]. by left.
        + intros [[_ ->]|[? _]]; [eauto | lia].
      - replace (j - i0)%nat with (S (j - S i0)) by lia. simpl. split.
        + intros Hm. right. split; [lia|done].
        + intros [[? _]|[_ ?]]; [lia | done]. }
    assert (val = IRNone ∨ val ≠ IRNone) as [->|Hval]
      by (destruct val; [by left | by right ..]).
    + simpl in Hp. inv_bind Hp. rename a into default_type.
      inv_bind Hp. destruct a as [[rest m] n]. injection Hp as <- <- <-.
      destruct (IH _ _ _ _ _ _ Hbind0) as (Hlen & Hbits & Hkeep & Hfill).
      split; [simpl; by rewrite Hlen|]. split; [|split].
      * intros j. rewrite Hbits, testbit_lor_bit, orb_true_iff,
          bool_decide_eq_true.
        destruct (decide (i0 ≤ j)%nat) as [Hj|Hj].
        -- rewrite (Hcons j Hj). naive_solver lia.
        -- split; [intros [[?|?]|[? _]]; [by left | lia | lia]|].
           intros [?|[? _]]; [by left; left | lia].
      * intros [|k] q v Hq Hv; simpl in *; [congruence | by eapply Hkeep].
      * intros -> [|k] q Hq; simpl in *; [|by eapply Hfill].
        injection Hq as <-. eauto.
    + assert (Hp' :
        (populate_defaults_loop ctx edgeql resolved bound (S i0) mask0 null0
           ≫= λ '(rest, defaults_mask, null_args),
                Ok ((p, val) :: rest, defaults_mask, null_args)) =
        Ok (bound', mask', null')) by (by destruct val).
      clear Hp. inv_bind Hp'. destruct a as [[rest m] n].
      injection Hp' as <- <- <-.
      destruct (IH _ _ _ _ _ _ Hbind) as (Hlen & Hbits & Hkeep & Hfill).
      split; [simpl; by rewrite Hlen|]. split; [|split].
      * intros j. rewrite Hbits.
        destruct (decide (i0 ≤ j)%nat) as [Hj|Hj].
        -- rewrite (Hcons j Hj). naive_solver lia.
        -- split; (intros [?|[? _]]; [by left | lia]).
      * intros [|k] q v Hq Hv; simpl in *; [congruence | by eapply Hkeep].
      * intros He [|k] q Hq; simpl in *; [congruence | by eapply Hfill].
Qed.

(** Entries marked for default population only exist when
    [populate_defaults] has been set. *)
Definition marks_recorded (populate_defaults : bool)
    (bound : list (FuncParameter * ir)) : Prop :=
  populate_defaults = false → Forall (λ e, e.2 ≠ IRNone) bound.

Lemma marks_recorded_snoc pd bound p v :
  marks_recorded pd bound → v ≠ IRNone → marks_recorded pd (bound ++ [(p, v)]).
Proof.
  intros Hb Hv Hpd. apply Forall_app. split; [by apply Hb|].
  by apply Forall_singleton.
Qed.

Lemma bind_named_only_marks ctx kwargs params :
  map_Forall (λ _ a, a.2 ≠ IRNone) kwargs →
  ∀ st bound pd n b n',
    marks_recorded pd bound →
    bind_named_only ctx kwargs params st bound pd n = Some (b, n') →
    marks_recorded (b_populate_defaults b) (b_bound b).
Proof.
  intros Hk. induction params as [|p params IH];
    intros st bound pd n b n' Hm Hb; simpl in Hb.
  - by injection Hb as <- <-.
  - case_decide; [|by injection Hb as <- <-].
    destruct (kwargs !! param_name p) as [[arg_type arg_val]|] eqn:Hkw.
    + destruct (check_arg ctx st arg_type (param_type p)); [|done].
      eapply IH; [|done]. apply marks_recorded_snoc; [done|].
      apply (Hk _ _ Hkw).
    + destruct (param_default p); [|done].
      eapply IH; [|done]. by intros ?.
Qed.

Lemma bind_variadic_rest_marks ctx param var_type args :
  Forall (λ a, a.2 ≠ IRNone) args →
  ∀ st bound pd st' bound',
    marks_recorded pd bound →
    bind_variadic_rest ctx param var_type args st bound = Some (st', bound') →
    marks_recorded pd bound'.
Proof.
  induction 1 as [|[arg_type arg_val] args Ha Hargs IH];
    intros st bound pd st' bound' Hm Hb; simpl in Hb.
  - by injection Hb as <- <-.
  - destruct (check_arg ctx st arg_type var_type); [|done].
    eapply IH; [|done]. by apply marks_recorded_snoc.
Qed.

Lemma bind_positional_marks ctx args :
  Forall (λ a, a.2 ≠ IRNone) args →
  ∀ b b',
    marks_recorded (b_populate_defaults b) (b_bound b) →
    bind_positional ctx args b = Ok (Some b') →
    marks_recorded (b_populate_defaults b') (b_bound b').
Proof.
  induction 1 as [|[arg_type arg_val] args Ha Hargs IH]; intros b b' Hm Hb;
    simpl in Hb.
  - by injection Hb as <-.
  - destruct (b_rest b) as [|p params]; [done|].
    destruct (param_kind p); [| done |].
    + destruct (get_subtypes (param_type p)) as [|var_type ?]; [done|].
      destruct (check_arg ctx (b_state b) arg_type var_type); [|done].
      destruct (bind_variadic_rest _ _ _ _ _ _) as [[st bound]|] eqn:Hv;
        [|done].
      injection Hb as <-. simpl.
      eapply bind_variadic_rest_marks; [done| |done].
      by apply marks_recorded_snoc.
    + destruct (check_arg ctx (b_state b) arg_type (param_type p)); [|done].
      eapply IH; [|done]. simpl. by apply marks_recorded_snoc.
Qed.

Lemma trailing_defaults_nil params :
  existsb is_positional params = false → trailing_defaults params = [].
Proof.
  unfold trailing_defaults. induction params as [|p params IH]; [done|].
  cbn [existsb omap list_omap]. intros [-> ?]%orb_false_iff. by apply IH.
Qed.

Lemma bind_steps_marks ctx args kwargs params st bound pd hev :
  Forall (λ a, a.2 ≠ IRNone) args →
  map_Forall (λ _ a, a.2 ≠ IRNone) kwargs →
  bind_steps ctx args kwargs params = Ok (Some (st, bound, pd, hev)) →
  marks_recorded pd bound.
Proof.
  intros Ha Hk Hs. unfold bind_steps in Hs. inv_bind Hs.
  destruct a as [b|]; [|done]. inv_bind Hs.
  destruct a as [[[bound' pd'] hev']|]; [|done]. injection Hs as <- <- <- <-.
  assert (Hb : marks_recorded (b_populate_defaults b) (b_bound b)).
  { unfold bind_arguments in Hbind.
    destruct (bind_named_only _ _ _ _ _ _ _) as [[b0 n]|] eqn:Hn; [|done].
    case_decide; [done|].
    eapply bind_positional_marks; [done| |done].
    eapply bind_named_only_marks; [done| |done]. intros _. constructor. }
  apply bind_trailing_Some in Hbind0 as (-> & -> & _ & _).
  intros [Hpd Hex]%orb_false_iff.
  rewrite (trailing_defaults_nil _ Hex), app_nil_r. by apply Hb.
Qed.

(** C8, as the code has it: a successful binding of a query-language
    function with parameters yields the bound arguments preceded by exactly
    one bytes constant; its text has [nparams // 8 + 1] characters and, read
    as a little-endian bit mask, has bit [i] set exactly when entry [i] of
    the bound arguments -- in binding order: NAMED ONLY parameters first,
    then positional ones -- was marked for default population; arguments
    supplied by the caller are passed through, marked entries become empty
    sets. *)
Theorem defaults_bitmask (ctx : ContextLevel) (args : list (stype * ir))
    (kwargs : gmap string (stype * ir)) (funcname : string) (f : Function)
    (fatal_array_check : bool) (call : BoundCall) :
  func_language f = EdgeQL →
  func_params f ≠ [] →
  Forall (λ a, a.2 ≠ IRNone) args →
  map_Forall (λ _ a, a.2 ≠ IRNone) kwargs →
  try_bind_func_args args kwargs funcname f fatal_array_check ctx = Ok call →
  is_match call = true →
  ∃ st bound pd hev bytes_t text rest,
    bind_steps ctx args kwargs (pg_params (as_pg_params (func_params f))) =
      Ok (Some (st, bound, pd, hev)) ∧
    schema_get (ctx_schema ctx) "std::bytes" = Ok bytes_t ∧
    bc_args call =
      Some (EnsureSet (BytesConstant text bytes_t) bytes_t :: rest) ∧
    length rest = length bound ∧
    String.length text =
      (length (pg_params (as_pg_params (func_params f))) / 8 + 1)%nat ∧
    (∀ i, mask_bit text i = true ↔ marked bound i) ∧
    (∀ i p v, bound !! i = Some (p, v) → v ≠ IRNone → rest !! i = Some v) ∧
    (∀ i p, bound !! i = Some (p, IRNone) →
            ∃ t, rest !! i = Some (EnsureSet (EmptySet t (param_name p)) t)).
Proof.
  intros Hlang Hparams Hargs Hkwargs Hbind Hmatch.
  destruct (try_bind_match_steps _ _ _ _ _ _ _ Hparams Hbind Hmatch)
    as (st & bound & pd & hev & Hsteps & _ & _ &
        bound' & mask & null_args & bound_args & Hpop & Hbuild & Hcall).
  rewrite bool_decide_eq_true_2 in Hpop, Hbuild by done.
  unfold build_bound_args in Hbuild.
  inv_bind Hbuild. injection Hbuild as <-.
  inv_bind Hbind0. rename a0 into bytes_t.
  inv_bind Hbind0. rename a0 into text. injection Hbind0 as <-.
  destruct (mask_bit_text _ _ _ Hbind2) as [Hlen Hbit].
  pose proof (bind_steps_marks _ _ _ _ _ _ _ _ Hargs Hkwargs Hsteps) as Hmarks.
  exists st, bound, pd, hev, bytes_t, text, (bound'.*2).
  split; [done|]. split; [done|]. split; [done|].
  destruct pd.
  - destruct (populate_defaults_loop_spec _ _ _ _ _ _ _ _ _ _ Hpop)
      as (Hl & Hbits & Hkeep & Hfill).
    split; [by rewrite length_fmap|]. split; [done|]. split; [|split].
    + intros i. rewrite Hbit, Hbits, Z.bits_0, Nat.sub_0_r.
      split; [intros [?|[_ ?]]; done | intros ?; right; split; [lia|done]].
    + intros i p v Hi Hv. by rewrite list_lookup_fmap, (Hkeep _ _ _ Hi Hv).
    + intros i p Hi. destruct (Hfill eq_refl _ _ Hi) as [t Ht].
      exists t. by rewrite list_lookup_fmap, Ht.
  - injection Hpop as <- <- <-. specialize (Hmarks eq_refl).
    assert (Hnone : ∀ i p, bound !! i = Some (p, IRNone) → False).
    { intros i p Hi. apply list_elem_of_lookup_2 in Hi.
      rewrite Forall_forall in Hmarks. by apply (Hmarks _ Hi). }
    split; [by rewrite length_fmap|]. split; [done|]. split; [|split].
    + intros i. rewrite Hbit, Z.bits_0. split; [done|].
      intros [p Hp]. destruct (Hnone _ _ Hp).
    + intros i p v Hi Hv. by rewrite list_lookup_fmap, Hi.
    + intros i p Hi. destruct (Hnone _ _ Hi).
Qed.

(** ** Further properties of the binding *)

(** *** Invariants of the type checks of one attempt *)

Section CheckInvariant.

(** A property of the binder's state and of the checks made so far that
    every successful check preserves. *)
Variable ctx : ContextLevel.
Variable P : BindState → list (stype * stype) → Prop.
Hypothesis P_check : ∀ st arg_type param_type st' L,
  check_arg ctx st arg_type param_type = Some st' →
  P st L → P st' (L ++ [(arg_type, param_type)]).

Lemma bind_named_only_invariant kwargs named rest st bound pd n b n' L :
  Forall (λ p, param_kind p = NAMED_ONLY) named →
  Forall (λ p, param_kind p ≠ NAMED_ONLY) rest →
  bind_named_only ctx kwargs (named ++ rest) st bound pd n = Some (b, n') →
  P st L →
  b_rest b = rest ∧ P (b_state b) (L ++ named_checks kwargs named).
Proof.
  intros Hnamed Hrest. revert st bound pd n L.
  induction Hnamed as [|p named Hp Hnamed IH]; intros st bound pd n L Hb HL.
  - simpl in Hb. rewrite app_nil_r.
    destruct rest as [|q rest'].
    + by injection Hb as <- _.
    + apply Forall_cons in Hrest as [Hq _].
      simpl in Hb. rewrite decide_False in Hb by done.
      by injection Hb as <- _.
  - simpl in Hb. rewrite decide_True in Hb by done.
    unfold named_checks. simpl.
    destruct (kwargs !! param_name p) as [[arg_type arg_val]|].
    + destruct (check_arg ctx st arg_type (param_type p)) as [st1|] eqn:Hc;
        [|done].
      destruct (IH _ _ _ _ _ Hb (P_check _ _ _ _ _ Hc HL)) as [Hr HL'].
      split; [done|]. by rewrite <-app_assoc in HL'.
    + destruct (param_default p); [|done]. by apply (IH _ _ _ _ _ Hb).
Qed.

Lemma bind_variadic_rest_invariant param var_type args st bound st' bound' L :
  bind_variadic_rest ctx param var_type args st bound = Some (st', bound') →
  P st L →
  P st' (L ++ ((λ a, (a.1, var_type)) <$> args)).
Proof.
  revert st bound L.
  induction args as [|[arg_type arg_val] args IH]; intros st bound L Hb HL;
    simpl in Hb.
  - injection Hb as <- _. by rewrite app_nil_r.
  - destruct (check_arg ctx st arg_type var_type) as [st1|] eqn:Hc; [|done].
    pose proof (IH _ _ _ Hb (P_check _ _ _ _ _ Hc HL)) as HL'.
    by rewrite <-app_assoc in HL'.
Qed.

Lemma bind_positional_invariant args b b' L :
  bind_positional ctx args b = Ok (Some b') →
  P (b_state b) L →
  P (b_state b') (L ++ positional_checks args (b_rest b)).
Proof.
  revert b L.
  induction args as [|[arg_type arg_val] args IH]; intros b L Hb HL;
    simpl in Hb.
  - injection Hb as <-. by rewrite app_nil_r.
  - simpl. destruct (b_rest b) as [|param rest']; [done|].
    destruct (param_kind param); [| done |].
    + destruct (get_subtypes (param_type param)) as [|var_type ?]; [done|].
      destruct (check_arg ctx (b_state b) arg_type var_type) as [st1|] eqn:Hc;
        [|done].
      destruct (bind_variadic_rest _ _ _ _ _ _) as [[st2 bound2]|] eqn:Hv;
        [|done].
      injection Hb as <-. simpl.
      pose proof (bind_variadic_rest_invariant _ _ _ _ _ _ _ _ Hv
                    (P_check _ _ _ _ _ Hc HL)) as HL'.
      by rewrite <-app_assoc in HL'.
    + destruct (check_arg ctx (b_state b) arg_type (param_type param))
        as [st1|] eqn:Hc; [|done].
      pose proof (IH _ _ Hb (P_check _ _ _ _ _ Hc HL)) as HL'.
      by rewrite <-app_assoc in HL'.
Qed.

Lemma bind_steps_invariant args kwargs named rest st bound pd hev :
  Forall (λ p, param_kind p = NAMED_ONLY) named →
  Forall (λ p, param_kind p ≠ NAMED_ONLY) rest →
  bind_steps ctx args kwargs (named ++ rest) = Ok (Some (st, bound, pd, hev)) →
  P (mkBindState false None) [] →
  P st (supplied_checks args kwargs named rest).
Proof.
  intros Hnamed Hrest Hs H0. unfold bind_steps in Hs. inv_bind Hs.
  destruct a as [b|]; [|done]. inv_bind Hs.
  destruct a as [[[bound' pd'] hev']|]; [|done].
  injection Hs as <- <- <- <-.
  unfold bind_arguments in Hbind.
  destruct (bind_named_only _ _ _ _ _ _ _) as [[b0 n0]|] eqn:Hn; [|done].
  case_decide; [done|].
  destruct (bind_named_only_invariant _ _ _ _ _ _ _ _ _ [] Hnamed Hrest Hn H0)
    as [Hr HL].
  pose proof (bind_positional_invariant _ _ _ _ Hbind HL) as HL'.
  by rewrite Hr in HL'.
Qed.

End CheckInvariant.

(** What the final state of an attempt records is justified by a check made
    on a supplied argument: the implicit-cast flag by an argument type that is
    not a subclass of the parameter type but casts to it implicitly, the
    resolved placeholder type by a resolution of a polymorphic parameter
    type. *)
Definition state_justified (ctx : ContextLevel) (st : BindState)
    (L : list (stype * stype)) : Prop :=
  (used_implicit_cast st = true →
   ∃ c, c ∈ L ∧ issubclass c.1 c.2 = false ∧
        implicitly_castable_to c.1 c.2 (ctx_schema ctx) = true) ∧
  (∀ t, resolved_poly_base_type st = Some t →
        ∃ c, c ∈ L ∧ is_polymorphic c.2 = true ∧
             resolve_polymorphic c.2 c.1 = Some t).

Lemma _check_type_justified ctx st arg_type param_type st1 :
  _check_type ctx st arg_type param_type = (true, st1) →
  resolved_poly_base_type st1 = resolved_poly_base_type st ∧
  (used_implicit_cast st1 = used_implicit_cast st ∨
   (issubclass arg_type param_type = false ∧
    implicitly_castable_to arg_type param_type (ctx_schema ctx) = true)).
Proof.
  unfold _check_type.
  destruct (is_polymorphic arg_type && in_polymorphic_func ctx && _);
    [intros [= <-]; by split; [|left]|].
  destruct (issubclass arg_type param_type);
    [intros [= <-]; by split; [|left]|].
  destruct (implicitly_castable_to arg_type param_type (ctx_schema ctx));
    [|done].
  intros [= <-]. split; [done|]. by right.
Qed.

Lemma _check_any_justified ctx st arg_type param_type st2 :
  _check_any ctx st arg_type param_type = (true, st2) →
  used_implicit_cast st2 = used_implicit_cast st ∧
  (resolved_poly_base_type st2 = resolved_poly_base_type st ∨
   (is_polymorphic param_type = true ∧
    is_Some (resolved_poly_base_type st2) ∧
    resolve_polymorphic param_type arg_type = resolved_poly_base_type st2)).
Proof.
  unfold _check_any.
  destruct (in_polymorphic_func ctx && is_polymorphic arg_type && _);
    [intros [= <-]; by split; [|left]|].
  destruct (is_polymorphic param_type) eqn:Hp; simpl;
    [|intros [= <-]; by split; [|left]].
  destruct (resolve_polymorphic param_type arg_type) as [r|]; [|done].
  destruct (resolved_poly_base_type st) as [base|] eqn:Hst.
  - intros [= _ <-]. split; [done|]. by left.
  - intros [= <-]. simpl. split; [done|]. right. by eauto.
Qed.

Lemma check_arg_justified ctx st arg_type param_type st' L :
  check_arg ctx st arg_type param_type = Some st' →
  state_justified ctx st L →
  state_justified ctx st' (L ++ [(arg_type, param_type)]).
Proof.
  unfold check_arg, state_justified. intros Hc [Hu Hr].
  destruct (_check_type ctx st arg_type param_type) as [ok st1] eqn:Hty.
  destruct ok; [|done]. simpl in Hc.
  destruct (_check_any ctx st1 arg_type param_type) as [ok st2] eqn:Hany.
  destruct ok; [|done]. simpl in Hc. injection Hc as <-.
  destruct (_check_type_justified _ _ _ _ _ Hty) as [Hr1 Hu1].
  destruct (_check_any_justified _ _ _ _ _ Hany) as [Hu2 Hr2].
  assert (Hold : ∀ (Q : stype * stype → Prop),
            (∃ c, c ∈ L ∧ Q c) →
            ∃ c, c ∈ L ++ [(arg_type, param_type)] ∧ Q c).
  { intros Q (c & ? & ?). exists c. split; [|done].
    apply elem_of_app. by left. }
  assert (Hnew : (arg_type, param_type) ∈ L ++ [(arg_type, param_type)]).
  { apply elem_of_app. right. by apply list_elem_of_singleton. }
  split.
  - rewrite Hu2. intros Hused. destruct Hu1 as [Hu1|[? ?]].
    + apply Hold, Hu. congruence.
    + by exists (arg_type, param_type).
  - intros t Ht. destruct Hr2 as [Hr2|(? & _ & Hres)].
    + apply Hold, Hr. congruence.
    + exists (arg_type, param_type). simpl. split; [done|].
      split; [done|]. congruence.
Qed.

Lemma bind_steps_justified ctx args kwargs named rest st bound pd hev :
  Forall (λ p, param_kind p = NAMED_ONLY) named →
  Forall (λ p, param_kind p ≠ NAMED_ONLY) rest →
  bind_steps ctx args kwargs (named ++ rest) = Ok (Some (st, bound, pd, hev)) →
  state_justified ctx st (supplied_checks args kwargs named rest).
Proof.
  intros Hnamed Hrest Hs.
  apply (bind_steps_invariant ctx (state_justified ctx)
           (check_arg_justified ctx) _ _ _ _ _ _ _ _ Hnamed Hrest Hs).
  split; [done|]. by intros t.
Qed.

(** X14: what a match records about implicit casts and the return type. For
    a function with parameters laid out as NAMED ONLY parameters followed by
    the others: a match that used implicit casts has a supplied argument
    whose type is not a subclass of its parameter's type but implicitly
    castable to it; the return type of a match is the declared one if that
    is not polymorphic, and otherwise the declared one made concrete by a
    type that some supplied argument resolved a polymorphic parameter type
    to. In particular a call without arguments never uses implicit casts
    and never matches a function with polymorphic return type. *)
Theorem match_is_justified (ctx : ContextLevel) (args : list (stype * ir))
    (kwargs : gmap string (stype * ir)) (funcname : string) (f : Function)
    (fatal_array_check : bool) (named rest : list FuncParameter)
    (call : BoundCall) :
  func_params f ≠ [] →
  pg_params (as_pg_params (func_params f)) = named ++ rest →
  Forall (λ p, param_kind p = NAMED_ONLY) named →
  Forall (λ p, param_kind p ≠ NAMED_ONLY) rest →
  try_bind_func_args args kwargs funcname f fatal_array_check ctx = Ok call →
  is_match call = true →
  (bc_used_implicit_casts call = true →
   ∃ c, c ∈ supplied_checks args kwargs named rest ∧
        issubclass c.1 c.2 = false ∧
        implicitly_castable_to c.1 c.2 (ctx_schema ctx) = true) ∧
  (is_polymorphic (func_return_type f) = false →
   bc_return_type call = Some (func_return_type f)) ∧
  (is_polymorphic (func_return_type f) = true →
   ∃ t c, bc_return_type call =
            Some (to_nonpolymorphic (func_return_type f) t) ∧
          c ∈ supplied_checks args kwargs named rest ∧
          is_polymorphic c.2 = true ∧
          resolve_polymorphic c.2 c.1 = Some t) ∧
  (args = [] → kwargs = ∅ →
   bc_used_implicit_casts call = false ∧
   is_polymorphic (func_return_type f) = false).
Proof.
  intros Hparams Hpg Hnamed Hrest Hb Hm.
  unfold try_bind_func_args in Hb.
  destruct (func_params f) as [|p0 ps] eqn:Hps; [done|].
  destruct (no_args_call args kwargs && _); [by injection Hb as <-|].
  rewrite Hpg in Hb.
  destruct (bind_steps ctx args kwargs (named ++ rest))
    as [[[[[st bound] pd] hev]|]|] eqn:Hsteps;
    [| by injection Hb as <- | done].
  destruct (bind_steps_justified _ _ _ _ _ _ _ _ _ Hnamed Hrest Hsteps)
    as [Hu Hr].
  inv_bind Hb. destruct a as [[bound' defaults_mask] null_args].
  inv_bind Hb. rename a into bound_args.
  assert (Hcall :
    bc_used_implicit_casts call = used_implicit_cast st ∧
    (is_polymorphic (func_return_type f) = false →
     bc_return_type call = Some (func_return_type f)) ∧
    (is_polymorphic (func_return_type f) = true →
     ∃ t, resolved_poly_base_type st = Some t ∧
          bc_return_type call =
            Some (to_nonpolymorphic (func_return_type f) t))).
  { destruct (is_polymorphic (func_return_type f)).
    - destruct (resolved_poly_base_type st) as [t|];
        [|by injection Hb as <-].
      injection Hb as <-. simpl. split; [done|]. split; [done|]. eauto.
    - injection Hb as <-. simpl. split; [done|]. split; done. }
  destruct Hcall as (Hcu & Hnp & Hp).
  split; [|split; [|split]].
  - rewrite Hcu. apply Hu.
  - done.
  - intros (t & Ht & Hrt)%Hp. destruct (Hr t Ht) as (c & ? & ? & ?).
    exists t, c. done.
  - intros -> ->.
    assert (Hnone : supplied_checks [] ∅ named rest = []).
    { unfold supplied_checks. by rewrite named_checks_no_kwargs. }
    rewrite Hnone in Hu, Hr. split.
    + rewrite Hcu. destruct (used_implicit_cast st); [|done].
      destruct (Hu eq_refl) as (c & ?%elem_of_nil & _). done.
    + destruct (is_polymorphic (func_return_type f)); [|done].
      destruct (Hp eq_refl) as (t & Ht & _).
      destruct (Hr t Ht) as (c & ?%elem_of_nil & _). done.
Qed.

(** *** Which arguments a match binds *)

(** The entry step 1 makes for a NAMED ONLY parameter: the supplied value,
    or the mark for default population. *)
Definition named_entry (kwargs : gmap string (stype * ir))
    (p : FuncParameter) : FuncParameter * ir :=
  (p, match kwargs !! param_name p with
      | Some (_, arg_val) => arg_val
      | None => IRNone
      end).

Definition supplied (kwargs : gmap string (stype * ir))
    (p : FuncParameter) : bool :=
  bool_decide (is_Some (kwargs !! param_name p)).

Lemma bind_named_only_layout ctx kwargs named rest st bound pd n b n' :
  Forall (λ p, param_kind p = NAMED_ONLY) named →
  Forall (λ p, param_kind p ≠ NAMED_ONLY) rest →
  bind_named_only ctx kwargs (named ++ rest) st bound pd n = Some (b, n') →
  b_bound b = bound ++ (named_entry kwargs <$> named) ∧
  b_rest b = rest ∧
  n' = n + length (filter (λ p, supplied kwargs p = true) named) ∧
  ∀ p, p ∈ named → kwargs !! param_name p = None → is_Some (param_default p).
Proof.
  intros Hnamed Hrest. revert st bound pd n.
  induction Hnamed as [|p named Hp Hnamed IH]; intros st bound pd n Hb.
  - simpl in Hb. rewrite app_nil_r.
    assert (b_bound b = bound ∧ b_rest b = rest ∧ n' = n) as (-> & -> & ->).
    { destruct rest as [|q rest'].
      - by injection Hb as <- <-.
      - apply Forall_cons in Hrest as [Hq _].
        simpl in Hb. rewrite decide_False in Hb by done.
        by injection Hb as <- <-. }
    simpl. split; [done|]. split; [done|]. split; [lia|].
    by intros p ?%elem_of_nil.
  - simpl in Hb. rewrite decide_True in Hb by done.
    rewrite fmap_cons, filter_cons.
    destruct (kwargs !! param_name p) as [[arg_type arg_val]|] eqn:Hk.
    + destruct (check_arg ctx st arg_type (param_type p)) as [st1|]; [|done].
      destruct (IH _ _ _ _ Hb) as (Hbound & Hr & Hn & Hd).
      rewrite decide_True
        by (unfold supplied; apply bool_decide_eq_true; by eexists).
      unfold named_entry at 1. rewrite Hk.
      split; [by rewrite Hbound, <-app_assoc|]. split; [done|].
      split; [simpl; lia|].
      intros q [->|Hq]%elem_of_cons Hnone; [congruence|by apply Hd].
    + destruct (param_default p) as [d|] eqn:Hdef; [|done].
      destruct (IH _ _ _ _ Hb) as (Hbound & Hr & Hn & Hd).
      rewrite decide_False
        by (unfold supplied; rewrite Hk;
            intros [? ?]%bool_decide_eq_true; done).
      unfold named_entry at 1. rewrite Hk.
      split; [by rewrite Hbound, <-app_assoc|]. split; [done|].
      split; [done|].
      intros q [->|Hq]%elem_of_cons Hnone; [by eexists|by apply Hd].
Qed.

Lemma bind_variadic_rest_layout ctx param var_type args st bound st' bound' :
  bind_variadic_rest ctx param var_type args st bound = Some (st', bound') →
  bound' = bound ++ ((λ a, (param, a.2)) <$> args).
Proof.
  revert st bound.
  induction args as [|[arg_type arg_val] args IH]; intros st bound Hb;
    simpl in Hb.
  - injection Hb as _ <-. by rewrite app_nil_r.
  - destruct (check_arg ctx st arg_type var_type) as [st1|]; [|done].
    rewrite (IH _ _ Hb), <-app_assoc. done.
Qed.

Lemma bind_positional_layout ctx args b b' :
  bind_positional ctx args b = Ok (Some b') →
  ∃ pos, b_bound b' = b_bound b ++ pos ∧ pos.*2 = args.*2 ∧
         Forall (λ e, e.1 ∈ b_rest b ∧ param_kind e.1 ≠ NAMED_ONLY) pos ∧
         (Forall (λ p, param_kind p ≠ VARIADIC) (b_rest b) →
          b_rest b = pos.*1 ++ b_rest b').
Proof.
  revert b. induction args as [|[arg_type arg_val] args IH]; intros b Hb;
    simpl in Hb.
  - injection Hb as <-. exists []. rewrite app_nil_r. by repeat split.
  - destruct (b_rest b) as [|param rest'] eqn:Hrest; [done|].
    destruct (param_kind param) eqn:Hkind; [| done |].
    + destruct (get_subtypes (param_type param)) as [|var_type ?]; [done|].
      destruct (check_arg ctx (b_state b) arg_type var_type) as [st1|];
        [|done].
      destruct (bind_variadic_rest _ _ _ _ _ _) as [[st2 bound2]|] eqn:Hv;
        [|done].
      injection Hb as <-. simpl.
      apply bind_variadic_rest_layout in Hv as ->.
      exists ((param, arg_val) :: ((λ a, (param, a.2)) <$> args)).
      rewrite <-app_assoc. split; [done|]. split; [|split].
      * simpl. f_equal. rewrite <-!list_fmap_compose. done.
      * constructor; [simpl; split; [left|congruence]|].
        apply Forall_fmap, Forall_forall. intros a _. simpl.
        split; [left|congruence].
      * intros [Hk _]%Forall_cons. congruence.
    + destruct (check_arg ctx (b_state b) arg_type (param_type param))
        as [st1|]; [|done].
      destruct (IH _ Hb) as (pos & Hbound & Hvals & Hpos & Hlay).
      cbn [b_bound b_rest b_state] in *. exists ((param, arg_val) :: pos).
      rewrite Hbound, <-app_assoc. split; [done|]. split; [|split].
      * rewrite !fmap_cons. simpl. by rewrite Hvals.
      * constructor; [simpl; split; [left|congruence]|].
        eapply Forall_impl; [exact Hpos|]. intros e [? ?].
        split; [by right|done].
      * intros [_ Hnv]%Forall_cons. rewrite fmap_cons. simpl.
        by rewrite <-Hlay.
Qed.

Lemma bind_positional_rest ctx args b b' :
  bind_positional ctx args b = Ok (Some b') →
  ∀ p, p ∈ b_rest b' → p ∈ b_rest b.
Proof.
  revert b. induction args as [|[arg_type arg_val] args IH]; intros b Hb;
    simpl in Hb.
  - by injection Hb as <-.
  - destruct (b_rest b) as [|param rest'] eqn:Hrest; [done|].
    destruct (param_kind param); [| done |].
    + destruct (get_subtypes (param_type param)); [done|].
      destruct (check_arg _ _ _ _); [|done].
      destruct (bind_variadic_rest _ _ _ _ _ _) as [[? ?]|]; [|done].
      injection Hb as <-. simpl. intros p Hp. by right.
    + destruct (check_arg _ _ _ _); [|done].
      intros p Hp. right. by apply (IH _ Hb).
Qed.

Lemma trailing_defaults_positional params :
  Forall (λ p, param_kind p = POSITIONAL) params →
  (trailing_defaults params).*1 = params.
Proof.
  unfold trailing_defaults, is_positional.
  induction 1 as [|p params Hp _ IH]; [done|].
  cbn [omap list_omap]. rewrite bool_decide_eq_true_2 by done.
  rewrite fmap_cons. by rewrite IH.
Qed.

Lemma trailing_defaults_marked params :
  Forall (λ e : FuncParameter * ir,
            e.2 = IRNone ∧ param_kind e.1 = POSITIONAL ∧ e.1 ∈ params)
         (trailing_defaults params).
Proof.
  unfold trailing_defaults, is_positional.
  induction params as [|p params IH]; simpl; [constructor|].
  case_bool_decide as Hk; simpl.
  - constructor; [simpl; split; [done|split; [done|left]]|].
    eapply Forall_impl; [exact IH|]. intros e (? & ? & ?).
    split; [done|]. split; [done|by right].
  - eapply Forall_impl; [exact IH|]. intros e (? & ? & ?).
    split; [done|]. split; [done|by right].
Qed.

(** X15: the layout of the bound arguments. When the three binding steps
    succeed on parameters laid out as the NAMED ONLY parameters [named]
    followed by [rest], the bound list is: one entry per NAMED ONLY
    parameter, in order, carrying the named argument supplied for it or,
    failing that, the mark for its default, which it must have; then the
    positional arguments in call order, each bound to a parameter of
    [rest]; then the marks for the POSITIONAL parameters left over, which
    all have defaults. Every named argument of the call names a NAMED ONLY
    parameter (parameter names being distinct). And when the function has no
    VARIADIC parameter every parameter is bound exactly once, in layout
    order, so a call never has more positional arguments than there are
    such parameters. *)
Theorem binding_layout (ctx : ContextLevel) (args : list (stype * ir))
    (kwargs : gmap string (stype * ir)) (named rest : list FuncParameter)
    (st : BindState) (bound : list (FuncParameter * ir)) (pd hev : bool) :
  Forall (λ p, param_kind p = NAMED_ONLY) named →
  Forall (λ p, param_kind p ≠ NAMED_ONLY) rest →
  NoDup (param_name <$> named) →
  bind_steps ctx args kwargs (named ++ rest) = Ok (Some (st, bound, pd, hev)) →
  ∃ pos trailing,
    bound = (named_entry kwargs <$> named) ++ pos ++ trailing ∧
    pos.*2 = args.*2 ∧
    Forall (λ e, e.1 ∈ rest) pos ∧
    Forall (λ e, e.2 = IRNone ∧ param_kind e.1 = POSITIONAL ∧
                 e.1 ∈ rest ∧ is_Some (param_default e.1)) trailing ∧
    (∀ p, p ∈ named → kwargs !! param_name p = None →
          is_Some (param_default p)) ∧
    (∀ k, is_Some (kwargs !! k) → ∃ p, p ∈ named ∧ param_name p = k) ∧
    (Forall (λ p, param_kind p ≠ VARIADIC) rest →
     bound.*1 = named ++ rest ∧ (length args ≤ length rest)%nat).
Proof.
  intros Hnamed Hrest Hnd Hs. unfold bind_steps in Hs. inv_bind Hs.
  destruct a as [b|]; [|done]. inv_bind Hs.
  destruct a as [[[bound' pd'] hev']|]; [|done].
  injection Hs as <- <- <- <-.
  unfold bind_arguments in Hbind.
  destruct (bind_named_only _ _ _ _ _ _ _) as [[b0 n0]|] eqn:Hn; [|done].
  case_decide as Hcount; [done|].
  destruct (bind_named_only_layout _ _ _ _ _ _ _ _ _ _ Hnamed Hrest Hn)
    as (Hb0 & Hr0 & Hn0 & Hdef).
  destruct (bind_positional_layout _ _ _ _ Hbind)
    as (pos & Hbpos & Hvals & Hpos & Hlay).
  apply bind_trailing_Some in Hbind0 as (-> & _ & _ & Htdef).
  rewrite Hr0 in Hpos, Hlay. simpl in Hb0.
  exists pos, (trailing_defaults (b_rest b)).
  assert (Hsub : ∀ p, p ∈ b_rest b → p ∈ rest).
  { intros p Hp. rewrite <-Hr0.
    by apply (bind_positional_rest _ _ _ _ Hbind). }
  split; [by rewrite Hbpos, Hb0, <-app_assoc|]. split; [done|].
  split; [eapply Forall_impl; [exact Hpos|]; by intros e [? _]|].
  split; [|split; [done|split]].
  - eapply Forall_impl; [apply trailing_defaults_marked|].
    intros e (? & ? & He). repeat split; [done..|by apply Hsub|].
    by apply Htdef.
  - assert (Hsize : size kwargs =
                    length (filter (λ p, supplied kwargs p = true) named)).
    { destruct (decide (n0 = size kwargs)) as [<-|]; [lia|done]. }
    remember (filter (λ p, supplied kwargs p = true) named) as K eqn:HKdef.
    assert (HK : ∀ p, p ∈ K ↔ p ∈ named ∧ is_Some (kwargs !! param_name p)).
    { intros p. rewrite HKdef, list_elem_of_filter. unfold supplied.
      rewrite bool_decide_eq_true. tauto. }
    assert (HndK : NoDup (param_name <$> K)).
    { apply (sublist_NoDup _ (param_name <$> named)); [exact Hnd|].
      rewrite HKdef. apply fmap_sublist, sublist_filter. }
    assert (Heq : list_to_set (param_name <$> K) = (dom kwargs : gset string)).
    { apply set_subseteq_size_eq.
      - intros k. rewrite elem_of_list_to_set, list_elem_of_fmap.
        intros (p & -> & [_ ?]%HK). by apply elem_of_dom.
      - rewrite size_list_to_set by done.
        rewrite length_fmap, size_dom. lia. }
    intros k Hk. apply elem_of_dom in Hk. rewrite <-Heq in Hk.
    apply elem_of_list_to_set, list_elem_of_fmap in Hk as (p & -> & Hp).
    exists p. split; [by apply HK|done].
  - intros Hnv. specialize (Hlay Hnv).
    assert (Hrestb : Forall (λ p, param_kind p = POSITIONAL) (b_rest b)).
    { apply Forall_forall. intros p Hp.
      assert (p ∈ rest) as Hin by by apply Hsub.
      rewrite Forall_forall in Hrest, Hnv.
      specialize (Hrest p Hin). specialize (Hnv p Hin).
      by destruct (param_kind p). }
    split.
    + rewrite Hbpos, Hb0, !fmap_app, trailing_defaults_positional by done.
      rewrite <-app_assoc, <-Hlay. f_equal.
      rewrite <-list_fmap_compose. by apply list_fmap_id.
    + rewrite Hlay, length_app. rewrite <-(length_fmap snd args), <-Hvals.
      rewrite !length_fmap. lia.
Qed.

(** *** Encoding the bitmask *)

Lemma byte_high_bit (b : Z) :
  (0 ≤ b < 256)%Z → (128 ≤ b)%Z ↔ Z.testbit b 7 = true.
Proof.
  intros Hb. rewrite Z.testbit_true by lia.
  change (2 ^ 7)%Z with 128%Z.
  assert (0 ≤ b / 128 < 2)%Z as Hq.
  { split; [apply Z.div_pos; lia | apply Z.div_lt_upper_bound; lia]. }
  assert (b / 128 = 0 ∨ b / 128 = 1)%Z as [Hq0|Hq1] by lia.
  - rewrite Hq0. split; [|done]. intros Hge.
    assert (b < 128)%Z; [|lia].
    apply Z.div_small_iff in Hq0; lia.
  - rewrite Hq1. split; [done|]. intros _.
    destruct (decide (128 ≤ b)%Z); [done|].
    rewrite Z.div_small in Hq1 by lia. lia.
Qed.

Lemma decode_ascii_result (bm : list Z) :
  (decode_ascii bm = Err UnicodeDecodeError ↔
   ∃ k b, bm !! k = Some b ∧ (128 ≤ b)%Z) ∧
  ((∀ k b, bm !! k = Some b → (b < 128)%Z) → ∃ s, decode_ascii bm = Ok s).
Proof.
  induction bm as [|b bm [IHe IHo]]; simpl.
  - split; [|by eexists]. split; [done|]. by intros (k & b & ? & _).
  - destruct (b <? 128)%Z eqn:Hb.
    + apply Z.ltb_lt in Hb. split.
      * destruct (decode_ascii bm) as [s|e] eqn:Hd; simpl.
        -- split; [done|]. intros ([|k] & b' & Hk & Hge); simpl in Hk.
           ++ injection Hk as <-. lia.
           ++ assert (Ok s = Err UnicodeDecodeError) by (apply IHe; eauto).
              done.
        -- split.
           ++ intros [= ->]. destruct (proj1 IHe eq_refl) as (k & b' & ? & ?).
              exists (S k), b'. done.
           ++ intros ([|k] & b' & Hk & Hge); simpl in Hk.
              ** injection Hk as <-. lia.
              ** f_equal. assert (Err e = Err UnicodeDecodeError) as [= ->]
                   by (apply IHe; eauto). done.
      * intros Hall. destruct IHo as [s ->].
        { intros k b' Hk. apply (Hall (S k)). done. }
        by eexists.
    + apply Z.ltb_ge in Hb. split.
      * split; [|done]. intros _. exists 0%nat, b. done.
      * intros Hall. specialize (Hall 0%nat b eq_refl). lia.
Qed.

(** X16: when the bitmask of defaults can be encoded. The text of the
    bitmask constant is the mask's little-endian bytes read as ASCII. For a
    mask that fits the [nparams // 8 + 1] bytes, the encoding raises
    [UnicodeDecodeError] exactly when the mask has bit 7 of some byte set
    (bit 7, 15, 23, ... of the mask); otherwise it gives a text of that many
    characters carrying the bits of the mask. A mask that does not fit
    raises [OverflowError]. *)
Theorem defaults_mask_encoding (mask : Z) (nparams : nat) :
  ((mask < 0 ∨ 2 ^ (8 * Z.of_nat (nparams / 8 + 1)) ≤ mask)%Z →
   defaults_mask_text mask nparams = Err OverflowError) ∧
  ((0 ≤ mask < 2 ^ (8 * Z.of_nat (nparams / 8 + 1)))%Z →
   (defaults_mask_text mask nparams = Err UnicodeDecodeError ↔
    ∃ k, (k < nparams / 8 + 1)%nat ∧
         Z.testbit mask (8 * Z.of_nat k + 7) = true) ∧
   ((∀ k, (k < nparams / 8 + 1)%nat →
          Z.testbit mask (8 * Z.of_nat k + 7) = false) →
    ∃ text, defaults_mask_text mask nparams = Ok text ∧
            String.length text = (nparams / 8 + 1)%nat ∧
            ∀ i, mask_bit text i = Z.testbit mask (Z.of_nat i))).
Proof.
  unfold defaults_mask_text, to_bytes.
  remember (nparams / 8 + 1)%nat as len eqn:Hlen. clear Hlen. split.
  - intros Hout.
    assert ((mask <? 0)%Z || (2 ^ (8 * Z.of_nat len) <=? mask)%Z = true)
      as ->; [|done].
    apply orb_true_iff. destruct Hout; [left; by apply Z.ltb_lt|].
    right. by apply Z.leb_le.
  - intros Hin.
    assert ((mask <? 0)%Z || (2 ^ (8 * Z.of_nat len) <=? mask)%Z = false)
      as Hrange.
    { apply orb_false_iff. split; [apply Z.ltb_ge | apply Z.leb_gt]; lia. }
    rewrite Hrange, bind_Ok.
    assert (Hbyte : ∀ k b, le_bytes len mask !! k = Some b →
              (k < len)%nat ∧ (0 ≤ b < 256)%Z ∧
              Z.testbit b 7 = Z.testbit mask (8 * Z.of_nat k + 7)).
    { intros k b Hk.
      assert (k < len)%nat as Hlt.
      { apply lookup_lt_Some in Hk. by rewrite le_bytes_length in Hk. }
      rewrite le_bytes_lookup in Hk by done. injection Hk as <-.
      change 255%Z with (Z.ones 8). rewrite Z.land_ones by lia.
      split; [done|]. split; [apply Z.mod_pos_bound; lia|].
      rewrite Z.mod_pow2_bits_low by lia.
      rewrite Z.shiftr_spec by lia. f_equal. lia. }
    destruct (decode_ascii_result (le_bytes len mask)) as [He Ho]. split.
    + rewrite He. split.
      * intros (k & b & Hk & Hge).
        destruct (Hbyte _ _ Hk) as (Hlt & Hb & Hbit).
        exists k. split; [done|]. rewrite <-Hbit. by apply byte_high_bit.
      * intros (k & Hlt & Hbit).
        exists k, (Z.land (Z.shiftr mask (8 * Z.of_nat k)) 255).
        assert (Hk : le_bytes len mask !! k =
                     Some (Z.land (Z.shiftr mask (8 * Z.of_nat k)) 255))
          by by apply le_bytes_lookup.
        split; [done|].
        destruct (Hbyte _ _ Hk) as (_ & Hb & Hbit').
        apply byte_high_bit; [done|]. by rewrite Hbit'.
    + intros Hall. destruct Ho as [text Ht].
      { intros k b Hk. destruct (Hbyte _ _ Hk) as (Hlt & Hb & Hbit).
        destruct (decide (128 ≤ b)%Z) as [Hge|]; [|lia].
        apply byte_high_bit in Hge; [|done].
        rewrite Hbit, (Hall k Hlt) in Hge. done. }
      exists text. split; [done|].
      apply (mask_bit_bytes mask len text).
      unfold to_bytes. by rewrite Hrange, bind_Ok.
Qed.

(** ** The call orchestrator [compile_FunctionCall] *)

Section Compile.

(** *** The call expression and its arguments *)

(** The [qlast] expressions, the expression compiler and the AST helpers are
    outside the source file: they are parameters. *)
Context {qlexpr : Type}.
(** [astutils.ensure_qlstmt(arg_ql)] *)
Variable ensure_qlstmt : qlexpr → qlexpr.
(** [arg_ql.where = astutils.extend_qlbinop(arg_ql.where, arg.filter)] *)
Variable extend_where : qlexpr → qlexpr → qlexpr.
(** [arg_ql.orderby = arg.sort + arg_ql.orderby] *)
Variable prepend_orderby : list qlexpr → qlexpr → qlexpr.
(** [dispatch.compile(arg_ql, ctx=fencectx)], under the fenced scope *)
Variable dispatch_compile : qlexpr → ContextLevel → res ir.
(** [setgen.scoped_set(ir, ctx=fencectx)] *)
Variable scoped_set : ir → ContextLevel → res ir.
(** [irutils.infer_type(ir, schema)]; [None] when the type is unknown *)
Variable infer_type : ir → schema_t → option stype.
(** [ctx.func.params.get_by_name(name)] *)
Variable params_get_by_name : list FuncParameter → string → option FuncParameter.
(** [fctx.schema.get_functions(funcname, module_aliases=fctx.modaliases)] *)
Variable schema_get_functions : ContextLevel → Name → res (option (list Function)).

(** [qlast.FuncArg] *)
Record FuncArg : Type := mkFuncArg {
  fa_arg : qlexpr;
  fa_sort : list qlexpr;
  fa_filter : option qlexpr
}.

(** [expr.func]: a bare name, or a (module, name) pair. *)
Inductive FuncRef : Type :=
  | FuncStr (name : string)
  | FuncQualified (module name : string).

(** [qlast.FunctionCall]; [ql_kwargs] lists the items of the [kwargs] dict
    in iteration order. *)
Record QlFunctionCall : Type := mkQlFunctionCall {
  ql_func : FuncRef;
  ql_args : list FuncArg;
  ql_kwargs : list (string * FuncArg)
}.

Definition compile_call_arg (arg : FuncArg) (ctx : ContextLevel) : res ir :=
  let arg_ql := fa_arg arg in
  let arg_ql :=
    if bool_decide (fa_sort arg ≠ []) || bool_decide (is_Some (fa_filter arg))
    then
      let arg_ql := ensure_qlstmt arg_ql in
      let arg_ql :=
        match fa_filter arg with
        | Some flt => extend_where arg_ql flt
        | None => arg_ql
        end in
      match fa_sort arg with
      | [] => arg_ql
      | sort => prepend_orderby sort arg_ql
      end
    else arg_ql in
  e ← dispatch_compile arg_ql ctx;
  scoped_set e ctx.

Definition compile_call_args (expr : QlFunctionCall) (funcname : Name)
    (ctx : ContextLevel)
  : res (list (stype * ir) * gmap string (stype * ir)) :=
  args ←
    foldM (λ args arg,
             arg_ir ← compile_call_arg arg ctx;
             match infer_type arg_ir (ctx_schema ctx) with
             | None =>
                 Err (EdgeQLError
                        "could not resolve the type of positional argument")
             | Some arg_type => Ok (args ++ [(arg_type, arg_ir)])
             end)
          [] (ql_args expr);
  kwargs ←
    foldM (λ (kwargs : gmap string (stype * ir)) '(aname, arg),
             arg_ir ← compile_call_arg arg ctx;
             match infer_type arg_ir (ctx_schema ctx) with
             | None =>
                 Err (EdgeQLError
                        "could not resolve the type of named argument")
             | Some arg_type => Ok (<[aname := (arg_type, arg_ir)]> kwargs)
             end)
          ∅ (ql_kwargs expr);
  Ok (args, kwargs).

(** *** The call node *)

(** [irast.FunctionCall] *)
Record FunctionCall : Type := mkFunctionCall {
  fc_func : Function;
  fc_args : option (list ir);
  fc_type : option stype;
  fc_has_empty_variadic : bool;
  fc_initial_value : option ir
}.

(** [irutils.infer_type(node, fctx.schema)] on the call node *)
Variable infer_call_type : FunctionCall → schema_t → stype.
(** [dispatch.compile(qlast.TypeCast(expr=qlparser.parse_fragment(iv),
    type=typegen.type_to_ql_typeref(rtype)), ctx=fctx)] *)
Variable compile_type_cast : string → stype → ContextLevel → res ir.

(** The value [setgen.ensure_set(node, typehint=.., ctx=ctx)] returned by
    [compile_FunctionCall], kept symbolic like [EnsureSet]. *)
Record CallSet : Type := mkCallSet {
  cs_node : FunctionCall;
  cs_typehint : option stype
}.

(** The head of [compile_FunctionCall]: the name to resolve. A bare name
    that is a parameter of the enclosing function is not callable. *)
Definition call_funcname (expr : QlFunctionCall) (ctx : ContextLevel)
  : res Name :=
  match ql_func expr with
  | FuncStr name =>
      if bool_decide (is_Some (ctx_func ctx ≫= λ f,
                                 params_get_by_name (func_params f) name))
      then Err (EdgeQLError "parameter is not callable")
      else Ok (Unqualified name)
  | FuncQualified module name => Ok (SchemaName name module)
  end.

(** The tail of [compile_FunctionCall]: the node built from the selected
    match, with the function's initial value compiled into it. *)
Definition build_call_node (f : Function) (matched_call : BoundCall)
    (fctx : ContextLevel) : res FunctionCall :=
  let node := mkFunctionCall f (bc_args matched_call)
                (bc_return_type matched_call)
                (bc_has_empty_variadic matched_call) None in
  match func_initial_value f with
  | None => Ok node
  | Some initial_value =>
      let rtype := infer_call_type node (ctx_schema fctx) in
      iv ← compile_type_cast initial_value rtype fctx;
      Ok (mkFunctionCall f (bc_args matched_call)
            (bc_return_type matched_call)
            (bc_has_empty_variadic matched_call) (Some iv))
  end.

(** [compile_FunctionCall]. The sub-context [fctx = ctx.new()] has the
    function and the catalog of [ctx]; its flag [in_func_call] is read by the
    expression compiler only. *)
Definition compile_FunctionCall (expr : QlFunctionCall) (ctx : ContextLevel)
  : res CallSet :=
  let fctx := ctx in
  funcname ← call_funcname expr ctx;
  funcs ← schema_get_functions fctx funcname;
  match funcs with
  | None => Err (EdgeQLError "could not resolve function name")
  | Some funcs =>
      '(args, kwargs) ← compile_call_args expr funcname fctx;
      matched_call ← select_call ctx (name_str funcname) funcs args kwargs;
      match bc_func matched_call with
      | None => Err (EdgeQLError "could not find a function variant")
      | Some f =>
          node ← build_call_node f matched_call fctx;
          Ok (mkCallSet node (bc_return_type matched_call))
      end
  end.




(** *** What the orchestrator returns *)

Lemma select_step_result no_args matched call m :
  select_step no_args matched call = Ok m →
  m = matched ∨ (m = call ∧ is_match call = true).
Proof.
  unfold select_step, is_match.
  destruct (bc_args call); [|intros [= <-]; by left].
  destruct (bc_args matched); [|intros [= <-]; by right].
  destruct (bc_used_implicit_casts matched && negb (bc_used_implicit_casts call));
    destruct no_args; intros [= <-]; [by right | by left].
Qed.

Lemma select_loop_result ctx funcname fac args kwargs funcs acc m :
  foldM (λ matched_call f,
           call ← try_bind_func_args args kwargs funcname f fac ctx;
           select_step (no_args_call args kwargs) matched_call call)
        acc funcs = Ok m →
  m = acc ∨
  ∃ f, f ∈ funcs ∧
       try_bind_func_args args kwargs funcname f fac ctx = Ok m ∧
       is_match m = true.
Proof.
  revert acc. induction funcs as [|f funcs IH]; intros acc Hf; simpl in Hf.
  - injection Hf as <-. by left.
  - inv_bind Hf. inv_bind Hbind. rename a0 into call.
    destruct (IH _ Hf) as [->|(f' & ? & ? & ?)].
    + destruct (select_step_result _ _ _ _ Hbind) as [->|[-> Hm]];
        [by left|].
      right. exists f. split; [left|done].
    + right. exists f'. split; [by right|done].
Qed.

Lemma select_loop_no_match ctx funcname fac args kwargs funcs acc :
  (∀ f, f ∈ funcs →
        ∃ call, try_bind_func_args args kwargs funcname f fac ctx = Ok call ∧
                is_match call = false) →
  foldM (λ matched_call f,
           call ← try_bind_func_args args kwargs funcname f fac ctx;
           select_step (no_args_call args kwargs) matched_call call)
        acc funcs = Ok acc.
Proof.
  induction funcs as [|f funcs IH]; intros Hall; simpl; [done|].
  destruct (Hall f) as (call & -> & Hm); [left|].
  rewrite bind_Ok, (select_step_no_match _ _ _ Hm), bind_Ok.
  apply IH. intros f' Hf'. apply Hall. by right.
Qed.

(** X17: what a successful call compiles to. When [compile_FunctionCall]
    returns, the name resolved to an overload group, the arguments compiled,
    and the function of the call node is a candidate of that group whose
    binding attempt on those arguments matched; the node carries the
    arguments, the return type and the empty-variadic flag of that match, and
    the result is typed by that return type. *)
Theorem orchestrator_selects_candidate (expr : QlFunctionCall)
    (ctx : ContextLevel) (r : CallSet) :
  compile_FunctionCall expr ctx = Ok r →
  ∃ funcname funcs args kwargs call,
    call_funcname expr ctx = Ok funcname ∧
    schema_get_functions ctx funcname = Ok (Some funcs) ∧
    compile_call_args expr funcname ctx = Ok (args, kwargs) ∧
    fc_func (cs_node r) ∈ funcs ∧
    try_bind_func_args args kwargs (name_str funcname) (fc_func (cs_node r))
      (bool_decide (length funcs = 1)) ctx = Ok call ∧
    is_match call = true ∧
    fc_args (cs_node r) = bc_args call ∧
    fc_type (cs_node r) = bc_return_type call ∧
    fc_has_empty_variadic (cs_node r) = bc_has_empty_variadic call ∧
    cs_typehint r = bc_return_type call.
Proof.
  unfold compile_FunctionCall. intros Hc.
  inv_bind Hc. rename a into funcname.
  inv_bind Hc. destruct a as [funcs|]; [|done].
  inv_bind Hc. destruct a as [args kwargs].
  inv_bind Hc. rename a into m.
  destruct (bc_func m) as [f|] eqn:Hf; [|done].
  inv_bind Hc. rename a into node. injection Hc as <-.
  unfold select_call in Hbind2.
  destruct (select_loop_result _ _ _ _ _ _ _ _ Hbind2)
    as [->|(f' & Hin & Hb & Hm)]; [done|].
  pose proof (try_bind_match_func _ _ _ _ _ _ _ Hb Hm) as Hf'.
  assert (f' = f) as -> by congruence.
  assert (Hnode : fc_func node = f ∧ fc_args node = bc_args m ∧
                  fc_type node = bc_return_type m ∧
                  fc_has_empty_variadic node = bc_has_empty_variadic m).
  { unfold build_call_node in Hbind3.
    destruct (func_initial_value f).
    - inv_bind Hbind3. by injection Hbind3 as <-.
    - by injection Hbind3 as <-. }
  destruct Hnode as (Hn1 & Hn2 & Hn3 & Hn4).
  exists funcname, funcs, args, kwargs, m. simpl.
  rewrite Hn1. repeat split; done.
Qed.

(** X18: no candidate matches. When the name resolves to an overload group
    and the arguments compile, and the binding attempt on every candidate of
    the group returns without matching (as for an empty group), the call
    fails with the error of a missing function variant. *)
Theorem no_candidate_matches (expr : QlFunctionCall) (ctx : ContextLevel)
    (funcname : Name) (funcs : list Function) (args : list (stype * ir))
    (kwargs : gmap string (stype * ir)) :
  call_funcname expr ctx = Ok funcname →
  schema_get_functions ctx funcname = Ok (Some funcs) →
  compile_call_args expr funcname ctx = Ok (args, kwargs) →
  (∀ f, f ∈ funcs →
        ∃ call, try_bind_func_args args kwargs (name_str funcname) f
                  (bool_decide (length funcs = 1)) ctx = Ok call ∧
                is_match call = false) →
  compile_FunctionCall expr ctx =
  Err (EdgeQLError "could not find a function variant").
Proof.
  intros Hname Hfuncs Hargs Hall. unfold compile_FunctionCall.
  rewrite Hname, bind_Ok, Hfuncs, bind_Ok, Hargs, bind_Ok.
  unfold select_call. by rewrite (select_loop_no_match _ _ _ _ _ _ _ Hall).
Qed.

(** *** The compiled arguments *)

(** An argument compiles to [e], of the inferred type [t]. *)
Definition compiles_to (ctx : ContextLevel) (arg : FuncArg)
    (c : stype * ir) : Prop :=
  compile_call_arg arg ctx = Ok c.2 ∧
  infer_type c.2 (ctx_schema ctx) = Some c.1.

Lemma compile_positional_fold ctx (l : list FuncArg) acc args :
  foldM (λ args arg,
           arg_ir ← compile_call_arg arg ctx;
           match infer_type arg_ir (ctx_schema ctx) with
           | None =>
               Err (EdgeQLError
                      "could not resolve the type of positional argument")
           | Some arg_type => Ok (args ++ [(arg_type, arg_ir)])
           end)
        acc l = Ok args →
  ∃ new, args = acc ++ new ∧ Forall2 (compiles_to ctx) l new.
Proof.
  revert acc. induction l as [|arg l IH]; intros acc Hf; simpl in Hf.
  - injection Hf as <-. exists []. by rewrite app_nil_r.
  - inv_bind Hf. inv_bind Hbind. rename a0 into e.
    destruct (infer_type e (ctx_schema ctx)) as [t|] eqn:Ht; [|done].
    injection Hbind as <-.
    destruct (IH _ Hf) as (new & -> & Hall).
    exists ((t, e) :: new). split; [by rewrite <-app_assoc|].
    constructor; [done|exact Hall].
Qed.

Lemma compile_named_fold ctx (l : list (string * FuncArg))
    (acc kwargs : gmap string (stype * ir)) :
  foldM (λ (kwargs : gmap string (stype * ir)) '(aname, arg),
           arg_ir ← compile_call_arg arg ctx;
           match infer_type arg_ir (ctx_schema ctx) with
           | None =>
               Err (EdgeQLError
                      "could not resolve the type of named argument")
           | Some arg_type => Ok (<[aname := (arg_type, arg_ir)]> kwargs)
           end)
        acc l = Ok kwargs →
  (∀ k, is_Some (kwargs !! k) ↔ is_Some (acc !! k) ∨ k ∈ l.*1) ∧
  (∀ k c, kwargs !! k = Some c →
          acc !! k = Some c ∨
          ∃ arg, (k, arg) ∈ l ∧ compiles_to ctx arg c).
Proof.
  revert acc. induction l as [|[aname arg] l IH]; intros acc Hf; simpl in Hf.
  - injection Hf as <-. split.
    + intros k. split; [by left|]. intros [?|Hk]; [done|].
      by apply elem_of_nil in Hk.
    + intros k c Hk. by left.
  - inv_bind Hf. inv_bind Hbind. rename a0 into e.
    destruct (infer_type e (ctx_schema ctx)) as [t|] eqn:Ht; [|done].
    injection Hbind as <-.
    destruct (IH _ Hf) as [Hdom Hval]. split.
    + intros k. rewrite Hdom, fmap_cons, elem_of_cons. simpl.
      destruct (decide (aname = k)) as [->|Hne].
      * rewrite lookup_insert_eq. split; [intros _; right; by left|].
        intros _. left. by eexists.
      * rewrite lookup_insert_ne by done. split.
        -- intros [?|?]; [by left | right; by right].
        -- intros [?|[?|?]]; [by left | congruence | by right].
    + intros k c Hk. destruct (Hval _ _ Hk) as [Hacc|(arg' & Hin & Hc)].
      * destruct (decide (aname = k)) as [->|Hne].
        -- rewrite lookup_insert_eq in Hacc. injection Hacc as <-.
           right. exists arg. split; [left|done].
        -- rewrite lookup_insert_ne in Hacc by done. by left.
      * right. exists arg'. split; [by right|done].
Qed.

Lemma compile_named_fold_none ctx (l : list (string * FuncArg))
    (acc kwargs : gmap string (stype * ir)) k arg e :
  (k, arg) ∈ l →
  compile_call_arg arg ctx = Ok e →
  infer_type e (ctx_schema ctx) = None →
  foldM (λ (kwargs : gmap string (stype * ir)) '(aname, arg),
           arg_ir ← compile_call_arg arg ctx;
           match infer_type arg_ir (ctx_schema ctx) with
           | None =>
               Err (EdgeQLError
                      "could not resolve the type of named argument")
           | Some arg_type => Ok (<[aname := (arg_type, arg_ir)]> kwargs)
           end)
        acc l = Ok kwargs →
  False.
Proof.
  intros Hin He Hnone. revert acc.
  induction l as [|[aname arg0] l IH]; intros acc Hf.
  - by apply elem_of_nil in Hin.
  - simpl in Hf. inv_bind Hf. inv_bind Hbind. rename a0 into e0.
    destruct (infer_type e0 (ctx_schema ctx)) as [t|] eqn:Ht; [|done].
    injection Hbind as <-.
    apply elem_of_cons in Hin as [[= <- <-]|Hin].
    + rewrite He in Hbind0. injection Hbind0 as <-. congruence.
    + exact (IH Hin _ Hf).
Qed.

(** X19: the compiled arguments follow the call. When [compile_call_args]
    returns, the positional arguments are the compiled arguments of the call,
    one for one and in order, each paired with its inferred type; the named
    arguments have exactly the names of the call, each bound to a compiled
    argument of that name and its inferred type. An argument whose type
    cannot be inferred makes the compilation fail. *)
Theorem compiled_args_follow_call (expr : QlFunctionCall) (funcname : Name)
    (ctx : ContextLevel) :
  (∀ args kwargs,
     compile_call_args expr funcname ctx = Ok (args, kwargs) →
     Forall2 (compiles_to ctx) (ql_args expr) args ∧
     (∀ k, is_Some (kwargs !! k) ↔ k ∈ (ql_kwargs expr).*1) ∧
     (∀ k c, kwargs !! k = Some c →
             ∃ arg, (k, arg) ∈ ql_kwargs expr ∧ compiles_to ctx arg c)) ∧
  (∀ arg e,
     arg ∈ ql_args expr ∨ (∃ k, (k, arg) ∈ ql_kwargs expr) →
     compile_call_arg arg ctx = Ok e →
     infer_type e (ctx_schema ctx) = None →
     ∀ r, compile_call_args expr funcname ctx ≠ Ok r).
Proof.
  split.
  - intros args kwargs Hc. unfold compile_call_args in Hc.
    inv_bind Hc. inv_bind Hc. injection Hc as <- <-.
    destruct (compile_positional_fold _ _ _ _ Hbind) as (new & -> & Hall).
    destruct (compile_named_fold _ _ _ _ Hbind0) as [Hdom Hval].
    split; [exact Hall|]. split.
    + intros k. rewrite Hdom, lookup_empty. split; [|by right].
      intros [[? ?]|?]; done.
    + intros k c Hk. destruct (Hval _ _ Hk) as [Hacc|?]; [|done].
      by rewrite lookup_empty in Hacc.
  - intros arg e Hin He Hnone [args kwargs] Hc.
    unfold compile_call_args in Hc.
    inv_bind Hc. inv_bind Hc. injection Hc as <- <-.
    destruct (compile_positional_fold _ _ _ _ Hbind) as (new & -> & Hall).
    destruct Hin as [Hin|[k Hin]].
    + apply list_elem_of_lookup in Hin as [i Hi].
      destruct (Forall2_lookup_l _ _ _ _ _ Hall Hi) as (c & _ & Hc1 & Hc2).
      rewrite He in Hc1. injection Hc1 as ->. congruence.
    + exact (compile_named_fold_none _ _ _ _ _ _ _ Hin He Hnone Hbind0).
Qed.


End Compile.

End Binding.

(** ** A sample type model and sample functions

    The parameters of the binder are instantiated with a small type model:
    scalar types, the placeholder [anytype] and arrays; [int64] casts
    implicitly to [float64]. *)

Inductive sample_type : Type :=
  | T_int64
  | T_float64
  | T_str
  | T_bytes
  | T_anytype
  | T_array (elem : sample_type).

Global Instance sample_type_eq_dec : EqDecision sample_type.
Proof. solve_decision. Defined.

Fixpoint sample_is_polymorphic (t : sample_type) : bool :=
  match t with
  | T_anytype => true
  | T_array e => sample_is_polymorphic e
  | _ => false
  end.

Fixpoint sample_resolve (self other : sample_type) : option sample_type :=
  match self, other with
  | T_anytype, _ => Some other
  | T_array s, T_array o => sample_resolve s o
  | _, _ => None
  end.

(** Only a polymorphic type resolves, and only against a concrete one. *)
Definition sample_resolve_polymorphic (self other : sample_type)
  : option sample_type :=
  if sample_is_polymorphic self && negb (sample_is_polymorphic other)
  then sample_resolve self other
  else None.

Fixpoint sample_issubclass (t parent : sample_type) : bool :=
  match t, parent with
  | _, T_anytype => true
  | T_array e, T_array p => sample_issubclass e p
  | _, _ => bool_decide (t = parent)
  end.

Definition sample_implicitly_castable_to (t target : sample_type) (_ : unit)
  : bool :=
  match t, target with
  | T_int64, T_float64 => true
  | _, _ => false
  end.

Fixpoint sample_to_nonpolymorphic (self concrete : sample_type) : sample_type :=
  match self with
  | T_anytype => concrete
  | T_array e => T_array (sample_to_nonpolymorphic e concrete)
  | _ => self
  end.

Definition sample_get_subtypes (t : sample_type) : list sample_type :=
  match t with
  | T_array e => [e]
  | _ => []
  end.

Definition sample_type_name (t : sample_type) : string :=
  match t with
  | T_int64 => "std::int64"
  | T_float64 => "std::float64"
  | T_str => "std::str"
  | T_bytes => "std::bytes"
  | T_anytype => "std::any"
  | T_array _ => "array"
  end.

Definition sample_schema_get (_ : unit) (name : string) : res sample_type :=
  if decide (name = "std::bytes") then Ok T_bytes else Err ItemNotFoundError.

Definition sample_get_ir_default (p : @FuncParameter sample_type) (_ : unit)
  : @ir sample_type :=
  match param_default p with
  | Some d => IRDefault d
  | None => IRNone
  end.

Definition sample_is_empty (e : @ir sample_type) : bool :=
  match e with
  | IRDefault d => bool_decide (d = "{}")
  | _ => false
  end.

(** Modelled from the spec: [as_pg_params] is a method of the function
    model, outside the source file. The spec lays the parameters out as all
    NAMED_ONLY parameters first (by declaration order), then the POSITIONAL
    ones and the trailing VARIADIC one; a required parameter is a POSITIONAL
    or NAMED_ONLY parameter without default. *)
Definition spec_as_pg_params (params : list (@FuncParameter sample_type))
  : PgParams :=
  mkPgParams
    (filter (λ p, param_kind p = NAMED_ONLY) params ++
     filter (λ p, param_kind p ≠ NAMED_ONLY) params)
    (existsb (λ p, bool_decide (param_kind p ≠ VARIADIC) &&
                   bool_decide (param_default p = None)) params).

Definition sample_params_is_polymorphic
    (params : list (@FuncParameter sample_type)) : bool :=
  existsb (λ p, sample_is_polymorphic (param_type p)) params.

Definition sample_try_bind :=
  try_bind_func_args sample_is_polymorphic sample_resolve_polymorphic
    sample_issubclass sample_implicitly_castable_to sample_to_nonpolymorphic
    sample_get_subtypes sample_type_name sample_schema_get
    sample_get_ir_default sample_is_empty spec_as_pg_params
    sample_params_is_polymorphic.


Definition positional (name : string) (t : sample_type)
    (default : option string) : FuncParameter :=
  mkFuncParameter name POSITIONAL t SINGLETON default.
Definition named_only (name : string) (t : sample_type)
    (default : option string) : FuncParameter :=
  mkFuncParameter name NAMED_ONLY t SINGLETON default.
Definition variadic (name : string) (t : sample_type) : FuncParameter :=
  mkFuncParameter name VARIADIC (T_array t) SINGLETON None.

(** [f(x: int64, NAMED ONLY y: str = "a") -> str], in the query language *)
Definition f_xy : Function :=
  mkFunction "f" [positional "x" T_int64 None;
                  named_only "y" T_str (Some "'a'")] T_str EdgeQL None.
(** [g(x: float64) -> float64] and [g(x: int64) -> int64], native *)
Definition g_float : Function :=
  mkFunction "g" [positional "x" T_float64 None] T_float64 SQL None.
Definition g_int : Function :=
  mkFunction "g" [positional "x" T_int64 None] T_int64 SQL None.
(** [h() -> int64] native, [h() -> str] in the query language,
    [h(x: int64 = 1) -> int64] native *)
Definition h_native : Function := mkFunction "h" [] T_int64 SQL None.
Definition h_edgeql : Function := mkFunction "h" [] T_str EdgeQL None.
Definition h_default : Function :=
  mkFunction "h" [positional "x" T_int64 (Some "1")] T_int64 SQL None.
(** [v(x: int64 = 0, VARIADIC xs: int64) -> int64], native *)
Definition v_variadic : Function :=
  mkFunction "v" [positional "x" T_int64 (Some "0"); variadic "xs" T_int64]
             T_int64 SQL None.

(** A call site at top level, and one inside the polymorphic [p]. *)
Definition ctx_top : @ContextLevel sample_type unit := mkContext None ().

Definition arg_1 : sample_type * @ir sample_type := (T_int64, IRExpr 1).
Definition arg_b : sample_type * @ir sample_type := (T_str, IRExpr 2).

Definition no_kwargs : gmap string (sample_type * @ir sample_type) := ∅.

Definition text_of_byte (n : N) : string := String (Ascii.ascii_of_N n) EmptyString.

Example f_1_binds :
  sample_try_bind [arg_1] no_kwargs "f" f_xy true ctx_top =
  Ok (mkBoundCall (Some f_xy)
        (Some [EnsureSet (BytesConstant (text_of_byte 1) T_bytes) T_bytes;
               EnsureSet (EmptySet T_str "y") T_str;
               IRExpr 1])
        (Some T_str) false false).
Proof. vm_compute. reflexivity. Qed.


Definition sample_select_call :=
  select_call sample_is_polymorphic sample_resolve_polymorphic
    sample_issubclass sample_implicitly_castable_to sample_to_nonpolymorphic
    sample_get_subtypes sample_type_name sample_schema_get
    sample_get_ir_default sample_is_empty spec_as_pg_params
    sample_params_is_polymorphic.

Definition sample_bind_arguments :=
  bind_arguments sample_is_polymorphic sample_resolve_polymorphic
    sample_issubclass sample_implicitly_castable_to sample_get_subtypes
    sample_params_is_polymorphic.

Definition sample_bind_steps :=
  bind_steps sample_is_polymorphic sample_resolve_polymorphic
    sample_issubclass sample_implicitly_castable_to sample_get_subtypes
    sample_params_is_polymorphic.

Definition call_g_float : @BoundCall sample_type :=
  mkBoundCall (Some g_float) (Some [IRExpr 1]) (Some T_float64) true false.
Definition call_g_int : @BoundCall sample_type :=
  mkBoundCall (Some g_int) (Some [IRExpr 1]) (Some T_int64) false false.
Definition call_f_1 : @BoundCall sample_type :=
  mkBoundCall (Some f_xy)
    (Some [EnsureSet (BytesConstant (text_of_byte 1) T_bytes) T_bytes;
           EnsureSet (EmptySet T_str "y") T_str;
           IRExpr 1])
    (Some T_str) false false.
Definition call_f_1_b : @BoundCall sample_type :=
  mkBoundCall (Some f_xy)
    (Some [EnsureSet (BytesConstant (text_of_byte 0) T_bytes) T_bytes;
           IRExpr 2;
           IRExpr 1])
    (Some T_str) false false.

(** [h()] on the query-language [h]: one constant with the text [\x00]. *)
Lemma zero_params_binding_witness :
  func_params h_edgeql = [] ∧
  (func_language h_edgeql = EdgeQL →
   sample_schema_get () "std::bytes" = Ok T_bytes) ∧
  ∃ call,
    sample_try_bind [] no_kwargs "h" h_edgeql true ctx_top = Ok call ∧
    (is_match call = true ↔ [] = @nil (sample_type * @ir sample_type) ∧ no_kwargs = ∅) ∧
    (@nil (sample_type * @ir sample_type) = [] → no_kwargs = ∅ →
     bc_func call = Some h_edgeql ∧
     bc_args call =
       Some (if decide (func_language h_edgeql = EdgeQL)
             then [EnsureSet (BytesConstant "\x00" T_bytes) T_bytes]
             else [])).
Proof.
  assert (H1 : func_params h_edgeql = []) by reflexivity.
  assert (H2 : func_language h_edgeql = EdgeQL →
               sample_schema_get () "std::bytes" = Ok T_bytes)
    by (intros _; reflexivity).
  split; [exact H1|]. split; [exact H2|].
  exact (zero_params_binding sample_is_polymorphic sample_resolve_polymorphic
           sample_issubclass sample_implicitly_castable_to
           sample_to_nonpolymorphic sample_get_subtypes sample_type_name
           sample_schema_get sample_get_ir_default sample_is_empty
           spec_as_pg_params sample_params_is_polymorphic
           ctx_top [] no_kwargs "h" h_edgeql true
           T_bytes H1 H2).
Defined.

(** [g(1)] against [g(float64)] then [g(int64)]: the later, exact match is
    selected over the earlier one that needs the implicit cast. *)
Lemma selection_prefers_no_implicit_cast_witness :
  no_args_call [arg_1] no_kwargs = false ∧
  mapM (λ f, sample_try_bind [arg_1] no_kwargs "g" f
               (bool_decide (length [g_float; g_int] = 1)) ctx_top)
       [g_float; g_int] = Ok [call_g_float; call_g_int] ∧
  sample_select_call ctx_top "g" [g_float; g_int] [arg_1] no_kwargs =
    Ok (preferred [call_g_float; call_g_int]) ∧
  preferred [call_g_float; call_g_int] = call_g_int.
Proof.
  assert (H1 : no_args_call [arg_1] no_kwargs = false) by reflexivity.
  assert (H2 : mapM (λ f, sample_try_bind [arg_1] no_kwargs "g" f
                            (bool_decide (length [g_float; g_int] = 1))
                            ctx_top)
                    [g_float; g_int] = Ok [call_g_float; call_g_int])
    by (vm_compute; reflexivity).
  split; [exact H1|]. split; [exact H2|]. split; [|reflexivity].
  exact (proj2 (selection_prefers_no_implicit_cast sample_is_polymorphic sample_resolve_polymorphic
           sample_issubclass sample_implicitly_castable_to
           sample_to_nonpolymorphic sample_get_subtypes sample_type_name
           sample_schema_get sample_get_ir_default sample_is_empty
           spec_as_pg_params sample_params_is_polymorphic
           ctx_top "g"
                  [g_float; g_int] [arg_1] no_kwargs
                  [call_g_float; call_g_int] H1 H2)).
Defined.

(** The expression side of the sample model: an argument expression is a
    literal, given by its number; it compiles to the IR expression of that
    number, whose type is [int64] for 1, [str] for 2 and the placeholder for
    3. *)
Definition sample_dispatch_compile (e : nat)
    (_ : @ContextLevel sample_type unit) : res (@ir sample_type) :=
  Ok (IRExpr e).

Definition sample_scoped_set (e : @ir sample_type)
    (_ : @ContextLevel sample_type unit) : res (@ir sample_type) :=
  Ok e.

Definition sample_infer_type (e : @ir sample_type) (_ : unit)
  : option sample_type :=
  match e with
  | IRExpr 1 => Some T_int64
  | IRExpr 2 => Some T_str
  | IRExpr 3 => Some T_anytype
  | _ => None
  end.

(** Modelled from the spec: [params.get_by_name] is a method of the function
    model, outside the source file; it looks a parameter up by its name. *)
Definition sample_params_get_by_name
    (params : list (@FuncParameter sample_type)) (name : string)
  : option FuncParameter :=
  List.find (λ p, bool_decide (param_name p = name)) params.

(** [a() -> int64], native: a function named like a parameter of [p] *)
Definition a_native : Function := mkFunction "a" [] T_int64 SQL None.
(** [d(a: anytype = {}) -> int64], [d() -> int64] and
    [d(x: int64 = 1) -> int64], native *)
Definition d_any : Function :=
  mkFunction "d" [positional "a" T_anytype (Some "{}")] T_int64 SQL None.
Definition d_zero : Function := mkFunction "d" [] T_int64 SQL None.
Definition d_default : Function :=
  mkFunction "d" [positional "x" T_int64 (Some "1")] T_int64 SQL None.
(** [s() -> int64], native, with the initial value [0] *)
Definition s_init : Function := mkFunction "s" [] T_int64 SQL (Some "0").

(** The overload groups of the sample catalog. *)
Definition sample_get_functions (_ : @ContextLevel sample_type unit)
    (name : Name) : res (option (list (@Function sample_type))) :=
  if decide (name = Unqualified "h") then Ok (Some [h_native; h_default])
  else if decide (name = Unqualified "k") then Ok (Some [h_native; g_int])
  else if decide (name = Unqualified "a") then Ok (Some [a_native])
  else if decide (name = Unqualified "d")
       then Ok (Some [d_any; d_zero; d_default])
  else if decide (name = Unqualified "s") then Ok (Some [s_init])
  else Err ItemNotFoundError.

Definition sample_infer_call_type (node : @FunctionCall sample_type) (_ : unit)
  : sample_type :=
  default T_anytype (fc_type node).

Definition sample_compile_type_cast (initial_value : string)
    (rtype : sample_type) (_ : @ContextLevel sample_type unit)
  : res (@ir sample_type) :=
  Ok (EnsureSet (IRDefault initial_value) rtype).

Definition sample_compile_FunctionCall :=
  compile_FunctionCall sample_is_polymorphic sample_resolve_polymorphic
    sample_issubclass sample_implicitly_castable_to sample_to_nonpolymorphic
    sample_get_subtypes sample_type_name sample_schema_get
    sample_get_ir_default sample_is_empty spec_as_pg_params
    sample_params_is_polymorphic
    (λ e : nat, e) (λ e _, e) (λ _ e, e)
    sample_dispatch_compile sample_scoped_set sample_infer_type
    sample_params_get_by_name sample_get_functions
    sample_infer_call_type sample_compile_type_cast.

(** The call [name()], without arguments. *)
Definition call_expr (name : string) : @QlFunctionCall nat :=
  mkQlFunctionCall (FuncStr name) [] [].

Definition call_s_init : @BoundCall sample_type :=
  mkBoundCall (Some s_init) (Some []) (Some T_int64) false false.



(** [s()], whose only candidate has an initial value: the node carries the
    compiled initial value. *)
Example call_with_initial_value :
  sample_compile_FunctionCall (call_expr "s") ctx_top =
  Ok (mkCallSet
        (mkFunctionCall s_init (Some []) (Some T_int64) false
                        (Some (EnsureSet (IRDefault "0") T_int64)))
        (Some T_int64)).
Proof. vm_compute. reflexivity. Qed.

Definition call_v : @BoundCall sample_type :=
  mkBoundCall (Some v_variadic) (Some [EnsureSet (IRDefault "0") T_int64])
              (Some T_int64) false true.




(** [v()] on [v(x: int64 = 0, VARIADIC xs: int64)]: [x] is filled from its
    default, [xs] matches zero arguments and sets the flag. *)
Lemma trailing_defaults_phase_witness :
  bind_trailing [positional "x" T_int64 (Some "0"); variadic "xs" T_int64]
                [] false false =
    Ok (Some ([(positional "x" T_int64 (Some "0"), IRNone)], true, true)) ∧
  bind_trailing [positional "x" T_int64 None; variadic "xs" T_int64]
                [] false false = Ok None ∧
  sample_try_bind [] no_kwargs "v" v_variadic true ctx_top = Ok call_v ∧
  ∃ b, sample_bind_arguments ctx_top [] no_kwargs
         (pg_params (spec_as_pg_params (func_params v_variadic))) =
         Ok (Some b) ∧
       bc_has_empty_variadic call_v = existsb is_variadic (b_rest b).
Proof.
  destruct (trailing_defaults_phase sample_is_polymorphic sample_resolve_polymorphic
           sample_issubclass sample_implicitly_castable_to
           sample_to_nonpolymorphic sample_get_subtypes sample_type_name
           sample_schema_get sample_get_ir_default sample_is_empty
           spec_as_pg_params sample_params_is_polymorphic) as [Hphase Hflag].
  assert (H1 : Forall (λ p : @FuncParameter sample_type,
                         param_kind p ≠ NAMED_ONLY)
                      [positional "x" T_int64 (Some "0");
                       variadic "xs" T_int64])
    by (repeat constructor; discriminate).
  assert (H2 : Forall (λ p : @FuncParameter sample_type,
                         param_kind p ≠ NAMED_ONLY)
                      [positional "x" T_int64 None; variadic "xs" T_int64])
    by (repeat constructor; discriminate).
  assert (H3 : sample_try_bind [] no_kwargs "v" v_variadic true ctx_top =
               Ok call_v) by (vm_compute; reflexivity).
  split; [|split; [|split; [exact H3|]]].
  - apply (proj2 (Hphase _ [] false false H1)).
    intros p [->|[->|Hp%elem_of_nil]%elem_of_cons]%elem_of_cons Hk;
      [by eexists | discriminate | done].
  - apply (proj1 (Hphase _ [] false false H2)).
    exists (positional "x" T_int64 None). split; [left|done].
  - apply (Hflag ctx_top [] no_kwargs "v" v_variadic true call_v);
      [discriminate | exact H3 | reflexivity].
Defined.

(** [f(1)] and [f(1, y := "b")] on [f(x: int64, NAMED ONLY y: str = "a")]. *)
Lemma defaults_bitmask_witness :
  (∃ st bound pd hev bytes_t text rest,
     sample_bind_steps ctx_top [arg_1] no_kwargs
       (pg_params (spec_as_pg_params (func_params f_xy))) =
       Ok (Some (st, bound, pd, hev)) ∧
     sample_schema_get (ctx_schema ctx_top) "std::bytes" = Ok bytes_t ∧
     bc_args call_f_1 =
       Some (EnsureSet (BytesConstant text bytes_t) bytes_t :: rest) ∧
     length rest = length bound ∧
     String.length text =
       (length (pg_params (spec_as_pg_params (func_params f_xy))) / 8 + 1)%nat ∧
     (∀ i, mask_bit text i = true ↔ marked bound i) ∧
     (∀ i p v, bound !! i = Some (p, v) → v ≠ IRNone → rest !! i = Some v) ∧
     (∀ i p, bound !! i = Some (p, IRNone) →
             ∃ t, rest !! i = Some (EnsureSet (EmptySet t (param_name p)) t))) ∧
  sample_try_bind [arg_1] (<["y" := arg_b]> no_kwargs) "f" f_xy true ctx_top =
    Ok call_f_1_b ∧
  (∀ i, mask_bit (text_of_byte 0) i = false).
Proof.
  assert (Hf : sample_try_bind [arg_1] no_kwargs "f" f_xy true ctx_top =
               Ok call_f_1) by (vm_compute; reflexivity).
  assert (Hfb : sample_try_bind [arg_1] (<["y" := arg_b]> no_kwargs) "f" f_xy
                                true ctx_top = Ok call_f_1_b)
    by (vm_compute; reflexivity).
  split; [|split; [exact Hfb|]].
  - apply (defaults_bitmask sample_is_polymorphic sample_resolve_polymorphic
           sample_issubclass sample_implicitly_castable_to
           sample_to_nonpolymorphic sample_get_subtypes sample_type_name
           sample_schema_get sample_get_ir_default sample_is_empty
           spec_as_pg_params sample_params_is_polymorphic
             ctx_top [arg_1] no_kwargs "f" f_xy true call_f_1).
    + reflexivity.
    + discriminate.
    + repeat constructor. discriminate.
    + apply map_Forall_empty.
    + exact Hf.
    + reflexivity.
  - destruct (defaults_bitmask sample_is_polymorphic sample_resolve_polymorphic
           sample_issubclass sample_implicitly_castable_to
           sample_to_nonpolymorphic sample_get_subtypes sample_type_name
           sample_schema_get sample_get_ir_default sample_is_empty
           spec_as_pg_params sample_params_is_polymorphic
                ctx_top [arg_1] (<["y" := arg_b]> no_kwargs) "f" f_xy true
                call_f_1_b)
      as (st & bound & pd & hev & bytes_t & text & rest & Hsteps & _ & Hargs &
          _ & _ & Hbits & _).
    + reflexivity.
    + discriminate.
    + repeat constructor. discriminate.
    + apply map_Forall_insert_2; [discriminate | apply map_Forall_empty].
    + exact Hfb.
    + reflexivity.
    + injection Hargs as <- _.
      assert (Hb : bound = [(named_only "y" T_str (Some "'a'"), IRExpr 2);
                            (positional "x" T_int64 None, IRExpr 1)]).
      { vm_compute in Hsteps. injection Hsteps as _ <- _ _.
        vm_compute. reflexivity. }
      intros i. destruct (mask_bit (text_of_byte 0) i) eqn:Hi; [|reflexivity].
      apply Hbits in Hi as [p Hp]. subst bound.
      destruct i as [|[|i]]; discriminate.
Defined.

(** The spec's example has it the other way round: in [f(1)] the defaulted
    [y] is the first bound argument (NAMED ONLY parameters are bound first),
    so the mask is the byte 1: bit 0 is set and bit 1 is not. *)
Lemma defaults_bitmask_bit_1_counterexample :
  sample_try_bind [arg_1] no_kwargs "f" f_xy true ctx_top = Ok call_f_1 ∧
  bc_args call_f_1 =
    Some [EnsureSet (BytesConstant (text_of_byte 1) T_bytes) T_bytes;
          EnsureSet (EmptySet T_str "y") T_str;
          IRExpr 1] ∧
  mask_bit (text_of_byte 1) 1 = false ∧
  mask_bit (text_of_byte 1) 0 = true.
Proof. repeat split; vm_compute; reflexivity. Qed.


(** [g(1)] on [g(x: float64)] matches through the implicit cast of the
    [int64] argument, and returns the declared [float64]. *)
Lemma match_is_justified_witness :
  (∃ c, c ∈ supplied_checks sample_get_subtypes [arg_1] no_kwargs []
              [positional "x" T_float64 None] ∧
        sample_issubclass c.1 c.2 = false ∧
        sample_implicitly_castable_to c.1 c.2 () = true) ∧
  bc_return_type call_g_float = Some T_float64.
Proof.
  destruct (match_is_justified sample_is_polymorphic sample_resolve_polymorphic
           sample_issubclass sample_implicitly_castable_to
           sample_to_nonpolymorphic sample_get_subtypes sample_type_name
           sample_schema_get sample_get_ir_default sample_is_empty
           spec_as_pg_params sample_params_is_polymorphic
              ctx_top [arg_1] no_kwargs "g" g_float true
              [] [positional "x" T_float64 None] call_g_float)
    as (Hc & Hr & _).
  - discriminate.
  - reflexivity.
  - constructor.
  - repeat constructor; discriminate.
  - vm_compute; reflexivity.
  - reflexivity.
  - split; [exact (Hc eq_refl) | exact (Hr eq_refl)].
Defined.

(** [f(1)] on [f(x: int64, NAMED ONLY y: str = "a")]: [y] first, unfilled,
    then the argument bound to [x]. *)
Lemma binding_layout_witness :
  ∃ pos trailing,
    [(named_only "y" T_str (Some "'a'"), IRNone);
     (positional "x" T_int64 None, IRExpr 1)] =
      (named_entry no_kwargs <$> [named_only "y" T_str (Some "'a'")]) ++
      pos ++ trailing ∧
    pos.*2 = [arg_1].*2.
Proof.
  assert (H1 : Forall (λ p : @FuncParameter sample_type,
                         param_kind p = NAMED_ONLY)
                      [named_only "y" T_str (Some "'a'")])
    by (repeat constructor).
  assert (H2 : Forall (λ p : @FuncParameter sample_type,
                         param_kind p ≠ NAMED_ONLY)
                      [positional "x" T_int64 None])
    by (repeat constructor; discriminate).
  assert (H3 : NoDup (param_name <$> [named_only "y" T_str (Some "'a'")]))
    by apply NoDup_singleton.
  assert (H4 : sample_bind_steps ctx_top [arg_1] no_kwargs
                 ([named_only "y" T_str (Some "'a'")] ++
                  [positional "x" T_int64 None]) =
               Ok (Some (mkBindState false None,
                         [(named_only "y" T_str (Some "'a'"), IRNone);
                          (positional "x" T_int64 None, IRExpr 1)],
                         true, false)))
    by (vm_compute; reflexivity).
  destruct (binding_layout sample_is_polymorphic sample_resolve_polymorphic
              sample_issubclass sample_implicitly_castable_to
              sample_get_subtypes sample_get_ir_default spec_as_pg_params
              sample_params_is_polymorphic
              ctx_top [arg_1] no_kwargs _ _ _ _ _ _ H1 H2 H3 H4)
    as (pos & trailing & Hb & Hp & _).
  exists pos, trailing. split; [exact Hb | exact Hp].
Defined.

(** The calls [k(1)] and [k("b")] against the group of [h()] and
    [g(x: int64)]. *)
Definition call_k (e : nat) : @QlFunctionCall nat :=
  mkQlFunctionCall (FuncStr "k") [mkFuncArg e [] None] [].

(** [k(1)] compiles to a call of [g(x: int64)], a candidate of the group
    that matches the compiled argument. *)
Lemma orchestrator_selects_candidate_witness :
  ∃ funcs args kwargs call,
    sample_get_functions ctx_top (Unqualified "k") = Ok (Some funcs) ∧
    g_int ∈ funcs ∧
    sample_try_bind args kwargs "k" g_int (bool_decide (length funcs = 1))
                    ctx_top = Ok call ∧
    is_match call = true ∧
    Some [IRExpr 1] = bc_args call.
Proof.
  assert (H : sample_compile_FunctionCall (call_k 1) ctx_top =
              Ok (mkCallSet
                    (mkFunctionCall g_int (Some [IRExpr 1]) (Some T_int64)
                                    false None)
                    (Some T_int64))) by (vm_compute; reflexivity).
  destruct (orchestrator_selects_candidate
           sample_is_polymorphic sample_resolve_polymorphic
           sample_issubclass sample_implicitly_castable_to
           sample_to_nonpolymorphic sample_get_subtypes sample_type_name
           sample_schema_get sample_get_ir_default sample_is_empty
           spec_as_pg_params sample_params_is_polymorphic
           (λ e : nat, e) (λ e _, e) (λ _ e, e)
           sample_dispatch_compile sample_scoped_set sample_infer_type
           sample_params_get_by_name sample_get_functions
           sample_infer_call_type sample_compile_type_cast
           (call_k 1) ctx_top _ H)
    as (funcname & funcs & args & kwargs & call &
        Hn & Hf & _ & Hin & Hb & Hm & Ha & _).
  injection Hn as <-.
  exists funcs, args, kwargs, call.
  split; [exact Hf|]. split; [exact Hin|]. split; [exact Hb|].
  split; [exact Hm | exact Ha].
Defined.

(** [k("b")]: neither [h()] nor [g(x: int64)] takes a [str]. *)
Lemma no_candidate_matches_witness :
  sample_compile_FunctionCall (call_k 2) ctx_top =
  Err (EdgeQLError "could not find a function variant").
Proof.
  apply (no_candidate_matches
           sample_is_polymorphic sample_resolve_polymorphic
           sample_issubclass sample_implicitly_castable_to
           sample_to_nonpolymorphic sample_get_subtypes sample_type_name
           sample_schema_get sample_get_ir_default sample_is_empty
           spec_as_pg_params sample_params_is_polymorphic
           (λ e : nat, e) (λ e _, e) (λ _ e, e)
           sample_dispatch_compile sample_scoped_set sample_infer_type
           sample_params_get_by_name sample_get_functions
           sample_infer_call_type sample_compile_type_cast
           (call_k 2) ctx_top (Unqualified "k") [h_native; g_int]
           [arg_b] ∅).
  - reflexivity.
  - reflexivity.
  - reflexivity.
  - intros f Hf. exists _NO_MATCH.
    apply elem_of_cons in Hf as [->|Hf]; [by vm_compute|].
    apply elem_of_cons in Hf as [->|Hf]; [by vm_compute|].
    by apply elem_of_nil in Hf.
Defined.

(** [n(1, y := 1)]: one positional and one named argument, each compiled
    and typed. *)
Example compiled_args_of_call :
  compile_call_args (λ e : nat, e) (λ e _, e) (λ _ e, e)
    sample_dispatch_compile sample_scoped_set sample_infer_type
    (mkQlFunctionCall (FuncStr "n") [mkFuncArg 1 [] None]
                      [("y", mkFuncArg 1 [] None)])
    (Unqualified "n") ctx_top =
  Ok ([arg_1], <["y" := arg_1]> no_kwargs).
Proof. vm_compute. reflexivity. Qed.


End func.

